(** * Infinity Stones search engine: boolean queries, fuzzy matching,
      the LRU result cache, facet filtering and the search entry point.

    A shallow embedding of
      - [advanced_search_features.py] (FuzzySearchEngine, BooleanSearchEngine,
        FacetedSearchEngine),
      - [advanced_caching.py] (LRUCache, MultiLevelCache, CacheWarmer,
        PerformanceMonitor),
      - [infinity_search_engine.py] (validate_query, the inverted index,
        search, search_boolean, the stages that write to the product records,
        the diversity pass of the Reality Stone, the combination of the
        stones' results and the ranking pass),
    followed by the properties established for them.

    Conventions of the embedding.
      - A Python [str] is a [string]; its characters are the 8-bit [ascii]
        characters, and [str.lower], [str.upper], [str.split], [str.strip]
        and the regular expression class [\w] act as they do on ASCII text.
      - A Python [dict] used as a map is a [gmap], a [set] of ids a [gset];
        an [OrderedDict], where the order is observed, is an association list.
      - A Python [float] that holds a score is an exact rational [Qc].
      - An exception is a value of [exn]; code that can raise returns a
        [result]. *)

From stdpp Require Import gmap strings list fin_maps sorting pretty.
From Stdlib Require Import Ascii QArith Qcanon.

Local Close Scope Qc_scope.
Local Close Scope Q_scope.
Local Open Scope string_scope.
Set Warnings "-clear-no-such-hyp".

(* ===================================================================== *)
(** * Part I.  The program                                                *)
(* ===================================================================== *)

(** ** Exceptions and results *)

Inductive exn : Type :=
| ValueError (msg : string)
| StopIteration
| KeyError (key : string)
| IndexError
| RecursionLimit
| ValidationError (msg : string)
| SearchError (msg : string)
| OtherError (msg : string).

Inductive result (A : Type) : Type :=
| Ok (a : A)
| Raise (e : exn).
Arguments Ok {A} a.
Arguments Raise {A} e.

#[global] Instance result_ret : MRet result := fun A a => Ok a.
#[global] Instance result_bind : MBind result := fun A B k r =>
  match r with
  | Ok a => k a
  | Raise e => Raise e
  end.

Definition is_ok {A} (r : result A) : bool :=
  match r with Ok _ => true | Raise _ => false end.

(** Rational constants: [n # d] and whole numbers. *)
Definition qc (n : Z) (d : positive) : Qc := Q2Qc (Qmake n d).
Definition qz (n : Z) : Qc := qc n 1.

(** ** Python string primitives (ASCII) *)

Definition code (c : ascii) : nat := nat_of_ascii c.

Definition is_upper (c : ascii) : bool := (65 <=? code c)%nat && (code c <=? 90)%nat.
Definition is_lower (c : ascii) : bool := (97 <=? code c)%nat && (code c <=? 122)%nat.
Definition is_digit (c : ascii) : bool := (48 <=? code c)%nat && (code c <=? 57)%nat.

(** [str.isspace] on one character: TAB, LF, VT, FF, CR, FS, GS, RS, US, SPACE. *)
Definition is_space (c : ascii) : bool :=
  ((9 <=? code c)%nat && (code c <=? 13)%nat)
  || ((28 <=? code c)%nat && (code c <=? 32)%nat).

(** [\w] of the [re] module on ASCII text. *)
Definition is_word_char (c : ascii) : bool :=
  is_upper c || is_lower c || is_digit c || (code c =? 95)%nat.

Definition lower_char (c : ascii) : ascii :=
  if is_upper c then ascii_of_nat (code c + 32) else c.
Definition upper_char (c : ascii) : ascii :=
  if is_lower c then ascii_of_nat (code c - 32) else c.

Fixpoint str_map (f : ascii -> ascii) (s : string) : string :=
  match s with
  | EmptyString => EmptyString
  | String c s' => String (f c) (str_map f s')
  end.

(** [s.lower()] and [s.upper()], as they act on the letters A to Z and a to
    z. On a string of ASCII characters this is all that Python does; the
    case mappings of other characters are not modelled, and a property that
    needs a law of case ([upper] after [lower], say) is stated for ASCII
    strings. *)
Definition lower (s : string) : string := str_map lower_char s.
Definition upper (s : string) : string := str_map upper_char s.

(** [s.isascii()] *)
Definition isascii (s : string) : bool :=
  forallb (fun c => (code c <? 128)%nat) (String.list_ascii_of_string s).

Fixpoint str_rev_app (s acc : string) : string :=
  match s with
  | EmptyString => acc
  | String c s' => str_rev_app s' (String c acc)
  end.
Definition str_rev (s : string) : string := str_rev_app s EmptyString.

(** [s.split()]: the maximal runs of non-space characters, in order.
    [cur] is the run being read, reversed. *)
Fixpoint split_go (cur : string) (s : string) : list string :=
  match s with
  | EmptyString =>
      match cur with EmptyString => [] | _ => [str_rev cur] end
  | String c s' =>
      if is_space c then
        match cur with
        | EmptyString => split_go EmptyString s'
        | _ => str_rev cur :: split_go EmptyString s'
        end
      else split_go (String c cur) s'
  end.
Definition split (s : string) : list string := split_go EmptyString s.

(** [sep.join(parts)] *)
Fixpoint join (sep : string) (parts : list string) : string :=
  match parts with
  | [] => EmptyString
  | [p] => p
  | p :: rest => p ++ sep ++ join sep rest
  end.

Fixpoint lstrip (s : string) : string :=
  match s with
  | EmptyString => EmptyString
  | String c s' => if is_space c then lstrip s' else s
  end.

(** [s.strip()] *)
Definition strip (s : string) : string := str_rev (lstrip (str_rev (lstrip s))).

(** [s[:n]] for a non-negative [n] *)
Fixpoint str_take (n : nat) (s : string) : string :=
  match n, s with
  | S n', String c s' => String c (str_take n' s')
  | _, _ => EmptyString
  end.

Fixpoint str_filter (keep : ascii -> bool) (s : string) : string :=
  match s with
  | EmptyString => EmptyString
  | String c s' =>
      if keep c then String c (str_filter keep s') else str_filter keep s'
  end.

(** [s.replace(c, r)] for a one-character pattern [c] *)
Fixpoint replace_char (c : ascii) (r : string) (s : string) : string :=
  match s with
  | EmptyString => EmptyString
  | String d s' =>
      if decide (d = c) then r ++ replace_char c r s'
      else String d (replace_char c r s')
  end.

(** [re.findall(r'\b\w+\b', s)]: the maximal runs of word characters. *)
Fixpoint words_go (cur : string) (s : string) : list string :=
  match s with
  | EmptyString =>
      match cur with EmptyString => [] | _ => [str_rev cur] end
  | String c s' =>
      if is_word_char c then words_go (String c cur) s'
      else
        match cur with
        | EmptyString => words_go EmptyString s'
        | _ => str_rev cur :: words_go EmptyString s'
        end
  end.
Definition findall_words (s : string) : list string := words_go EmptyString s.

(** [needle in haystack] for strings *)
Fixpoint is_prefix (p s : string) : bool :=
  match p, s with
  | EmptyString, _ => true
  | String a p', String b s' => if decide (a = b) then is_prefix p' s' else false
  | String _ _, EmptyString => false
  end.
Fixpoint contains (needle haystack : string) : bool :=
  is_prefix needle haystack
  || match haystack with
     | EmptyString => false
     | String _ h' => contains needle h'
     end.

(** ** Boolean Query Engine  (advanced_search_features.py, BooleanSearchEngine) *)

(** The expression tree. The source builds nested dicts discriminated by
    their ['type'] entry: ['term'], ['and'], ['or'], ['not'], ['empty']. *)
Inductive QueryExpression : Type :=
| Term (value : string)
| And (left right : QueryExpression)
| Or (left right : QueryExpression)
| Not (operand : QueryExpression)
| Empty.

(** [self.operators = {'AND', 'OR', 'NOT', '(', ')'}] *)
Definition operators : list string := ["AND"; "OR"; "NOT"; "("; ")"].

Definition is_operator (token : string) : bool := bool_decide (token ∈ operators).

(** [_tokenize_boolean_query] *)
Definition _tokenize_boolean_query (query : string) : list string :=
  let query := upper query in
  let query := replace_char ")" " ) " (replace_char "(" " ( " query) in
  (fun token =>
     let token := strip token in
     if is_operator token then token else lower token)
  <$> filter (fun token => strip token <> EmptyString) (split query).

(** The recursive-descent parser. Positions index the token list as in the
    source; [fuel] bounds the number of nested calls (the two [while] loops
    are the functions [_or_loop] and [_and_loop]; [lhs] and [rhs] are the
    source's [left] and [right]). The interpreter's own limit on the depth
    of recursion, which a query nested some hundreds of parentheses deep
    would meet, is left out. *)
Fixpoint _parse_or_expression (fuel : nat) (tokens : list string) (pos : nat)
  {struct fuel} : result (QueryExpression * nat) :=
  match fuel with
  | O => Raise RecursionLimit
  | S fuel =>
      '(lhs, pos) ← _parse_and_expression fuel tokens pos;
      _or_loop fuel tokens lhs pos
  end
with _or_loop (fuel : nat) (tokens : list string) (lhs : QueryExpression)
  (pos : nat) {struct fuel} : result (QueryExpression * nat) :=
  match fuel with
  | O => Raise RecursionLimit
  | S fuel =>
      if bool_decide (tokens !! pos = Some "OR") then
        let pos := pos + 1 in
        '(rhs, pos) ← _parse_and_expression fuel tokens pos;
        _or_loop fuel tokens (Or lhs rhs) pos
      else Ok (lhs, pos)
  end
with _parse_and_expression (fuel : nat) (tokens : list string) (pos : nat)
  {struct fuel} : result (QueryExpression * nat) :=
  match fuel with
  | O => Raise RecursionLimit
  | S fuel =>
      '(lhs, pos) ← _parse_not_expression fuel tokens pos;
      _and_loop fuel tokens lhs pos
  end
with _and_loop (fuel : nat) (tokens : list string) (lhs : QueryExpression)
  (pos : nat) {struct fuel} : result (QueryExpression * nat) :=
  match fuel with
  | O => Raise RecursionLimit
  | S fuel =>
      if bool_decide (tokens !! pos = Some "AND") then
        let pos := pos + 1 in
        '(rhs, pos) ← _parse_not_expression fuel tokens pos;
        _and_loop fuel tokens (And lhs rhs) pos
      else Ok (lhs, pos)
  end
with _parse_not_expression (fuel : nat) (tokens : list string) (pos : nat)
  {struct fuel} : result (QueryExpression * nat) :=
  match fuel with
  | O => Raise RecursionLimit
  | S fuel =>
      if bool_decide (tokens !! pos = Some "NOT") then
        let pos := pos + 1 in
        '(expr, pos) ← _parse_primary_expression fuel tokens pos;
        Ok (Not expr, pos)
      else _parse_primary_expression fuel tokens pos
  end
with _parse_primary_expression (fuel : nat) (tokens : list string) (pos : nat)
  {struct fuel} : result (QueryExpression * nat) :=
  match fuel with
  | O => Raise RecursionLimit
  | S fuel =>
      match tokens !! pos with
      | None => Raise (ValueError "Unexpected end of expression")
      | Some tok =>
          if bool_decide (tok = "(") then
            let pos := pos + 1 in
            '(expr, pos) ← _parse_or_expression fuel tokens pos;
            if bool_decide (tokens !! pos = Some ")") then Ok (expr, pos + 1)
            else Raise (ValueError "Missing closing parenthesis")
          else if negb (is_operator tok) then Ok (Term tok, pos + 1)
          else Raise (ValueError ("Unexpected token: " ++ tok))
      end
  end.

(** Nesting is bounded by the number of tokens, and six calls are made per
    token at most; this fuel is never exhausted ([parse_fuel_enough]). *)
Definition parse_fuel (tokens : list string) : nat := 6 * length tokens + 6.

(** [_parse_expression]: note the position returned by
    [_parse_or_expression] is dropped ([...[0]]). *)
Definition _parse_expression (tokens : list string) : result QueryExpression :=
  match tokens with
  | [] => Ok Empty
  | _ =>
      '(expression, _) ← _parse_or_expression (parse_fuel tokens) tokens 0;
      Ok expression
  end.

(** The dict returned by [parse_boolean_query]. *)
Inductive ParsedQuery : Type :=
| ParseSuccess (expression : QueryExpression) (original_query : string)
    (tokens : list string)
| ParseFailure (error : exn) (fallback_terms : list string).

Definition success (p : ParsedQuery) : bool :=
  match p with ParseSuccess _ _ _ => true | ParseFailure _ _ => false end.

Definition parse_boolean_query (query : string) : ParsedQuery :=
  let tokens := _tokenize_boolean_query query in
  match _parse_expression tokens with
  | Ok expression => ParseSuccess expression query tokens
  | Raise e => ParseFailure e (split query)
  end.

(** [all_products] of the ['not'] branch: every set in
    [product_matches.values()] is added in turn. *)
Definition all_products (product_matches : gmap string (gset string)) : gset string :=
  map_fold (fun _ product_set acc => acc ∪ product_set) ∅ product_matches.

(** [evaluate_boolean_expression] *)
Fixpoint evaluate_boolean_expression (expression : QueryExpression)
  (product_matches : gmap string (gset string)) : gset string :=
  match expression with
  | Term term => default ∅ (product_matches !! term)
  | And l r =>
      let left_results := evaluate_boolean_expression l product_matches in
      let right_results := evaluate_boolean_expression r product_matches in
      left_results ∩ right_results
  | Or l r =>
      let left_results := evaluate_boolean_expression l product_matches in
      let right_results := evaluate_boolean_expression r product_matches in
      left_results ∪ right_results
  | Not operand =>
      let operand_results := evaluate_boolean_expression operand product_matches in
      all_products product_matches ∖ operand_results
  | Empty => ∅
  end.

(** ** Result Cache  (advanced_caching.py, LRUCache) *)

(** The [OrderedDict] [self.cache] is the association list of its items in
    iteration order, first item first; a [dict] holds a key once. *)
Section OrderedDict.
Context {V : Type}.

(** [key in od] *)
Definition od_contains (key : string) (od : list (string * V)) : bool :=
  bool_decide (key ∈ od.*1).

(** [od[key]] of a present key *)
Fixpoint od_lookup (key : string) (od : list (string * V)) : option V :=
  match od with
  | [] => None
  | (k, v) :: od' => if decide (k = key) then Some v else od_lookup key od'
  end.

(** [del od[key]] *)
Definition od_del (key : string) (od : list (string * V)) : list (string * V) :=
  filter (fun kv => kv.1 <> key) od.

(** [od[key] = value]: a present key keeps its place, a new key goes last. *)
Fixpoint od_set (key : string) (value : V) (od : list (string * V))
  : list (string * V) :=
  match od with
  | [] => [(key, value)]
  | (k, v) :: od' =>
      if decide (k = key) then (k, value) :: od'
      else (k, v) :: od_set key value od'
  end.

End OrderedDict.

(** The cache object. [max_size] counts entries; times (the readings of
    [time.time()]) and [ttl] are seconds. *)
Record LRUCache (V : Type) : Type := mkLRUCache {
  max_size : nat;
  ttl : Qc;
  cache : list (string * V);
  access_times : gmap string Qc;
  hits : nat;
  misses : nat;
  evictions : nat
}.
Arguments mkLRUCache {V}.
Arguments max_size {V}.
Arguments ttl {V}.
Arguments cache {V}.
Arguments access_times {V}.
Arguments hits {V}.
Arguments misses {V}.
Arguments evictions {V}.

Section LRUCacheOps.
Context {V : Type}.
Implicit Types (c : LRUCache V) (key : string) (value : V).

(** [__init__] *)
Definition LRUCache_init (max_size : nat) (ttl : Qc) : LRUCache V :=
  mkLRUCache max_size ttl [] ∅ 0 0 0.

(** [size] *)
Definition size_ c : nat := length (cache c).

Definition set_store c (items : list (string * V)) (times : gmap string Qc)
  : LRUCache V :=
  mkLRUCache (max_size c) (ttl c) items times (hits c) (misses c) (evictions c).
Definition count_hit c : LRUCache V :=
  mkLRUCache (max_size c) (ttl c) (cache c) (access_times c)
    (S (hits c)) (misses c) (evictions c).
Definition count_miss c : LRUCache V :=
  mkLRUCache (max_size c) (ttl c) (cache c) (access_times c)
    (hits c) (S (misses c)) (evictions c).
Definition count_eviction c : LRUCache V :=
  mkLRUCache (max_size c) (ttl c) (cache c) (access_times c)
    (hits c) (misses c) (S (evictions c)).

(** [_remove]. [del self.access_times[key]] raises [KeyError] when the key
    has no access time; the entry is gone from [self.cache] by then. *)
Definition _remove key c : LRUCache V * result unit :=
  if od_contains key (cache c) then
    let c := set_store c (od_del key (cache c)) (access_times c) in
    match access_times c !! key with
    | Some _ => (set_store c (cache c) (delete key (access_times c)), Ok ())
    | None => (c, Raise (KeyError key))
    end
  else (c, Ok ()).

(** [get]. [now] is the clock reading of the expiry test, [now'] the one
    stored on a hit. The result is [None] for Python's [None]. *)
Definition get (now now' : Qc) key c : LRUCache V * result (option V) :=
  if od_contains key (cache c) then
    match access_times c !! key with
    | None => (c, Raise (KeyError key))
    | Some accessed =>
        if decide (ttl c < now - accessed)%Qc then
          match _remove key c with
          | (c, Ok _) => (count_miss c, Ok None)
          | (c, Raise e) => (c, Raise e)
          end
        else
          match od_lookup key (cache c) with
          | None => (c, Raise (KeyError key))
          | Some value =>
              let c := set_store c (od_del key (cache c)) (access_times c) in
              let c := set_store c (od_set key value (cache c)) (access_times c) in
              let c := set_store c (cache c) (<[key := now']> (access_times c)) in
              (count_hit c, Ok (Some value))
          end
    end
  else (count_miss c, Ok None).

(** [put]. [next(iter(self.cache))] raises [StopIteration] on an empty
    [OrderedDict]. *)
Definition put (current_time : Qc) key value c : LRUCache V * result unit :=
  if od_contains key (cache c) then
    let c := set_store c (od_del key (cache c)) (access_times c) in
    let c := set_store c (od_set key value (cache c)) (access_times c) in
    (set_store c (cache c) (<[key := current_time]> (access_times c)), Ok ())
  else
    let evicted :=
      if bool_decide (max_size c <= length (cache c)) then
        match cache c with
        | [] => (c, Raise StopIteration)
        | (oldest_key, _) :: _ =>
            match _remove oldest_key c with
            | (c, Ok _) => (count_eviction c, Ok ())
            | (c, Raise e) => (c, Raise e)
            end
        end
      else (c, Ok ()) in
    match evicted with
    | (c, Ok _) =>
        let c := set_store c (od_set key value (cache c)) (access_times c) in
        (set_store c (cache c) (<[key := current_time]> (access_times c)), Ok ())
    | (c, Raise e) => (c, Raise e)
    end.

(** [clear] *)
Definition clear c : LRUCache V := set_store c [] ∅.

(** The loop of [cleanup_expired] over [expired_keys]. *)
Fixpoint remove_all (keys : list string) c : LRUCache V * result unit :=
  match keys with
  | [] => (c, Ok ())
  | key :: keys =>
      match _remove key c with
      | (c, Ok _) => remove_all keys c
      | (c, Raise e) => (c, Raise e)
      end
  end.

(** [cleanup_expired]: returns [len(expired_keys)]. *)
Definition cleanup_expired (current_time : Qc) c : LRUCache V * result nat :=
  let expired_keys :=
    (map_to_list (filter (fun kt => (ttl c < current_time - kt.2)%Qc)
                         (access_times c))).*1 in
  match remove_all expired_keys c with
  | (c, Ok _) => (c, Ok (length expired_keys))
  | (c, Raise e) => (c, Raise e)
  end.

(** A client's call, with the clock readings it meets. *)
Inductive cache_op : Type :=
| OpGet (now now' : Qc) (key : string)
| OpPut (current_time : Qc) (key : string) (value : V)
| OpCleanup (current_time : Qc).

(** The cache after a call; an exception leaves the object as it was when
    it was raised. *)
Definition cache_step c (o : cache_op) : LRUCache V :=
  match o with
  | OpGet now now' key => (get now now' key c).1
  | OpPut t key value => (put t key value c).1
  | OpCleanup t => (cleanup_expired t c).1
  end.

Definition cache_run (ops : list cache_op) c : LRUCache V :=
  foldl cache_step c ops.

(** What every reachable cache satisfies: one entry per key, and an access
    time for exactly the stored keys. *)
Definition cache_wf c : Prop :=
  NoDup (cache c).*1 /\ dom (access_times c) = list_to_set (cache c).*1.

End LRUCacheOps.

(** *** The order of use *)

(** The key that a call uses: a [put] that returns uses its key, and so
    does a [get] that returns the value stored. A [get] that finds nothing,
    a call that raises and a cleanup use no key. *)
Definition used_key {V : Type} (c : LRUCache V) (o : @cache_op V)
  : option string :=
  match o with
  | OpGet now now' key =>
      match (get now now' key c).2 with
      | Ok (Some _) => Some key
      | _ => None
      end
  | OpPut t key value =>
      match (put t key value c).2 with
      | Ok _ => Some key
      | Raise _ => None
      end
  | OpCleanup _ => None
  end.

(** One call of a history: the cache after it, the position of the last
    use of each key, and the position of the next call. *)
Definition use_step {V : Type} (st : LRUCache V * gmap string nat * nat)
  (o : @cache_op V) : LRUCache V * gmap string nat * nat :=
  let '(c, used, i) := st in
  (cache_step c o,
   match used_key c o with
   | Some key => <[key := i]> used
   | None => used
   end,
   S i).

(** [last_use ops c !! key]: the position in [ops] of the last call that
    used [key], when [ops] are run on the cache [c]. *)
Definition last_use {V : Type} (ops : list (@cache_op V)) (c : LRUCache V)
  : gmap string nat :=
  (foldl use_step (c, ∅, 0) ops).1.2.

(** In the history [ops], the last use of [key] came before that of
    [key']. *)
Definition used_before {V : Type} (ops : list (@cache_op V)) (c : LRUCache V)
  (key key' : string) : Prop :=
  exists i j, last_use ops c !! key = Some i
              /\ last_use ops c !! key' = Some j /\ i < j.

(** [key] is the least recently used of the keys that the cache holds
    after [ops]: it is stored, and every other stored key has been used
    since [key] was last used. *)
Definition least_recently_used {V : Type} (ops : list (@cache_op V))
  (c : LRUCache V) (key : string) : Prop :=
  key ∈ (cache (cache_run ops c)).*1
  /\ forall key', key' ∈ (cache (cache_run ops c)).*1 -> key' <> key ->
                  used_before ops c key key'.

(** The stored keys are in the order of their last use, each used before
    position [i]: [used] holds the positions. *)
Definition use_ordered (used : gmap string nat) (i : nat) (keys : list string)
  : Prop :=
  StronglySorted
    (fun key key' => exists j j', used !! key = Some j
                                  /\ used !! key' = Some j' /\ j < j') keys
  /\ Forall (fun key => exists j, used !! key = Some j /\ j < i) keys.

(** ** Facet Engine  (advanced_search_features.py, FacetedSearchEngine) *)

(** A product record as the Facet Engine reads it: field name to string
    value. [doc_get product field d] is [product.get(field, d)]. *)
Definition doc_get (product : gmap string string) (field d : string) : string :=
  default d (product !! field).

(** [any(keyword in text for keyword in keywords)] *)
Definition any_in (keywords : list string) (text : string) : bool :=
  existsb (fun keyword => contains keyword text) keywords.

(** [_infer_category] *)
Definition _infer_category (product_type : string) : string :=
  let type_lower := lower product_type in
  if any_in ["phone"; "mobile"; "smartphone"; "tablet"] type_lower then
    "Mobile & Tablets"
  else if any_in ["laptop"; "computer"; "pc"; "desktop"] type_lower then
    "Computers"
  else if any_in ["headphone"; "earphone"; "speaker"; "audio"] type_lower then
    "Audio"
  else if any_in ["car"; "auto"; "vehicle"] type_lower then "Automotive"
  else if any_in ["camera"; "photo"; "lens"] type_lower then "Photography"
  else if any_in ["home"; "kitchen"; "furniture"] type_lower then
    "Home & Kitchen"
  else if any_in ["beauty"; "cosmetic"; "skincare"] type_lower then "Beauty"
  else if any_in ["sport"; "fitness"; "exercise"] type_lower then
    "Sports & Fitness"
  else "Other".

(** [_extract_price_range]; the first label is the source's literal. *)
Definition _extract_price_range (product : gmap string string) : string :=
  let text_fields :=
    [doc_get product "Sales Package" ""; doc_get product "Name" ""] in
  let full_text := lower (join " " text_fields) in
  if contains "under" full_text && any_in ["1000"; "500"; "100"] full_text then
    "Under â‚¹1000"
  else if any_in ["premium"; "expensive"; "high-end"] full_text then "Premium"
  else if any_in ["budget"; "affordable"; "cheap"] full_text then "Budget"
  else "Standard".

(** [_has_detailed_specs] *)
Definition _has_detailed_specs (product : gmap string string) : bool :=
  let sales_package := doc_get product "Sales Package" "" in
  if bool_decide (sales_package = "") then false
  else
    let spec_indicators :=
      ["gb"; "mb"; "inch"; "mp"; "mah"; "hz"; "ghz"; "ram"; "storage"; "battery"] in
    let spec_count :=
      length (filter (fun indicator => contains indicator (lower sales_package))
                     spec_indicators) in
    (2 <=? spec_count)%nat || (200 <? String.length sales_package)%nat.

(** The body of the loop over [filters.items()] in [filter_by_facets]: the
    flag [product_matches_facet] of one filter. *)
Definition product_matches_facet (product : gmap string string)
  (facet_name : string) (selected_values : list string) : bool :=
  if bool_decide (facet_name = "brand") then
    let product_brand := doc_get product "Brand" "" in
    bool_decide (product_brand ∈ selected_values)
  else if bool_decide (facet_name = "type") then
    let product_type := doc_get product "Type" "" in
    bool_decide (product_type ∈ selected_values)
  else if bool_decide (facet_name = "category") then
    let product_type := doc_get product "Type" "" in
    let inferred_category := _infer_category product_type in
    bool_decide (inferred_category ∈ selected_values)
  else if bool_decide (facet_name = "price_range") then
    let product_price_range := _extract_price_range product in
    bool_decide (product_price_range ∈ selected_values)
  else if bool_decide (facet_name = "has_specs") then
    let has_specs := if _has_detailed_specs product then "Yes" else "No" in
    bool_decide (has_specs ∈ selected_values)
  else false.

(** The loop over [filters.items()]: the value of [matches_all_filters]
    when the loop is left. [filters] lists the items of the dict in
    iteration order. *)
Fixpoint matches_all_filters (product : gmap string string)
  (filters : list (string * list string)) : bool :=
  match filters with
  | [] => true
  | (facet_name, selected_values) :: filters' =>
      match selected_values with
      | [] => matches_all_filters product filters'   (* continue *)
      | _ :: _ =>
          if product_matches_facet product facet_name selected_values
          then matches_all_filters product filters'
          else false                                  (* break *)
      end
  end.

(** [filter_by_facets]; [products] is [self.products]. *)
Definition filter_by_facets (products : list (gmap string string))
  (product_ids : gset string) (filters : list (string * list string))
  : gset string :=
  match filters with
  | [] => product_ids
  | _ :: _ =>
      foldl (fun (filtered_ids : gset string) product =>
               let product_id := doc_get product "id" "" in
               if bool_decide (product_id ∈ product_ids) then
                 if matches_all_filters product filters
                 then filtered_ids ∪ {[ product_id ]}
                 else filtered_ids
               else filtered_ids)
            ∅ products
  end.

(** The five facet names that [filter_by_facets] knows. *)
Definition recognized_facets : list string :=
  ["brand"; "type"; "category"; "price_range"; "has_specs"].

(** The value that [filter_by_facets] compares with the selection of a
    facet: the [Brand] and the [Type] field as they are stored (the empty
    string for a missing field), the category inferred from that type, the
    price tier and the flag of detailed specifications. This is what the
    filter reads, not the key that [_build_facets] counts the product
    under. *)
Definition filter_value (product : gmap string string) (facet_name : string)
  : option string :=
  if bool_decide (facet_name = "brand") then Some (doc_get product "Brand" "")
  else if bool_decide (facet_name = "type") then Some (doc_get product "Type" "")
  else if bool_decide (facet_name = "category") then
    Some (_infer_category (doc_get product "Type" ""))
  else if bool_decide (facet_name = "price_range") then
    Some (_extract_price_range product)
  else if bool_decide (facet_name = "has_specs") then
    Some (if _has_detailed_specs product then "Yes" else "No")
  else None.

(** A product passes [filters]: for every facet name present with a
    non-empty selection, the value the filter reads is one of the selected
    values. *)
Definition passes_filters (product : gmap string string)
  (filters : list (string * list string)) : Prop :=
  forall facet_name selected_values,
    (facet_name, selected_values) ∈ filters -> selected_values <> [] ->
    exists v, filter_value product facet_name = Some v /\ v ∈ selected_values.

(** ** Fuzzy Matcher  (advanced_search_features.py, FuzzySearchEngine) *)

(** A [len] or a counter as a score. *)
Definition qn (n : nat) : Qc := qz (Z.of_nat n).

(** The characters of a string, for the index loops. *)
Definition chars (s : string) : list ascii := String.list_ascii_of_string s.

(** *** [_jaro_similarity] *)

(** The inner loop [for j in range(start, end)] of the match phase, entered
    at [j] with [steps] values of [j] left: the [j] at which it [break]s. *)
Fixpoint find_match (c1 : ascii) (s2 : list ascii) (s2_matches : list bool)
  (j steps : nat) : option nat :=
  match steps with
  | O => None
  | S steps =>
      if default false (s2_matches !! j) || negb (bool_decide (s2 !! j = Some c1))
      then find_match c1 s2 s2_matches (S j) steps      (* continue *)
      else Some j
  end.

(** One round of [for i in range(len(s1))] of the match phase; the state is
    [(s1_matches, s2_matches, matches)]. *)
Definition match_step (s1 s2 : list ascii) (match_distance : nat)
  (st : list bool * list bool * nat) (i : nat) : list bool * list bool * nat :=
  let '(s1_matches, s2_matches, matches) := st in
  let start := i - match_distance in                        (* max(0, i - d) *)
  let end_ := Nat.min (i + match_distance + 1) (length s2) in
  match s1 !! i with
  | None => st
  | Some c1 =>
      match find_match c1 s2 s2_matches start (end_ - start) with
      | Some j => (<[i := true]> s1_matches, <[j := true]> s2_matches, S matches)
      | None => st
      end
  end.

Definition identify_matches (s1 s2 : list ascii) (match_distance : nat)
  : list bool * list bool * nat :=
  foldl (match_step s1 s2 match_distance)
        (replicate (length s1) false, replicate (length s2) false, 0)
        (seq 0 (length s1)).

(** [while not s2_matches[k]: k += 1]; indexing past the end raises
    [IndexError]. [fuel] bounds the number of tests. *)
Fixpoint next_matched (s2_matches : list bool) (k fuel : nat) : result nat :=
  match fuel with
  | O => Raise IndexError
  | S fuel =>
      match s2_matches !! k with
      | None => Raise IndexError
      | Some true => Ok k
      | Some false => next_matched s2_matches (S k) fuel
      end
  end.

(** One round of the loop that counts transpositions; the state is
    [(k, transpositions)]. *)
Definition transposition_step (s1 s2 : list ascii) (s1_matches s2_matches : list bool)
  (st : result (nat * nat)) (i : nat) : result (nat * nat) :=
  '(k, transpositions) ← st;
  if negb (default false (s1_matches !! i)) then Ok (k, transpositions)
  else
    k ← next_matched s2_matches k (S (length s2_matches - k));
    let transpositions :=
      if bool_decide (s1 !! i = s2 !! k) then transpositions
      else S transpositions in
    Ok (k + 1, transpositions).

Definition count_transpositions (s1 s2 : list ascii) (s1_matches s2_matches : list bool)
  : result nat :=
  '(_, transpositions) ←
    foldl (transposition_step s1 s2 s1_matches s2_matches) (Ok (0, 0))
          (seq 0 (length s1));
  Ok transpositions.

Definition _jaro_similarity (s1 s2 : string) : result Qc :=
  let a := chars s1 in
  let b := chars s2 in
  if bool_decide (length a = 0) && bool_decide (length b = 0) then Ok (qz 1)
  else if bool_decide (length a = 0) || bool_decide (length b = 0) then Ok (qz 0)
  else
    let match_distance := Nat.max (length a) (length b) / 2 - 1 in
    let '(s1_matches, s2_matches, matches) := identify_matches a b match_distance in
    if bool_decide (matches = 0) then Ok (qz 0)
    else
      transpositions ← count_transpositions a b s1_matches s2_matches;
      let jaro :=
        ((qn matches / qn (length a) + qn matches / qn (length b)
          + (qn matches - qn transpositions / qz 2) / qn matches) / qz 3)%Qc in
      Ok jaro.

(** *** The Jaro similarity as the specification defines it *)

(** The match window. *)
Definition jaro_window (len1 len2 : nat) : nat := Nat.max len1 len2 / 2 - 1.

(** The first position within [lo, hi) of [s2] that holds [c] and is not
    matched yet. *)
Definition first_unmatched (c : ascii) (s2 : list ascii) (matched2 : list bool)
  (lo hi : nat) : option nat :=
  snd <$> list_find (fun j => matched2 !! j = Some false /\ s2 !! j = Some c)
                    (seq lo (hi - lo)).

(** The characters of [s1] from position [i] on are matched in turn, each
    with the first unmatched equal character of [s2] within the window
    around its position. The result flags the matched positions of this
    part of [s1] and of [s2]. *)
Fixpoint jaro_matching (w : nat) (s2 : list ascii) (i : nat) (s1 : list ascii)
  (matched2 : list bool) : list bool * list bool :=
  match s1 with
  | [] => ([], matched2)
  | c :: s1' =>
      match first_unmatched c s2 matched2 (i - w) (Nat.min (i + w + 1) (length s2)) with
      | Some j =>
          let '(m1, m2) := jaro_matching w s2 (S i) s1' (<[j := true]> matched2) in
          (true :: m1, m2)
      | None =>
          let '(m1, m2) := jaro_matching w s2 (S i) s1' matched2 in
          (false :: m1, m2)
      end
  end.

(** The matched characters of a string, in their original order. *)
Fixpoint matched_chars (matched : list bool) (s : list ascii) : list ascii :=
  match matched, s with
  | true :: matched', c :: s' => c :: matched_chars matched' s'
  | false :: matched', _ :: s' => matched_chars matched' s'
  | _, _ => []
  end.

(** The matched characters of the two strings are aligned in original
    order; each position at which they differ is half a transposition. *)
Fixpoint misaligned (x y : list ascii) : nat :=
  match x, y with
  | c :: x', d :: y' => (if decide (c = d) then 0 else 1) + misaligned x' y'
  | _, _ => 0
  end.

Definition jaro_spec (s1 s2 : string) : Qc :=
  let a := chars s1 in
  let b := chars s2 in
  match a, b with
  | [], [] => qz 1
  | [], _ | _, [] => qz 0
  | _, _ =>
      let w := jaro_window (length a) (length b) in
      let '(m1, m2) := jaro_matching w b 0 a (replicate (length b) false) in
      let m := length (matched_chars m1 a) in
      let t := (qn (misaligned (matched_chars m1 a) (matched_chars m2 b)) / qz 2)%Qc in
      if bool_decide (m = 0) then qz 0
      else ((qn m / qn (length a) + qn m / qn (length b) + (qn m - t) / qn m)
            / qz 3)%Qc
  end.

(** *** [_levenshtein_distance] and [_levenshtein_similarity] *)

(** [l[j]] of an index that is in range *)
Definition at_ (l : list nat) (j : nat) : nat := nth j l 0.

(** The loop [for j, c2 in enumerate(s2)]. *)
Definition lev_inner (c1 : ascii) (previous_row : list nat)
  (current_row : list nat) (jc : nat * ascii) : list nat :=
  let '(j, c2) := jc in
  let insertions := at_ previous_row (j + 1) + 1 in
  let deletions := at_ current_row j + 1 in
  let substitutions := at_ previous_row j + (if decide (c1 = c2) then 0 else 1) in
  (current_row ++ [Nat.min insertions (Nat.min deletions substitutions)])%list.

(** The loop [for i, c1 in enumerate(s1)]. *)
Definition lev_outer (s2 : list ascii) (previous_row : list nat)
  (ic : nat * ascii) : list nat :=
  let '(i, c1) := ic in
  foldl (lev_inner c1 previous_row) [i + 1] (zip (seq 0 (length s2)) s2).

(** [_levenshtein_distance] once [len(s1) >= len(s2)]. *)
Definition lev_rows (s1 s2 : list ascii) : nat :=
  if bool_decide (length s2 = 0) then length s1
  else
    let previous_row :=
      foldl (lev_outer s2) (seq 0 (length s2 + 1)) (zip (seq 0 (length s1)) s1) in
    at_ previous_row (length previous_row - 1).

Definition _levenshtein_distance (s1 s2 : string) : nat :=
  if bool_decide (String.length s1 < String.length s2)
  then lev_rows (chars s2) (chars s1)
  else lev_rows (chars s1) (chars s2).

Definition _levenshtein_similarity (s1 s2 : string) : Qc :=
  if bool_decide (String.length s1 = 0) && bool_decide (String.length s2 = 0)
  then qz 1
  else
    let max_len := Nat.max (String.length s1) (String.length s2) in
    if bool_decide (max_len = 0) then qz 1
    else
      let distance := _levenshtein_distance s1 s2 in
      (qz 1 - qn distance / qn max_len)%Qc.

(** *** [find_fuzzy_matches] *)

Record FuzzyMatch : Type := mkFuzzyMatch {
  original_term : string;
  matched_term : string;
  similarity : Qc;
  source : string
}.

(** [max(xs)] of a non-empty list: the first greatest element. *)
Definition py_max (x : Qc) (xs : list Qc) : Qc :=
  foldl (fun best y => if decide (best < y)%Qc then y else best) x xs.

(** [sorted(l, key=key, reverse=True)] and [l.sort(key=key, reverse=True)]:
    the stable sort by decreasing key. An element is inserted before the
    first element whose key is not greater, so equal keys keep their
    order. *)
Fixpoint insert_desc {A : Type} (key : A -> Qc) (x : A) (l : list A) : list A :=
  match l with
  | [] => [x]
  | y :: l' =>
      if decide (key y <= key x)%Qc then x :: y :: l'
      else y :: insert_desc key x l'
  end.
Definition sort_desc {A : Type} (key : A -> Qc) (l : list A) : list A :=
  foldr (insert_desc key) [] l.

(** [key] does not increase from [x] to [y]. *)
Definition key_desc {A : Type} (key : A -> Qc) (x y : A) : Prop :=
  (key y <= key x)%Qc.

Section FuzzySearchEngine.

(** [difflib.SequenceMatcher(None, a, b).ratio()], of the Python library. *)
Variable ratio : string -> string -> Qc.
(** [self.similarity_threshold] *)
Variable similarity_threshold : Qc.

(** One round of [for term in corpus_terms]. *)
Definition fuzzy_step (query_term query_lower : string)
  (matches : result (list FuzzyMatch)) (term : string)
  : result (list FuzzyMatch) :=
  matches ← matches;
  let term_lower := lower term in
  if bool_decide (query_lower = term_lower) then Ok matches     (* continue *)
  else
    jaro ← _jaro_similarity query_lower term_lower;
    let best_similarity :=
      py_max (ratio query_lower term_lower)
             [jaro; _levenshtein_similarity query_lower term_lower] in
    if decide (similarity_threshold <= best_similarity)%Qc then
      Ok (matches ++ [mkFuzzyMatch query_term term best_similarity "corpus"])%list
    else Ok matches.

(** [find_fuzzy_matches]; [max_results] is a count. *)
Definition find_fuzzy_matches (query_term : string) (corpus_terms : list string)
  (max_results : nat) : result (list FuzzyMatch) :=
  let query_lower := lower query_term in
  matches ← foldl (fuzzy_step query_term query_lower) (Ok []) corpus_terms;
  Ok (take max_results (sort_desc similarity matches)).

(** What the loop records for a corpus term it keeps. *)
Definition fuzzy_match_ok (query_term : string) (corpus_terms : list string)
  (m : FuzzyMatch) : Prop :=
  let query_lower := lower query_term in
  let term_lower := lower (matched_term m) in
  original_term m = query_term
  /\ matched_term m ∈ corpus_terms
  /\ term_lower <> query_lower
  /\ similarity m
     = py_max (ratio query_lower term_lower)
              [jaro_spec query_lower term_lower;
               _levenshtein_similarity query_lower term_lower]
  /\ (similarity_threshold <= similarity m)%Qc.

End FuzzySearchEngine.

(** ** The search engine  (infinity_search_engine.py) *)

Local Open Scope list_scope.

(** [validate_query]. The characters removed by its [re.sub] (the two
    angle brackets, the double and the single quote) have the codes 60, 62,
    34 and 39. *)
Definition is_dangerous (c : ascii) : bool :=
  bool_decide (code c ∈ [60; 62; 34; 39]).

Definition validate_query (query : string) : result string :=
  if bool_decide (query = "") then
    Raise (ValidationError "Query must be a non-empty string")
  else
    let cleaned_query := strip query in
    if bool_decide (String.length cleaned_query = 0) then
      Raise (ValidationError "Query cannot be empty or whitespace only")
    else
      let cleaned_query :=
        if bool_decide (500 < String.length cleaned_query)
        then str_take 500 cleaned_query else cleaned_query in
      let cleaned_query := str_filter (fun c => negb (is_dangerous c)) cleaned_query in
      Ok cleaned_query.

(** A field value of a product record: what the JSON loader yields and what
    the stages attach. [VOther] stands for a list or a nested object. *)
Inductive value : Type :=
| VStr (s : string)
| VInt (n : Z)
| VFloat (x : Qc)
| VBool (b : bool)
| VNone
| VDict (items : list (string * string))
| VOther.

#[global] Instance value_eq_dec : EqDecision value.
Proof. solve_decision. Defined.

(** [isinstance(value, str)] *)
Definition as_str (v : value) : option string :=
  match v with VStr s => Some s | _ => None end.

Inductive StoneType : Type := SPACE | MIND | REALITY | POWER | TIME | SOUL.

#[global] Instance StoneType_eq_dec : EqDecision StoneType.
Proof. solve_decision. Defined.

(** [StoneType.value], which [f"{stone_preference}"] does not print: the
    cache key of [search] holds [str(stone_preference)]. *)
Definition StoneType_str (stone_preference : option StoneType) : string :=
  match stone_preference with
  | None => "None"
  | Some SPACE => "StoneType.SPACE"
  | Some MIND => "StoneType.MIND"
  | Some REALITY => "StoneType.REALITY"
  | Some POWER => "StoneType.POWER"
  | Some TIME => "StoneType.TIME"
  | Some SOUL => "StoneType.SOUL"
  end.

(** [SearchResult]. [product_data] is a reference to a record of
    [engine.products], which the stages update in place: it is the position
    of the record in that list. *)
Record SearchResult : Type := mkSearchResult {
  product_id : string;
  product_data : nat;
  relevance_score : Qc;
  stone_powers : list (StoneType * Qc);
  matched_fields : list string
}.

Definition set_relevance_score (r : SearchResult) (score : Qc) : SearchResult :=
  mkSearchResult (product_id r) (product_data r) score (stone_powers r)
    (matched_fields r).

(** The intent record of the Mind Stone. *)
Record Intent : Type := mkIntent { intent_type : string; confidence : Qc }.

(** The scoring and text functions of the stages, and the two sources of
    values that differ from run to run. They compute with floating-point
    logarithms and regular expressions; the engine model takes them as
    given. Those that index or measure a field may raise. *)
Record Scoring : Type := mkScoring {
  (** [hash(product_id)], salted per process *)
  hash : string -> Z;
  (** [time.time()] *)
  time_time : Qc;
  (** Mind Stone *)
  _process_query : string -> string;
  _detect_intent : string -> Intent;
  _add_highlighting : gmap string value -> list string -> result value;
  _generate_snippet : gmap string value -> list string -> result value;
  _extract_facets : gmap string value -> result value;
  _calculate_intent_boost :
    SearchResult -> gmap string value -> Intent -> result Qc;
  (** Reality Stone *)
  _apply_ranking_models :
    list (gmap string value) -> gmap string (list string) -> string ->
    list SearchResult -> result (list SearchResult);
  _apply_personalization :
    list (gmap string value) -> list SearchResult -> string ->
    result (list SearchResult);
  _apply_business_logic :
    list (gmap string value) -> list SearchResult -> result (list SearchResult);
  _ensure_diversity :
    list (gmap string value) -> list SearchResult -> result (list SearchResult);
  (** Power Stone *)
  _calculate_optimized_tfidf_score :
    list (gmap string value) -> gmap string (list string) ->
    gmap string value -> list string -> result Qc;
  combine_results : list (StoneType * list SearchResult) -> list SearchResult;
  (** Time Stone: the scan of [engine.products[:1000]] *)
  time_scan : list (gmap string value) -> string -> result (list SearchResult);
  (** Soul Stone *)
  _calculate_business_score : gmap string value -> result Qc;
  analyze_search :
    list (gmap string value) -> string -> list SearchResult -> result unit;
  (** The ranking pass of the engine *)
  _apply_ranking_algorithms :
    list (gmap string value) -> string -> list SearchResult ->
    result (list SearchResult);
  (** [str(e)] of an exception *)
  exn_str : exn -> string
}.

(** The engine object, as far as [search] reads and writes it: the product
    records, the inverted index, [len(space_stone.shard_metadata)], the
    query cache and the Power Stone's [distributed_cache] (keyed by
    [hash(query)]). *)
Record Engine : Type := mkEngine {
  products : list (gmap string value);
  index : gmap string (list string);
  shard_count : nat;
  search_cache : LRUCache (list SearchResult);
  distributed_cache : gmap Z (list SearchResult)
}.

Definition set_products (e : Engine) (ps : list (gmap string value)) : Engine :=
  mkEngine ps (index e) (shard_count e) (search_cache e) (distributed_cache e).
Definition set_search_cache (e : Engine) (c : LRUCache (list SearchResult))
  : Engine :=
  mkEngine (products e) (index e) (shard_count e) c (distributed_cache e).
Definition set_distributed_cache (e : Engine)
  (d : gmap Z (list SearchResult)) : Engine :=
  mkEngine (products e) (index e) (shard_count e) (search_cache e) d.

(** *** Code that updates the engine and may raise *)

Definition Eff (A : Type) : Type := Engine -> Engine * result A.

Definition eret {A} (a : A) : Eff A := fun e => (e, Ok a).
Definition eraise {A} (x : exn) : Eff A := fun e => (e, Raise x).
Definition ebind {A B} (m : Eff A) (k : A -> Eff B) : Eff B :=
  fun e =>
    match m e with
    | (e', Ok a) => k a e'
    | (e', Raise x) => (e', Raise x)
    end.
Definition elift {A} (r : result A) : Eff A := fun e => (e, r).
Definition eread : Eff Engine := fun e => (e, Ok e).

Notation "'let*' x ':=' m 'in' k" := (ebind m (fun x => k))
  (at level 10, x pattern, m at level 100, k at level 200).

(** [try: m except Exception as x: handler(x)] *)
Definition etry {A} (m : Eff A) (handler : exn -> Eff A) : Eff A :=
  fun e =>
    match m e with
    | (e', Ok a) => (e', Ok a)
    | (e', Raise x) => handler x e'
    end.

(** [for x in xs: acc = body(acc, x)] *)
Fixpoint efold {A B} (body : B -> A -> Eff B) (acc : B) (xs : list A) : Eff B :=
  match xs with
  | [] => eret acc
  | x :: xs' => let* acc := body acc x in efold body acc xs'
  end.

(** [record[key] = v] on the record at position [i] of [engine.products]:
    the one way in which a stage writes to a product. *)
Definition set_field (i : nat) (key : string) (v : value) : Eff unit :=
  fun e => (set_products e (alter (fun p => <[key := v]> p) i (products e)), Ok ()).

(** *** Building the index  ([_build_indexes]) *)

(** The words a record adds to the inverted index: those of its string
    fields. (Each occurrence appends the same product id, so the order of
    the fields does not show in the index.) *)
Definition product_words (product : gmap string value) : list string :=
  map_to_list product ≫= fun kv =>
    match as_str kv.2 with
    | Some text => findall_words (lower text)
    | None => []
    end.

(** [product.get('id', '')] of a record whose id is a string *)
Definition id_of (product : gmap string value) : string :=
  default "" (product !! "id" ≫= as_str).

(** [self.index[word].append(product_id)] *)
Definition index_append (idx : gmap string (list string)) (product_id word : string)
  : gmap string (list string) :=
  <[word := default [] (idx !! word) ++ [product_id]]> idx.

Definition build_index (products : list (gmap string value))
  : gmap string (list string) :=
  foldl (fun idx product =>
           foldl (fun idx word => index_append idx (id_of product) word)
                 idx (product_words product))
        ∅ products.

(** *** Space Stone *)

Section Stones.
Variable sc : Scoring.

(** [_get_shard_for_product] *)
Definition _get_shard_for_product (e : Engine) (product_id : string) : Z :=
  if bool_decide (shard_count e = 0) then 0%Z
  else (hash sc product_id `mod` Z.of_nat (shard_count e))%Z.

(** [product_scores[product_id] += 1] on the [defaultdict(float)]; the
    items are kept in insertion order. *)
Fixpoint bump (key : string) (scores : list (string * nat)) : list (string * nat) :=
  match scores with
  | [] => [(key, 1)]
  | (k, n) :: scores' =>
      if decide (k = key) then (k, S n) :: scores'
      else (k, n) :: bump key scores'
  end.

(** The loop [for word in query_words] of [SpaceStone.search]; the state
    is [(product_scores, matched_fields, shard_hits)]. *)
Definition space_word (e : Engine)
  (st : list (string * nat) * gmap string (gset string) * gmap Z nat)
  (word : string)
  : list (string * nat) * gmap string (gset string) * gmap Z nat :=
  match index e !! word with
  | None => st
  | Some postings =>
      foldl (fun st product_id =>
               let '(product_scores, fields, shard_hits) := st in
               let shard_id := _get_shard_for_product e product_id in
               (bump product_id product_scores,
                <[product_id :=
                    default ∅ (fields !! product_id)
                    ∪ {[ ("inverted_index_" ++ word)%string ]}]> fields,
                <[shard_id := S (default 0 (shard_hits !! shard_id))]>
                  shard_hits))
            st postings
  end.

(** [next((p for p in products if p.get('id') == product_id), None)]: the
    position of the first record with this id. A record found has an
    [id] field, so [if product:] holds for it. *)
Definition find_product (products : list (gmap string value)) (product_id : string)
  : option nat :=
  fst <$> list_find (fun p => p !! "id" = Some (VStr product_id)) products.

(** The loop [for product_id, score in product_scores.items()]. *)
Definition space_result (fields : gmap string (gset string))
  (shard_hits : gmap Z nat) (results : list SearchResult)
  (item : string * nat) : Eff (list SearchResult) :=
  let '(product_id, score) := item in
  let* e := eread in
  match find_product (products e) product_id with
  | None => eret results
  | Some i =>
      let shard_id := _get_shard_for_product e product_id in
      let result :=
        mkSearchResult product_id i (qn score) [(SPACE, qn score)]
          (elements (default ∅ (fields !! product_id))) in
      let* _ := set_field i "_shard_id" (VInt shard_id) in
      let* _ := set_field i "_shard_hits"
                  (VInt (Z.of_nat (default 0 (shard_hits !! shard_id)))) in
      eret (results ++ [result])
  end.

Definition SpaceStone_search (query : string) : Eff (list SearchResult) :=
  let* e := eread in
  let query_words := findall_words (lower query) in
  let '(product_scores, fields, shard_hits) :=
    foldl (space_word e) ([], ∅, ∅) query_words in
  let* results := efold (space_result fields shard_hits) [] product_scores in
  let sorted_results := sort_desc relevance_score results in
  let limited_results := take 500 sorted_results in
  eret limited_results.

(** *** Mind Stone *)

(** One round of the loop of [_enhance_ux_features] over [results[:200]]. *)
Definition enhance_result (query_words : list string) (intent : Intent)
  (enhanced_results : list SearchResult) (result : SearchResult)
  : Eff (list SearchResult) :=
  let i := product_data result in
  let record : Eff (gmap string value) :=
    fun e => (e, Ok (default ∅ (products e !! i))) in
  let* p := record in
  let* highlighted_fields := elift (_add_highlighting sc p query_words) in
  let* _ := set_field i "_highlighted" highlighted_fields in
  let* p := record in
  let* snippet := elift (_generate_snippet sc p query_words) in
  let* _ := set_field i "_snippet" snippet in
  let* p := record in
  let* facets := elift (_extract_facets sc p) in
  let* _ := set_field i "_facets" facets in
  let* p := record in
  let* intent_boost := elift (_calculate_intent_boost sc result p intent) in
  let result := set_relevance_score result (relevance_score result + intent_boost)%Qc in
  eret (enhanced_results ++ [result]).

Definition _enhance_ux_features (results : list SearchResult)
  (original_query : string) (intent : Intent) : Eff (list SearchResult) :=
  let query_words := findall_words (lower original_query) in
  let* enhanced_results :=
    efold (enhance_result query_words intent) [] (take 200 results) in
  eret (enhanced_results ++ drop 200 results).

Definition MindStone_search (query : string) : Eff (list SearchResult) :=
  let processed_query := _process_query sc query in
  let intent := _detect_intent sc query in
  let* space_results := SpaceStone_search processed_query in
  let* enhanced_results := _enhance_ux_features space_results query intent in
  eret enhanced_results.

(** *** Reality Stone *)

Definition RealityStone_search (query : string) : Eff (list SearchResult) :=
  let* space_results := SpaceStone_search query in
  let* e := eread in
  let* ranked_results :=
    elift (_apply_ranking_models sc (products e) (index e) query space_results) in
  let* personalized_results :=
    elift (_apply_personalization sc (products e) ranked_results query) in
  let* business_enhanced_results :=
    elift (_apply_business_logic sc (products e) personalized_results) in
  let* diverse_results :=
    elift (_ensure_diversity sc (products e) business_enhanced_results) in
  eret (take 200 diverse_results).

(** *** Power Stone *)

(** One round of the loop of [_process_shard]; [i] is the position in
    [engine.products] of the record [product] of the shard. *)
Definition process_product (query_words : list string) (shard_id : nat)
  (results : list SearchResult) (i : nat) : Eff (list SearchResult) :=
  let* e := eread in
  match products e !! i with
  | None => eret results
  | Some product =>
      let* score :=
        elift (_calculate_optimized_tfidf_score sc (products e) (index e)
                 product query_words) in
      if decide (0 < score)%Qc then
        let result :=
          mkSearchResult (id_of product) i score [(POWER, score)]
            ["power_optimized"; ("shard_" ++ pretty shard_id)%string] in
        let* _ := set_field i "_shard_id" (VInt (Z.of_nat shard_id)) in
        let* _ := set_field i "_processing_time" (VFloat (time_time sc)) in
        eret (results ++ [result])
      else eret results
  end.

(** [_get_shard_products]: the positions of the slice
    [products[start_idx:end_idx]]; [active_shards] is 10, and only the
    shards 0, 1, 2 are asked for. *)
Definition _get_shard_products (e : Engine) (shard_id : nat) : list nat :=
  let total_products := length (products e) in
  let shard_size := total_products / 10 in
  let start_idx := shard_id * shard_size in
  let end_idx :=
    if bool_decide (shard_id < 10 - 1) then start_idx + shard_size
    else total_products in
  seq start_idx (Nat.min end_idx total_products - start_idx).

(** [_distributed_search]: [shards_per_query = min(3, 10)]. *)
Definition _distributed_search (query : string) : Eff (list SearchResult) :=
  let query_words := findall_words (lower query) in
  efold (fun shard_results shard_id =>
           let* e := eread in
           let shard_products := _get_shard_products e shard_id in
           let* shard_result :=
             efold (process_product query_words shard_id) [] shard_products in
           eret (shard_results ++ shard_result))
        [] (seq 0 (Nat.min 3 10)).

(** [_optimize_performance] *)
Definition _optimize_performance (results : list SearchResult) (query : string)
  : Eff (list SearchResult) :=
  let results :=
    if bool_decide (2000 < length results)
    then take 2000 (sort_desc relevance_score results) else results in
  let optimized_results := sort_desc relevance_score results in
  let* _ :=
    efold (fun (_ : unit) result =>
             let* _ := set_field (product_data result) "_power_optimized"
                         (VBool true) in
             set_field (product_data result) "_query_processed" (VStr query))
          () optimized_results in
  eret optimized_results.

Definition PowerStone_search (query : string) : Eff (list SearchResult) :=
  let cache_key := hash sc query in
  let* e := eread in
  match distributed_cache e !! cache_key with
  | Some cached => eret cached
  | None =>
      let* results := _distributed_search query in
      let* optimized_results := _optimize_performance results query in
      let* _ := (fun e =>
                   (set_distributed_cache e
                      (<[cache_key := optimized_results]> (distributed_cache e)),
                    Ok ())) in
      eret optimized_results
  end.

(** *** Time Stone and Soul Stone *)

(** [self.engine.search_cache.get(key)] *)
Definition cache_get (key : string) : Eff (option (list SearchResult)) :=
  fun e =>
    let '(c, r) := get (time_time sc) (time_time sc) key (search_cache e) in
    (set_search_cache e c, r).

(** [self.search_cache.put(key, results)] *)
Definition cache_put (key : string) (results : list SearchResult) : Eff unit :=
  fun e =>
    let '(c, r) := put (time_time sc) key results (search_cache e) in
    (set_search_cache e c, r).

Definition TimeStone_search (query : string) : Eff (list SearchResult) :=
  let* cached_result := cache_get query in
  match cached_result with
  | Some cached => eret cached
  | None =>
      let* e := eread in
      let* results := elift (time_scan sc (products e) query) in
      eret (take 1000 (sort_desc relevance_score results))
  end.

Definition SoulStone_search (query : string) : Eff (list SearchResult) :=
  let* base_results := SpaceStone_search query in
  efold (fun scored result =>
           let* e := eread in
           let p := default ∅ (products e !! product_data result) in
           let* business_score := elift (_calculate_business_score sc p) in
           eret (scored ++
                 [mkSearchResult (product_id result) (product_data result)
                    (relevance_score result)
                    (stone_powers result ++ [(SOUL, business_score)])
                    (matched_fields result ++ ["soul_insight"])]))
        [] base_results.

(** *** The entry point *)

(** [self.stones], in the order of the dict. *)
Definition stones : list StoneType := [SPACE; MIND; REALITY; POWER; TIME; SOUL].

Definition stone_search (stone_type : StoneType) (query : string)
  : Eff (list SearchResult) :=
  match stone_type with
  | SPACE => SpaceStone_search query
  | MIND => MindStone_search query
  | REALITY => RealityStone_search query
  | POWER => PowerStone_search query
  | TIME => TimeStone_search query
  | SOUL => SoulStone_search query
  end.

(** The loop over [self.stones.items()] of [search]: a stone that raises
    contributes no result. *)
Definition search_stones (cleaned_query : string)
  (stone_preference : option StoneType)
  : Eff (list (StoneType * list SearchResult)) :=
  efold (fun stone_results stone_type =>
           if bool_decide (stone_preference = None
                           \/ stone_preference = Some stone_type) then
             let* results :=
               etry (stone_search stone_type cleaned_query)
                    (fun _ => eret []) in
             eret (stone_results ++ [(stone_type, results)])
           else eret stone_results)
        [] stones.

Definition not_initialized : exn :=
  SearchError "Search engine not initialized properly".

(** [search] once the query is validated and the engine is known to hold
    products: cache lookup, the stones, combination, ranking, analytics
    and caching. *)
Definition ranked_search (cleaned_query query : string)
  (stone_preference : option StoneType) : Eff (list SearchResult) :=
  let cache_key :=
    (cleaned_query ++ "_" ++ StoneType_str stone_preference)%string in
  let* cached_results := cache_get cache_key in
  match cached_results with
  | Some cached => eret cached
  | None =>
      let* stone_results := search_stones cleaned_query stone_preference in
      let total_results :=
        sum_list ((fun sr => length sr.2) <$> stone_results) in
      if bool_decide (total_results = 0) then eret []
      else
        let combined_results := combine_results sc stone_results in
        let* e := eread in
        let* ranked_results :=
          elift (_apply_ranking_algorithms sc (products e) query
                   combined_results) in
        let* _ := elift (analyze_search sc (products e) query ranked_results) in
        let* _ := cache_put cache_key ranked_results in
        eret ranked_results
  end.

(** The body of [search]. *)
Definition search_body (query : string) (stone_preference : option StoneType)
  : Eff (list SearchResult) :=
  match validate_query query with
  | Raise _ => eret []
  | Ok cleaned_query =>
      let* e := eread in
      if bool_decide (products e = []) then eraise not_initialized
      else ranked_search cleaned_query query stone_preference
  end.

(** The decorator [handle_errors]: a [SearchEngineError] passes, any other
    exception becomes a [SearchError]. *)
Definition handle_errors {A} (func_name : string) (m : Eff A) : Eff A :=
  etry m (fun x =>
            match x with
            | SearchError _ | ValidationError _ => eraise x
            | _ => eraise (SearchError ("Unexpected error in " ++ func_name
                                        ++ ": " ++ exn_str sc x)%string)
            end).

Definition search (query : string) (stone_preference : option StoneType)
  : Eff (list SearchResult) :=
  handle_errors "search" (search_body query stone_preference).

(** *** Boolean search *)

(** [' '.join(str(v) for v in product.values() if isinstance(v, str)).lower()] *)
Definition product_text (product : gmap string value) : string :=
  lower (join " " (omap (fun kv => as_str kv.2) (map_to_list product))).

(** [_extract_terms_from_expression] *)
Fixpoint _extract_terms_from_expression (expression : QueryExpression)
  : gset string :=
  match expression with
  | Term value => {[ value ]}
  | And l r | Or l r =>
      _extract_terms_from_expression l ∪ _extract_terms_from_expression r
  | Not operand => _extract_terms_from_expression operand
  | Empty => ∅
  end.

(** The evaluation path of [search_boolean], after a successful parse. *)
Definition boolean_results (e : Engine) (expression : QueryExpression)
  : list SearchResult :=
  let all_terms := _extract_terms_from_expression expression in
  let product_matches : gmap string (gset string) :=
    set_to_map (fun term =>
                  (term,
                   list_to_set
                     (id_of <$> filter (fun product =>
                                          contains (lower term) (product_text product) = true)
                                       (products e))))
               all_terms in
  let matching_product_ids :=
    evaluate_boolean_expression expression product_matches in
  omap (fun ip =>
          if bool_decide (id_of ip.2 ∈ matching_product_ids)
          then Some (mkSearchResult (id_of ip.2) ip.1 (qz 1) [(MIND, qz 1)]
                       ["boolean_search"])
          else None)
       (zip (seq 0 (length (products e))) (products e)).

(** [search_boolean]: a failed parse falls back to [search] on the joined
    fallback terms; any exception falls back to [search] on the query. *)
Definition search_boolean (boolean_query : string)
  (stone_preference : option StoneType) : Eff (list SearchResult) :=
  etry (match parse_boolean_query boolean_query with
        | ParseFailure _ fallback_terms =>
            search (join " " fallback_terms) stone_preference
        | ParseSuccess expression _ _ =>
            let* e := eread in
            eret (boolean_results e expression)
        end)
       (fun _ => search boolean_query stone_preference).

End Stones.

(** *** What a search may change in the product records *)

(** The fields the stages attach to a record. *)
Definition annotation_keys : list string :=
  ["_shard_id"; "_shard_hits"; "_highlighted"; "_snippet"; "_facets";
   "_processing_time"; "_power_optimized"; "_query_processed"].

(** [p'] is [p] up to annotations: every field of [p] is still there, and
    every field that is not an annotation holds what it held (or is still
    absent). *)
Definition same_fields (p p' : gmap string value) : Prop :=
  (forall key, key ∉ annotation_keys -> p' !! key = p !! key)
  /\ (forall key, is_Some (p !! key) -> is_Some (p' !! key)).

(** The same records, in the same order, up to annotations. *)
Definition same_documents (ps ps' : list (gmap string value)) : Prop :=
  Forall2 same_fields ps ps'.

Definition frames (e e' : Engine) : Prop :=
  same_documents (products e) (products e')
  /\ index e' = index e /\ shard_count e' = shard_count e.

Definition framed {A} (m : Eff A) : Prop := forall e, frames e (m e).1.

(** *** A small engine to run *)

(** Scoring functions that score every record 1 and attach empty
    annotations. *)
Definition unit_scoring : Scoring :=
  {| hash := fun _ => 0%Z;
     time_time := qz 0;
     _process_query := fun query => query;
     _detect_intent := fun _ => mkIntent "general_search" (qc 1 2);
     _add_highlighting := fun _ _ => Ok (VDict []);
     _generate_snippet := fun _ _ => Ok (VStr "No description available");
     _extract_facets := fun _ => Ok (VDict []);
     _calculate_intent_boost := fun _ _ _ => Ok (qz 0);
     _apply_ranking_models := fun _ _ _ rs => Ok rs;
     _apply_personalization := fun _ rs _ => Ok rs;
     _apply_business_logic := fun _ rs => Ok rs;
     _ensure_diversity := fun _ rs => Ok rs;
     _calculate_optimized_tfidf_score := fun _ _ _ _ => Ok (qz 1);
     combine_results := fun stone_results => stone_results ≫= snd;
     time_scan := fun _ _ => Ok [];
     _calculate_business_score := fun _ => Ok (qz 0);
     analyze_search := fun _ _ _ => Ok ();
     _apply_ranking_algorithms := fun _ _ rs => Ok rs;
     exn_str := fun _ => "" |}.

(** The engine as its constructor leaves it: the index is built from the
    records; the Space Stone was created before the records were loaded,
    so its [shard_metadata] is empty; the query cache is
    [LRUCache(max_size=500, ttl=1800)]. *)
Definition engine_of (products : list (gmap string value)) : Engine :=
  mkEngine products (build_index products) 0 (LRUCache_init 500 (qz 1800)) ∅.

Definition speaker : gmap string value :=
  {[ "id" := VStr "1"; "Name" := VStr "Bluetooth Speaker" ]}.

(** A parse step from [pos] that has fuel left: it either raises a
    [ValueError] or returns a position that is not before [pos] (after
    [pos], for [strict]). *)
Definition parsed_from (strict : bool) (pos : nat)
  (r : result (QueryExpression * nat)) : Prop :=
  match r with
  | Ok (_, pos') => if strict then pos < pos' else pos <= pos'
  | Raise (ValueError _) => True
  | Raise _ => False
  end.

(** Two cameras, for the boolean search. *)
Definition cameras : list (gmap string value) :=
  [ {[ "id" := VStr "1"; "Name" := VStr "Digital Camera" ]};
    {[ "id" := VStr "2"; "Name" := VStr "Film Camera" ]} ].

(** *** What a boolean query asks of one record *)

(** [term.lower() in product_text], the test of [search_boolean] that puts
    a record's id into [product_matches[term]]. *)
Definition term_matches (term : string) (product : gmap string value) : bool :=
  contains (lower term) (product_text product).

(** The record holds one of the terms of the query at least: its id is in
    the [all_products] of the ['not'] branch. *)
Definition in_universe (all_terms : gset string) (product : gmap string value)
  : bool :=
  bool_decide (set_Exists (fun term => term_matches term product = true) all_terms).

(** An expression read on one record; [all_terms] are the terms of the
    whole query. *)
Fixpoint satisfies (all_terms : gset string) (expression : QueryExpression)
  (product : gmap string value) : bool :=
  match expression with
  | Term term => term_matches term product
  | And l r => satisfies all_terms l product && satisfies all_terms r product
  | Or l r => satisfies all_terms l product || satisfies all_terms r product
  | Not operand =>
      in_universe all_terms product && negb (satisfies all_terms operand product)
  | Empty => false
  end.

(** The result [search_boolean] builds for the record at position [i]. *)
Definition boolean_result (i : nat) (product : gmap string value) : SearchResult :=
  mkSearchResult (id_of product) i (qz 1) [(MIND, qz 1)] ["boolean_search"].

(** [product_matches], as [search_boolean] fills it for the terms of the
    query. *)
Definition product_matches_of (ps : list (gmap string value))
  (all_terms : gset string) : gmap string (gset string) :=
  set_to_map (fun term =>
                (term,
                 list_to_set
                   (id_of <$> filter (fun product =>
                                        contains (lower term) (product_text product) = true)
                                     ps)))
             all_terms.

(** *** What the parser builds and how it fails *)

(** A tree without empty nodes whose terms are no operators. *)
Fixpoint well_formed (expression : QueryExpression) : Prop :=
  match expression with
  | Term value => value ∉ operators
  | And l r | Or l r => well_formed l /\ well_formed r
  | Not operand => well_formed operand
  | Empty => False
  end.

(** The three [ValueError]s of [_parse_primary_expression]; the unexpected
    token is an operator of the query. *)
Definition parser_error (tokens : list string) (x : exn) : Prop :=
  x = ValueError "Unexpected end of expression"
  \/ x = ValueError "Missing closing parenthesis"
  \/ exists token, token ∈ tokens /\ token ∈ operators
                   /\ x = ValueError ("Unexpected token: " ++ token)%string.

(** The tokens of an expression written with every operand of an operator
    in parentheses. *)
Fixpoint render (expression : QueryExpression) : list string :=
  match expression with
  | Term value => [value]
  | And l r => ["("] ++ render l ++ [")"; "AND"; "("] ++ render r ++ [")"]
  | Or l r => ["("] ++ render l ++ [")"; "OR"; "("] ++ render r ++ [")"]
  | Not operand => ["NOT"; "("] ++ render operand ++ [")"]
  | Empty => []
  end.

(** A parse step returns a well-formed tree over the terms of the query,
    or fails with one of the parser's errors (or for lack of fuel). *)
Definition parse_outcome (tokens : list string)
  (r : result (QueryExpression * nat)) : Prop :=
  match r with
  | Ok (expression, _) =>
      well_formed expression
      /\ _extract_terms_from_expression expression ⊆ list_to_set tokens
  | Raise x => x = RecursionLimit \/ parser_error tokens x
  end.

(** *** Statistics and expiry of the cache *)

(** The dict returned by [get_stats]. *)
Record CacheStats : Type := mkCacheStats {
  stats_size : nat;
  stats_max_size : nat;
  stats_hits : nat;
  stats_misses : nat;
  stats_hit_ratio : Qc;
  stats_evictions : nat;
  stats_ttl : Qc
}.

(** [get_stats] *)
Definition get_stats {V : Type} (c : LRUCache V) : CacheStats :=
  let total_requests := hits c + misses c in
  let hit_ratio :=
    if bool_decide (0 < total_requests) then (qn (hits c) / qn total_requests)%Qc
    else qz 0 in
  mkCacheStats (length (cache c)) (max_size c) (hits c) (misses c) hit_ratio
    (evictions c) (ttl c).

(** [current_time - access_time > self.ttl] for the entry of [key]. *)
Definition is_expired {V : Type} (c : LRUCache V) (current_time : Qc)
  (key : string) : bool :=
  match access_times c !! key with
  | Some access_time => bool_decide (ttl c < current_time - access_time)%Qc
  | None => false
  end.

(** The calls of [get] and of [put] among [ops]. *)
Definition is_get {V : Type} (o : @cache_op V) : bool :=
  match o with OpGet _ _ _ => true | _ => false end.
Definition is_put {V : Type} (o : @cache_op V) : bool :=
  match o with OpPut _ _ _ => true | _ => false end.

(** ** The cache system  (advanced_caching.py, MultiLevelCache) *)

Record MultiLevelCache (V : Type) : Type := mkMultiLevelCache {
  query_cache : LRUCache V;
  index_cache : LRUCache V;
  analytics_cache : LRUCache V
}.
Arguments mkMultiLevelCache {V}.
Arguments query_cache {V}.
Arguments index_cache {V}.
Arguments analytics_cache {V}.

(** The dict returned by [get_comprehensive_stats]. *)
Record ComprehensiveStats : Type := mkComprehensiveStats {
  query_cache_stats : CacheStats;
  index_cache_stats : CacheStats;
  analytics_cache_stats : CacheStats;
  total_memory_items : nat
}.

(** The three caches, by the accessor that hands them out:
    [get_query_cache], [get_index_cache], [get_analytics_cache]. *)
Inductive Level : Type := QueryLevel | IndexLevel | AnalyticsLevel.

Section MultiLevelCacheOps.
Context {V : Type}.
Implicit Types (m : MultiLevelCache V).

(** [__init__] *)
Definition MultiLevelCache_init : MultiLevelCache V :=
  mkMultiLevelCache (LRUCache_init 500 (qz 1800)) (LRUCache_init 1000 (qz 7200))
    (LRUCache_init 100 (qz 300)).

Definition get_level (l : Level) m : LRUCache V :=
  match l with
  | QueryLevel => query_cache m
  | IndexLevel => index_cache m
  | AnalyticsLevel => analytics_cache m
  end.

(** The cache handed out is the object itself: what a client does to it
    shows in the system. *)
Definition set_level (l : Level) (c : LRUCache V) m : MultiLevelCache V :=
  match l with
  | QueryLevel => mkMultiLevelCache c (index_cache m) (analytics_cache m)
  | IndexLevel => mkMultiLevelCache (query_cache m) c (analytics_cache m)
  | AnalyticsLevel => mkMultiLevelCache (query_cache m) (index_cache m) c
  end.

(** [clear_all] *)
Definition clear_all m : MultiLevelCache V :=
  mkMultiLevelCache (clear (query_cache m)) (clear (index_cache m))
    (clear (analytics_cache m)).

(** [get_comprehensive_stats] *)
Definition get_comprehensive_stats m : ComprehensiveStats :=
  mkComprehensiveStats (get_stats (query_cache m)) (get_stats (index_cache m))
    (get_stats (analytics_cache m))
    (size_ (query_cache m) + size_ (index_cache m) + size_ (analytics_cache m)).

(** [cleanup_expired_all]: the three caches are cleaned in turn, each at
    its own clock reading; the result holds the three counts. *)
Definition cleanup_expired_all (t1 t2 t3 : Qc) m
  : MultiLevelCache V * result (nat * nat * nat) :=
  match cleanup_expired t1 (query_cache m) with
  | (q, Raise x) => (set_level QueryLevel q m, Raise x)
  | (q, Ok query_cache_expired) =>
      let m := set_level QueryLevel q m in
      match cleanup_expired t2 (index_cache m) with
      | (i, Raise x) => (set_level IndexLevel i m, Raise x)
      | (i, Ok index_cache_expired) =>
          let m := set_level IndexLevel i m in
          match cleanup_expired t3 (analytics_cache m) with
          | (a, Raise x) => (set_level AnalyticsLevel a m, Raise x)
          | (a, Ok analytics_cache_expired) =>
              (set_level AnalyticsLevel a m,
               Ok (query_cache_expired, index_cache_expired,
                   analytics_cache_expired))
          end
      end
  end.

(** What a client may do to the cache system. *)
Inductive system_op : Type :=
| OnLevel (l : Level) (o : @cache_op V)
| ClearLevel (l : Level)
| ClearAll
| CleanupAll (t1 t2 t3 : Qc).

Definition system_step m (o : system_op) : MultiLevelCache V :=
  match o with
  | OnLevel l o => set_level l (cache_step (get_level l m) o) m
  | ClearLevel l => set_level l (clear (get_level l m)) m
  | ClearAll => clear_all m
  | CleanupAll t1 t2 t3 => (cleanup_expired_all t1 t2 t3 m).1
  end.

Definition system_run (ops : list system_op) m : MultiLevelCache V :=
  foldl system_step m ops.

(** ** The monitor  (advanced_caching.py, PerformanceMonitor) *)

(** [_estimate_memory_usage], in bytes. *)
Definition _estimate_memory_usage m : Z :=
  let query_cache_size := (Z.of_nat (size_ (query_cache m)) * 1024)%Z in
  let index_cache_size := (Z.of_nat (size_ (index_cache m)) * 512)%Z in
  let analytics_cache_size := (Z.of_nat (size_ (analytics_cache m)) * 256)%Z in
  (query_cache_size + index_cache_size + analytics_cache_size)%Z.

End MultiLevelCacheOps.

(** A snapshot of [record_performance_snapshot]. *)
Record Snapshot : Type := mkSnapshot {
  timestamp : Qc;
  uptime : Qc;
  cache_stats : ComprehensiveStats;
  system_memory_estimate : Z
}.

(** The monitor's own state; its [cache_system] is the cache system, which
    the calls below are given. *)
Record PerformanceMonitor : Type := mkPerformanceMonitor {
  start_time : Qc;
  performance_history : list Snapshot
}.

Definition PerformanceMonitor_init (now : Qc) : PerformanceMonitor :=
  mkPerformanceMonitor now [].

(** [record_performance_snapshot]; [now] and [now'] are the two clock
    readings. *)
Definition record_performance_snapshot {V : Type} (now now' : Qc)
  (cache_system : MultiLevelCache V) (pm : PerformanceMonitor)
  : PerformanceMonitor * Snapshot :=
  let snapshot :=
    mkSnapshot now (now' - start_time pm)%Qc
      (get_comprehensive_stats cache_system)
      (_estimate_memory_usage cache_system) in
  let history := performance_history pm ++ [snapshot] in
  let history :=
    if bool_decide (100 < length history)
    then drop (length history - 100) history      (* history[-100:] *)
    else history in
  (mkPerformanceMonitor (start_time pm) history, snapshot).

Definition low_hit_ratio : string :=
  "Consider increasing query cache size or TTL - low hit ratio detected".
Definition near_capacity : string :=
  "Query cache is near capacity - consider increasing max_size".
Definition high_memory : string :=
  "High memory usage detected - consider implementing cache cleanup".

(** [_generate_recommendations] *)
Definition _generate_recommendations (current_snapshot : Snapshot) : list string :=
  let query_stats := query_cache_stats (cache_stats current_snapshot) in
  let recommendations := [] in
  let recommendations :=
    if decide (stats_hit_ratio query_stats < qc 1 2)%Qc
    then recommendations ++ [low_hit_ratio] else recommendations in
  let recommendations :=
    if decide (qn (stats_max_size query_stats) * qc 9 10
               <= qn (stats_size query_stats))%Qc
    then recommendations ++ [near_capacity] else recommendations in
  let recommendations :=
    if bool_decide (50 * 1024 * 1024 < system_memory_estimate current_snapshot)%Z
    then recommendations ++ [high_memory] else recommendations in
  recommendations.

(** The dict returned by [get_performance_report]: the error, or the
    report, whose [trends] are there from the second snapshot on. *)
Inductive PerformanceReport : Type :=
| ReportError (error : string)
| Report (current_performance : Snapshot)
    (trends : option (Qc * Z)) (history_length : nat)
    (recommendations : list string).

(** [get_performance_report] *)
Definition get_performance_report (pm : PerformanceMonitor) : PerformanceReport :=
  match last (performance_history pm) with
  | None => ReportError "No performance data available"
  | Some latest =>
      let trends :=
        if bool_decide (2 <= length (performance_history pm)) then
          match performance_history pm
                !! (length (performance_history pm) - 2) with
          | Some previous =>
              Some ((stats_hit_ratio (query_cache_stats (cache_stats latest))
                     - stats_hit_ratio (query_cache_stats (cache_stats previous)))%Qc,
                    (system_memory_estimate latest
                     - system_memory_estimate previous)%Z)
          | None => None
          end
        else None in
      Report latest trends (length (performance_history pm))
        (_generate_recommendations latest)
  end.

(** The monitor after a series of snapshots; each is taken at two clock
    readings of a state of the cache system. *)
Definition monitor_run {V : Type}
  (snapshots : list (Qc * Qc * MultiLevelCache V)) (pm : PerformanceMonitor)
  : PerformanceMonitor :=
  foldl (fun pm s => (record_performance_snapshot s.1.1 s.1.2 s.2 pm).1)
        pm snapshots.

(** A cache that is well formed and within its capacity [n]; a cache
    system whose three caches are. *)
Definition cache_within {V : Type} (n : nat) (c : LRUCache V) : Prop :=
  cache_wf c /\ size_ c <= max_size c /\ max_size c = n.

Definition system_within {V : Type} (m : MultiLevelCache V) : Prop :=
  cache_within 500 (query_cache m) /\ cache_within 1000 (index_cache m)
  /\ cache_within 100 (analytics_cache m).

(** *** The edit distance by its recurrence *)

(** The edit distance of two prefixes, each given last character first:
    a prefix is as far from the empty one as it is long, and
    [d(xc, yd) = min(d(x, yd) + 1, d(xc, y) + 1, d(x, y) + [c <> d])]. *)
Fixpoint edit_distance (x : list ascii) : list ascii -> nat :=
  match x with
  | [] => fun y => length y
  | c :: x' =>
      fix from_y (y : list ascii) : nat :=
        match y with
        | [] => S (length x')
        | d :: y' =>
            Nat.min (edit_distance x' y + 1)
              (Nat.min (from_y y' + 1)
                 (edit_distance x' y' + (if decide (c = d) then 0 else 1)))
        end
  end.

(** The row of the prefix [x] of [s1]: its distance to each prefix of
    [s2]. *)
Definition distance_row (x s2 : list ascii) : list nat :=
  (fun j => edit_distance x (rev (take j s2))) <$> seq 0 (S (length s2)).

(** *** The score of a corpus term *)

(** [best_similarity] of [find_fuzzy_matches] for one term, with the Jaro
    similarity as the specification defines it. *)
Definition best_similarity (ratio : string -> string -> Qc)
  (query_term term : string) : Qc :=
  py_max (ratio (lower query_term) (lower term))
         [jaro_spec (lower query_term) (lower term);
          _levenshtein_similarity (lower query_term) (lower term)].

(** The match the loop records for [term], if it records one. *)
Definition candidate (ratio : string -> string -> Qc) (threshold : Qc)
  (query_term term : string) : option FuzzyMatch :=
  if bool_decide (lower query_term = lower term) then None
  else if decide (threshold <= best_similarity ratio query_term term)%Qc
       then Some (mkFuzzyMatch query_term term
                    (best_similarity ratio query_term term) "corpus")
       else None.

(** *** What the Space Stone counts *)

(** The number of times the inverted index lists [product_id] under the
    words of the query, a word counted as often as the query has it. *)
Definition index_hits (e : Engine) (query product_id : string) : nat :=
  sum_list
    ((fun word =>
        length (filter (fun x => x = product_id) (default [] (index e !! word))))
     <$> findall_words (lower query)).

(** The score that the items of [product_scores] hold for a key. *)
Definition score_of (scores : list (string * nat)) (key : string) : nat :=
  sum_list (snd <$> filter (fun kn => kn.1 = key) scores).

(** [product_scores] holds each key once, with a score of at least 1. *)
Definition scores_ok (scores : list (string * nat)) : Prop :=
  NoDup scores.*1 /\ Forall (fun kn => 1 <= kn.2) scores.

(** The result that [SpaceStone.search] makes of one item of
    [product_scores], if a record has the id. *)
Definition space_result_of (e : Engine) (fields : gmap string (gset string))
  (item : string * nat) : option SearchResult :=
  (fun i =>
     mkSearchResult item.1 i (qn item.2) [(SPACE, qn item.2)]
       (elements (default ∅ (fields !! item.1))))
  <$> find_product (products e) item.1.

(** *** What a search keeps of the query cache *)

(** The query cache is well formed and within its capacity. *)
Definition cache_ok (e : Engine) : Prop :=
  cache_wf (search_cache e)
  /\ size_ (search_cache e) <= max_size (search_cache e).

(** From [e] to [e'] the query cache stays in order and keeps its capacity
    and its TTL. *)
Definition cache_kept (e e' : Engine) : Prop :=
  cache_ok e ->
  cache_ok e'
  /\ max_size (search_cache e') = max_size (search_cache e)
  /\ ttl (search_cache e') = ttl (search_cache e).

Definition keeps_cache {A} (m : Eff A) : Prop := forall e, cache_kept e (m e).1.

(** *** What the tokenizer splits *)

(** A character that may stand in a word of the upper-cased and spaced
    query: no white space, no lower-case letter, no parenthesis. *)
Definition word_char (c : ascii) : Prop :=
  is_space c = false /\ is_lower c = false /\ c <> "("%char /\ c <> ")"%char.

(** A word of the upper-cased and spaced query: a parenthesis alone, or a
    non-empty run of word characters. *)
Definition raw_token (word : string) : Prop :=
  word = "(" \/ word = ")" \/ (word <> "" /\ Forall word_char (chars word)).

(** A character of a search term: no white space, no upper-case letter, no
    parenthesis. *)
Definition term_char (c : ascii) : Prop :=
  is_space c = false /\ is_upper c = false /\ c <> "("%char /\ c <> ")"%char.

(** ** Reality Stone: diversity  ([RealityStone._ensure_diversity]) *)

(** [result.product_data], the record that a result refers to. *)
Definition record_of (products : list (gmap string value))
  (result : SearchResult) : gmap string value :=
  default ∅ (products !! product_data result).

(** [product.get(key, '').lower()]: a field that holds no string (a
    number, [None], a list) has no [lower], and the call raises an
    [AttributeError]. *)
Definition field_lower (product : gmap string value) (key : string)
  : result string :=
  match product !! key with
  | None => Ok ""
  | Some (VStr text) => Ok (lower text)
  | Some _ => Raise (OtherError "AttributeError")
  end.

(** The loop [for result in results] with its [break];
    [diversity_factors['brand_diversity']] is [True]. *)
Fixpoint diversity_loop (products : list (gmap string value))
  (results diverse_results : list SearchResult)
  (seen_brands seen_categories : gset string)
  : result (list SearchResult) :=
  match results with
  | [] => Ok diverse_results
  | result :: results' =>
      match field_lower (record_of products result) "Brand" with
      | Raise x => Raise x
      | Ok brand =>
          match field_lower (record_of products result) "Type" with
          | Raise x => Raise x
          | Ok category =>
              let keep :=
                bool_decide (size seen_brands < 5 \/ brand ∉ seen_brands)
                && bool_decide (size seen_categories < 3
                                \/ category ∉ seen_categories) in
              let diverse_results :=
                if keep then diverse_results ++ [result] else diverse_results in
              let seen_brands :=
                if keep then seen_brands ∪ {[ brand ]} else seen_brands in
              let seen_categories :=
                if keep then seen_categories ∪ {[ category ]}
                else seen_categories in
              if bool_decide (15 <= length diverse_results)
              then Ok diverse_results
              else diversity_loop products results' diverse_results
                     seen_brands seen_categories
          end
      end
  end.

(** The pass itself; the name [_ensure_diversity] alone is the field of
    [Scoring] that stands for it in the engine. *)
Module RealityStone.
Definition _ensure_diversity (products : list (gmap string value))
  (results : list SearchResult) : result (list SearchResult) :=
  diversity_loop products results [] ∅ ∅.
End RealityStone.

(** The lower-cased values that the records of [results] hold in the
    field [key]: what [seen_brands] and [seen_categories] hold when
    [results] are the results kept. *)
Definition seen_values (products : list (gmap string value)) (key : string)
  (results : list SearchResult) : gset string :=
  list_to_set
    (omap (fun result =>
             match field_lower (record_of products result) key with
             | Ok text => Some text
             | Raise _ => None
             end)
          results).

(** The scoring functions of [unit_scoring], with the diversity pass of the
    Reality Stone. *)
Definition diverse_scoring : Scoring :=
  {| hash := hash unit_scoring;
     time_time := time_time unit_scoring;
     _process_query := _process_query unit_scoring;
     _detect_intent := _detect_intent unit_scoring;
     _add_highlighting := _add_highlighting unit_scoring;
     _generate_snippet := _generate_snippet unit_scoring;
     _extract_facets := _extract_facets unit_scoring;
     _calculate_intent_boost := _calculate_intent_boost unit_scoring;
     _apply_ranking_models := _apply_ranking_models unit_scoring;
     _apply_personalization := _apply_personalization unit_scoring;
     _apply_business_logic := _apply_business_logic unit_scoring;
     _ensure_diversity := RealityStone._ensure_diversity;
     _calculate_optimized_tfidf_score :=
       _calculate_optimized_tfidf_score unit_scoring;
     combine_results := combine_results unit_scoring;
     time_scan := time_scan unit_scoring;
     _calculate_business_score := _calculate_business_score unit_scoring;
     analyze_search := analyze_search unit_scoring;
     _apply_ranking_algorithms := _apply_ranking_algorithms unit_scoring;
     exn_str := exn_str unit_scoring |}.

(** ** Facet counts  ([FacetedSearchEngine._build_facets]) *)

(** The five dicts of [facets]; the items of each in insertion order. *)
Record Facets : Type := mkFacets {
  facet_brand : list (string * nat);
  facet_type : list (string * nat);
  facet_category : list (string * nat);
  facet_price_range : list (string * nat);
  facet_has_specs : list (string * nat)
}.

(** The key that a product is counted under in the brand facet:
    [product['Brand'].strip()], if the field is there and neither it nor
    the stripped text is empty. *)
Definition brand_label (product : gmap string string) : option string :=
  match product !! "Brand" with
  | Some text =>
      if bool_decide (text = "") then None
      else
        let brand := strip text in
        if bool_decide (brand = "") then None else Some brand
  | None => None
  end.

Definition type_label (product : gmap string string) : option string :=
  match product !! "Type" with
  | Some text =>
      if bool_decide (text = "") then None
      else
        let product_type := strip text in
        if bool_decide (product_type = "") then None else Some product_type
  | None => None
  end.

(** The category is counted inside the branch of a non-empty type. *)
Definition category_label (product : gmap string string) : option string :=
  match type_label product with
  | Some product_type =>
      let category := _infer_category product_type in
      if bool_decide (category = "") then None else Some category
  | None => None
  end.

Definition price_range_label (product : gmap string string) : option string :=
  let price_range := _extract_price_range product in
  if bool_decide (price_range = "") then None else Some price_range.

Definition has_specs_label (product : gmap string string) : option string :=
  Some (if _has_detailed_specs product then "Yes" else "No").

(** [facets[name][key] += 1] on a [defaultdict(int)], if there is a key. *)
Definition count_label (label : option string) (facet_data : list (string * nat))
  : list (string * nat) :=
  match label with
  | Some key => bump key facet_data
  | None => facet_data
  end.

(** One round of the loop [for product in self.products]. *)
Definition facet_step (facets : Facets) (product : gmap string string) : Facets :=
  mkFacets
    (count_label (brand_label product) (facet_brand facets))
    (count_label (type_label product) (facet_type facets))
    (count_label (category_label product) (facet_category facets))
    (count_label (price_range_label product) (facet_price_range facets))
    (count_label (has_specs_label product) (facet_has_specs facets)).

(** [dict(sorted(facet_data.items(), key=lambda x: x[1], reverse=True)[:20])] *)
Definition top_items (facet_data : list (string * nat)) : list (string * nat) :=
  take 20 (sort_desc (fun item => qn item.2) facet_data).

Definition _build_facets (products : list (gmap string string)) : Facets :=
  let facets := foldl facet_step (mkFacets [] [] [] [] []) products in
  mkFacets (top_items (facet_brand facets)) (top_items (facet_type facets))
    (top_items (facet_category facets)) (top_items (facet_price_range facets))
    (top_items (facet_has_specs facets)).

(** The number of products counted under [key]. *)
Definition labelled (products : list (gmap string string))
  (label : gmap string string -> option string) (key : string) : nat :=
  length (filter (fun product => label product = Some key) products).

(** [facet_data] lists keys of [label] with their exact counts: no key
    twice, at most 20 of them, greatest count first; a key that is counted
    but not listed was cut by the limit of 20, and no listed key has a
    smaller count. *)
Definition facet_counts (products : list (gmap string string))
  (label : gmap string string -> option string)
  (facet_data : list (string * nat)) : Prop :=
  NoDup facet_data.*1
  /\ length facet_data <= 20
  /\ StronglySorted (fun item item' => item'.2 <= item.2) facet_data
  /\ (forall key n, (key, n) ∈ facet_data ->
        1 <= n /\ n = labelled products label key)
  /\ (forall key, 1 <= labelled products label key -> key ∉ facet_data.*1 ->
        length facet_data = 20
        /\ forall item, item ∈ facet_data ->
             labelled products label key <= item.2).

(** *** The facet value of a product *)

(** The facet value of a product under each of the five facet names: the key
    that [_build_facets] counts the product under, if it counts it under
    any. The brand and the type are the fields without the white space
    around them. *)
Definition facet_value (product : gmap string string) (facet_name : string)
  : option string :=
  if bool_decide (facet_name = "brand") then brand_label product
  else if bool_decide (facet_name = "type") then type_label product
  else if bool_decide (facet_name = "category") then category_label product
  else if bool_decide (facet_name = "price_range") then price_range_label product
  else if bool_decide (facet_name = "has_specs") then has_specs_label product
  else None.

(** A product is selected by its facet values: for every facet name present
    in [filters] with a non-empty selection, its facet value is one of the
    selected values. *)
Definition selected_by_facet_value (product : gmap string string)
  (filters : list (string * list string)) : Prop :=
  forall facet_name selected_values,
    (facet_name, selected_values) ∈ filters -> selected_values <> [] ->
    exists v, facet_value product facet_name = Some v /\ v ∈ selected_values.

(** The [Brand] and the [Type] of a product are there, are not empty and
    have no white space around them. *)
Definition fields_trimmed (product : gmap string string) : Prop :=
  forall field, field ∈ ["Brand"; "Type"] ->
    exists text, product !! field = Some text /\ text <> "" /\ strip text = text.

(** ** Cache Warmer  (advanced_caching.py, CacheWarmer) *)

(** [self.popular_queries] *)
Definition popular_queries : list string :=
  ["bluetooth"; "wireless"; "headphone"; "speaker"; "charger";
   "case"; "camera"; "phone"; "laptop"; "car"; "vacuum";
   "beauty"; "cream"; "home"; "furniture"; "sports"].

(** [f"warm_{query}_all"] *)
Definition warm_key (query : string) : string := "warm_" ++ query ++ "_all".

Section CacheWarmer.
Context {V : Type}.
(** The entry [{"warmed": True, "query": query}]. *)
Variable warmed : string -> V.
(** [time.time()], as the [put] of a query reads it. *)
Variable clock : string -> Qc.

(** One round of the loop of [warm_query_cache] on
    [cache_system.query_cache]; [except Exception] swallows what [put]
    raises. *)
Definition warm_step (st : LRUCache V * nat) (query : string)
  : LRUCache V * nat :=
  let '(c, warmed_count) := st in
  let cache_key := warm_key query in
  match put (clock query) cache_key (warmed query) c with
  | (c, Ok _) => (c, S warmed_count)
  | (c, Raise _) => (c, warmed_count)
  end.

Definition warm_query_cache (c : LRUCache V) : LRUCache V * nat :=
  foldl warm_step (c, 0) popular_queries.

End CacheWarmer.

(** ** The combination of the stones' results and the ranking pass *)

Module PowerStone.

(** [stone_weights] *)
Definition stone_weight (stone_type : StoneType) : Qc :=
  match stone_type with
  | SPACE => qc 3 10
  | MIND => qc 1 10
  | REALITY => qc 1 5
  | POWER => qc 3 10
  | TIME => qc 1 20
  | SOUL => qc 1 20
  end.

(** [stone_powers[stone] = power]: a stone that is there keeps its place. *)
Fixpoint powers_set (stone : StoneType) (power : Qc)
  (stone_powers : list (StoneType * Qc)) : list (StoneType * Qc) :=
  match stone_powers with
  | [] => [(stone, power)]
  | (s, p) :: stone_powers' =>
      if decide (s = stone) then (s, power) :: stone_powers'
      else (s, p) :: powers_set stone power stone_powers'
  end.

(** [stone_powers.update(other)] *)
Definition powers_update (stone_powers other : list (StoneType * Qc))
  : list (StoneType * Qc) :=
  foldl (fun stone_powers item => powers_set item.1 item.2 stone_powers)
        stone_powers other.

(** An entry of [combined_scores]; [c_product] is the position of the
    record, as [product_data] is. *)
Record Combined : Type := mkCombined {
  c_score : Qc;
  c_product : nat;
  c_stone_powers : list (StoneType * Qc);
  c_matched_fields : gset string
}.

(** One round of the loop [for result in results]. *)
Definition combine_result (weight : Qc)
  (combined_scores : list (string * Combined)) (result : SearchResult)
  : list (string * Combined) :=
  let data :=
    match od_lookup (product_id result) combined_scores with
    | Some data => data
    | None => mkCombined (qz 0) (product_data result) [] ∅
    end in
  od_set (product_id result)
    (mkCombined (c_score data + relevance_score result * weight)%Qc
       (c_product data)
       (powers_update (c_stone_powers data) (stone_powers result))
       (c_matched_fields data ∪ list_to_set (matched_fields result)))
    combined_scores.

(** [combine_results]. The order of [list(data['matched_fields'])] is that
    in which the set hands out its elements. *)
Definition combine_results (stone_results : list (StoneType * list SearchResult))
  : list SearchResult :=
  let combined_scores :=
    foldl (fun combined_scores item =>
             foldl (combine_result (stone_weight item.1)) combined_scores item.2)
          [] stone_results in
  let final_results :=
    (fun item =>
       mkSearchResult item.1 (c_product item.2) (c_score item.2)
         (c_stone_powers item.2) (elements (c_matched_fields item.2)))
    <$> combined_scores in
  let sorted_results := sort_desc relevance_score final_results in
  take 1000 sorted_results.

End PowerStone.

Module InfinityStonesSearchEngine.

Section Ranking.
(** [_calculate_content_quality], which measures the fields of a record and
    may raise on a field that is no string, and the three tables of scores
    that the constructor fills, keyed by product id. *)
Variable _calculate_content_quality : gmap string value -> result Qc.
Variables user_experience_scores authority_scores freshness_scores
  : gmap string Qc.

(** The weight of a query word found in the field [key]. *)
Definition field_weight (key : string) : Qc :=
  if bool_decide (key = "Name") then qz 3
  else if bool_decide (key = "Type") then qz 2
  else if bool_decide (key = "Brand") then qz 2
  else qz 1.

(** [min(score, 1.0)] *)
Definition at_most_one (score : Qc) : Qc :=
  if decide (1 < score)%Qc then 1%Qc else score.

(** [_calculate_keyword_relevance]; [query_words] is the set of the words of
    the query. The loop state is [(score, total_words)]; the sums do not
    depend on the order of the fields. *)
Definition _calculate_keyword_relevance (query_words : list string)
  (product : gmap string value) : Qc :=
  let st :=
    foldl (fun (st : Qc * nat) (item : string * value) =>
             match as_str item.2 with
             | Some text =>
                 let words := findall_words (lower text) in
                 (foldl (fun score word =>
                           if bool_decide (word ∈ query_words)
                           then (score + field_weight item.1)%Qc else score)
                        st.1 words,
                  st.2 + length words)
             | None => st
             end)
          (qz 0, 0) (map_to_list product) in
  let score :=
    if bool_decide (0 < st.2) then (st.1 / qn st.2)%Qc else st.1 in
  at_most_one score.

(** The loop [for result in results] of [_apply_ranking_algorithms]: each
    result gets its final score. *)
Fixpoint rank_results (products : list (gmap string value))
  (query_words : list string) (results : list SearchResult)
  : result (list SearchResult) :=
  match results with
  | [] => Ok []
  | result :: results' =>
      let product := default ∅ (products !! product_data result) in
      let keyword_score := _calculate_keyword_relevance query_words product in
      content_quality ← _calculate_content_quality product;
      let ux_score :=
        default (qc 1 2) (user_experience_scores !! product_id result) in
      let authority_score :=
        default (qc 1 2) (authority_scores !! product_id result) in
      let freshness_score :=
        default (qc 1 2) (freshness_scores !! product_id result) in
      let final_score :=
        (keyword_score * qc 2 5 + content_quality * qc 1 5
         + ux_score * qc 3 20 + authority_score * qc 3 20
         + freshness_score * qc 1 10)%Qc in
      ranked ← rank_results products query_words results';
      Ok (set_relevance_score result final_score :: ranked)
  end.

(** [_apply_ranking_algorithms]; it is called with the query as the caller
    of [search] wrote it. *)
Definition _apply_ranking_algorithms (products : list (gmap string value))
  (query : string) (results : list SearchResult)
  : result (list SearchResult) :=
  let query_words := findall_words (lower query) in
  ranked ← rank_results products query_words results;
  Ok (sort_desc relevance_score ranked).

End Ranking.

End InfinityStonesSearchEngine.




(** *** A search that returns *)



(* ===================================================================== *)
(** * Part II.  Properties                                                *)
(* ===================================================================== *)

Local Open Scope list_scope.

(** ** Boolean evaluation *)

Lemma elem_of_all_products (m : gmap string (gset string)) (x : string) :
  x ∈ all_products m <-> exists term ids, m !! term = Some ids /\ x ∈ ids.
Proof.
  unfold all_products.
  induction m as [|term ids m Hfresh Hfold IH] using map_first_key_ind.
  - rewrite map_fold_empty. split; [set_solver|].
    intros (t & s & Hl & _). by rewrite lookup_empty in Hl.
  - rewrite map_fold_insert_first_key by done.
    rewrite elem_of_union, IH. split.
    + intros [(t & s & Hl & Hx)|Hx].
      * exists t, s. split; [|done].
        rewrite lookup_insert_ne; [done|]. intros ->. congruence.
      * exists term, ids. by rewrite lookup_insert_eq.
    + intros (t & s & Hl & Hx).
      destruct (decide (term = t)) as [->|Hne].
      * rewrite lookup_insert_eq in Hl. right. congruence.
      * rewrite lookup_insert_ne in Hl by done. left. eauto.
Qed.

(** C1. Evaluation of a boolean expression tree against [product_matches]:
    a term node yields [product_matches.get(value, set())]; an and-node the
    intersection and an or-node the union of the results of its two
    children; a not-node yields the ids that occur in some value set of
    [product_matches] and are not in the operand's result; the remaining
    node kind, the empty expression, yields the empty set. *)
Theorem evaluate_boolean_expression_cases (m : gmap string (gset string)) :
  (forall value,
      evaluate_boolean_expression (Term value) m = default ∅ (m !! value))
  /\ (forall l r,
      evaluate_boolean_expression (And l r) m
      = evaluate_boolean_expression l m ∩ evaluate_boolean_expression r m)
  /\ (forall l r,
      evaluate_boolean_expression (Or l r) m
      = evaluate_boolean_expression l m ∪ evaluate_boolean_expression r m)
  /\ (forall operand x,
      x ∈ evaluate_boolean_expression (Not operand) m
      <-> (exists term ids, m !! term = Some ids /\ x ∈ ids)
          /\ x ∉ evaluate_boolean_expression operand m)
  /\ evaluate_boolean_expression Empty m = ∅.
Proof.
  split; [done|]. split; [done|]. split; [done|]. split; [|done].
  intros operand x. cbn.
  rewrite elem_of_difference, elem_of_all_products. done.
Qed.

(** The test-suite instance: [bluetooth AND wireless] and [bluetooth OR wireless]. *)
Example evaluate_boolean_expression_test :
  let m : gmap string (gset string) :=
    {[ "bluetooth" := {[ "product1"; "product2" ]};
       "wireless" := {[ "product2"; "product3" ]};
       "expensive" := {[ "product1" ]} ]} in
  evaluate_boolean_expression (And (Term "bluetooth") (Term "wireless")) m
    = {[ "product2" ]}
  /\ evaluate_boolean_expression (Or (Term "bluetooth") (Term "wireless")) m
    = {[ "product1"; "product2"; "product3" ]}
  /\ evaluate_boolean_expression (Not (Term "bluetooth")) m = {[ "product3" ]}.
Proof. repeat split; by vm_compute. Qed.

(** ** The LRU cache *)

(** *** The ordered dictionary *)

Section OD.
Context {V : Type}.
Implicit Types (od : list (string * V)) (key : string).

Lemma od_contains_true key od : od_contains key od = true <-> key ∈ od.*1.
Proof. unfold od_contains. by rewrite bool_decide_eq_true. Qed.
Lemma od_contains_false key od : od_contains key od = false <-> key ∉ od.*1.
Proof. unfold od_contains. by rewrite bool_decide_eq_false. Qed.

Lemma od_del_keys key od : (od_del key od).*1 = filter (fun k => k <> key) od.*1.
Proof.
  unfold od_del. induction od as [|[k v] od IH]; [done|].
  rewrite fmap_cons, !filter_cons. simpl.
  destruct (decide (k <> key)); [rewrite fmap_cons|]; by rewrite IH.
Qed.

Lemma od_del_absent key od : key ∉ od.*1 -> od_del key od = od.
Proof.
  unfold od_del. induction od as [|[k v] od IH]; [done|].
  rewrite fmap_cons, not_elem_of_cons. simpl. intros [Hne Hnin].
  rewrite filter_cons. simpl. rewrite decide_True by done. by rewrite IH.
Qed.

Lemma od_del_head key (v : V) od :
  key ∉ od.*1 -> od_del key ((key, v) :: od) = od.
Proof.
  intros Hnin. unfold od_del. rewrite filter_cons. cbn.
  rewrite decide_False by naive_solver.
  by apply od_del_absent.
Qed.

Lemma od_del_not_elem key od : key ∉ (od_del key od).*1.
Proof. rewrite od_del_keys. rewrite list_elem_of_filter. naive_solver. Qed.

Lemma od_del_NoDup key od : NoDup od.*1 -> NoDup (od_del key od).*1.
Proof. rewrite od_del_keys. apply NoDup_filter. Qed.

Lemma od_del_length key od :
  NoDup od.*1 -> key ∈ od.*1 -> S (length (od_del key od)) = length od.
Proof.
  induction od as [|[k v] od IH].
  - intros _ H. by apply elem_of_nil in H.
  - rewrite fmap_cons, NoDup_cons. simpl. intros [Hk Hnd] Hin.
    destruct (decide (k = key)) as [->|Hne].
    + by rewrite od_del_head.
    + apply elem_of_cons in Hin as [?|Hin]; [congruence|].
      unfold od_del. rewrite filter_cons. simpl. rewrite decide_True by done.
      simpl. f_equal. by apply IH.
Qed.

Lemma od_del_length_le key od : length (od_del key od) <= length od.
Proof. unfold od_del. apply length_filter. Qed.

Lemma od_set_absent key (v : V) od :
  key ∉ od.*1 -> od_set key v od = (od ++ [(key, v)])%list.
Proof.
  induction od as [|[k w] od IH]; [done|].
  cbn. rewrite not_elem_of_cons. intros [Hne Hnin].
  rewrite decide_False by done. by rewrite IH.
Qed.

Lemma od_lookup_Some key od :
  key ∈ od.*1 -> exists v, od_lookup key od = Some v /\ (key, v) ∈ od.
Proof.
  induction od as [|[k w] od IH]; cbn.
  - intros H. by apply elem_of_nil in H.
  - intros Hin. destruct (decide (k = key)) as [->|Hne].
    + exists w. split; [done|]. apply elem_of_cons. by left.
    + apply elem_of_cons in Hin as [?|Hin]; [congruence|].
      destruct (IH Hin) as (v & Hv & Hel). exists v. split; [done|].
      apply elem_of_cons. by right.
Qed.
End OD.

Section CacheLemmas.
Context {V : Type}.
Implicit Types (c : LRUCache V) (key : string).

Lemma wf_has_time c key :
  cache_wf c -> key ∈ (cache c).*1 -> is_Some (access_times c !! key).
Proof.
  intros [_ Hdom] Hin. apply elem_of_dom. rewrite Hdom.
  by apply elem_of_list_to_set.
Qed.

Lemma wf_time_has_key c key :
  cache_wf c -> is_Some (access_times c !! key) -> key ∈ (cache c).*1.
Proof.
  intros [_ Hdom] Hin. apply elem_of_dom in Hin. rewrite Hdom in Hin.
  by apply elem_of_list_to_set in Hin.
Qed.

Lemma wf_deleted c key :
  cache_wf c ->
  cache_wf (set_store c (od_del key (cache c)) (delete key (access_times c))).
Proof.
  intros [Hnd Hdom]. split; cbn.
  - by apply od_del_NoDup.
  - rewrite dom_delete_L, Hdom, od_del_keys. apply set_eq. intros k.
    rewrite elem_of_difference, !elem_of_list_to_set, list_elem_of_filter,
      elem_of_singleton. naive_solver.
Qed.

Lemma wf_appended c key (v : V) (t : Qc) :
  cache_wf c -> key ∉ (cache c).*1 ->
  cache_wf (set_store c (cache c ++ [(key, v)])%list (<[key := t]> (access_times c))).
Proof.
  intros [Hnd Hdom] Hnin. split; cbn.
  - rewrite fmap_app. apply NoDup_app. split; [done|]. split.
    + intros k Hk. cbn. rewrite list_elem_of_singleton. by intros ->.
    + cbn. apply NoDup_singleton.
  - rewrite dom_insert_L, Hdom, fmap_app, list_to_set_app_L. cbn. set_solver.
Qed.

Lemma _remove_present key c :
  cache_wf c -> key ∈ (cache c).*1 ->
  _remove key c
  = (set_store c (od_del key (cache c)) (delete key (access_times c)), Ok ()).
Proof.
  intros Hwf Hin. unfold _remove.
  rewrite (proj2 (od_contains_true _ _) Hin). cbn.
  by destruct (wf_has_time c key Hwf Hin) as [t ->].
Qed.

Lemma _remove_absent key c : key ∉ (cache c).*1 -> _remove key c = (c, Ok ()).
Proof.
  intros Hnin. unfold _remove. by rewrite (proj2 (od_contains_false _ _) Hnin).
Qed.

Lemma _remove_wf key c :
  cache_wf c ->
  (_remove key c).2 = Ok ()
  /\ cache_wf (_remove key c).1
  /\ size_ (_remove key c).1 <= size_ c
  /\ max_size (_remove key c).1 = max_size c
  /\ ttl (_remove key c).1 = ttl c.
Proof.
  intros Hwf. destruct (decide (key ∈ (cache c).*1)) as [Hin|Hnin].
  - rewrite _remove_present by done. cbn.
    split; [done|]. split; [by apply wf_deleted|]. split; [|done].
    apply od_del_length_le.
  - rewrite _remove_absent by done. done.
Qed.

Lemma remove_all_wf keys c :
  cache_wf c ->
  (remove_all keys c).2 = Ok ()
  /\ cache_wf (remove_all keys c).1
  /\ size_ (remove_all keys c).1 <= size_ c
  /\ max_size (remove_all keys c).1 = max_size c
  /\ ttl (remove_all keys c).1 = ttl c.
Proof.
  revert c. induction keys as [|key keys IH]; intros c Hwf; [done|].
  cbn. destruct (_remove_wf key c Hwf) as (Hok & Hwf' & Hsz & Hms & Httl).
  destruct (_remove key c) as [c' r]. cbn in *. subst r.
  destruct (IH c' Hwf') as (? & ? & ? & ? & ?).
  split; [done|]. split; [done|]. split; [lia|]. split; congruence.
Qed.

(** [get], case by case *)
Lemma get_absent now now' key c :
  key ∉ (cache c).*1 -> get now now' key c = (count_miss c, Ok None).
Proof.
  intros Hnin. unfold get. by rewrite (proj2 (od_contains_false _ _) Hnin).
Qed.

Lemma get_expired now now' key c accessed :
  cache_wf c -> key ∈ (cache c).*1 ->
  access_times c !! key = Some accessed ->
  (ttl c < now - accessed)%Qc ->
  get now now' key c
  = (count_miss (set_store c (od_del key (cache c)) (delete key (access_times c))),
     Ok None).
Proof.
  intros Hwf Hin Hacc Hexp. unfold get.
  rewrite (proj2 (od_contains_true _ _) Hin), Hacc.
  rewrite decide_True by done. by rewrite _remove_present.
Qed.

Lemma get_fresh now now' key c accessed value :
  key ∈ (cache c).*1 ->
  access_times c !! key = Some accessed ->
  ¬ (ttl c < now - accessed)%Qc ->
  od_lookup key (cache c) = Some value ->
  get now now' key c
  = (count_hit (set_store c (od_del key (cache c) ++ [(key, value)])%list
                          (<[key := now']> (access_times c))),
     Ok (Some value)).
Proof.
  intros Hin Hacc Hexp Hval. unfold get.
  rewrite (proj2 (od_contains_true _ _) Hin), Hacc.
  rewrite decide_False by done. rewrite Hval. cbn.
  rewrite od_set_absent by apply od_del_not_elem. done.
Qed.

End CacheLemmas.

Section CachePut.
Context {V : Type}.
Implicit Types (c : LRUCache V) (key : string).

Lemma put_present t key (value : V) c :
  key ∈ (cache c).*1 ->
  put t key value c
  = (set_store c (od_del key (cache c) ++ [(key, value)])%list
               (<[key := t]> (access_times c)), Ok ()).
Proof.
  intros Hin. unfold put. rewrite (proj2 (od_contains_true _ _) Hin). cbn.
  by rewrite od_set_absent by apply od_del_not_elem.
Qed.

Lemma put_absent_room t key (value : V) c :
  key ∉ (cache c).*1 -> length (cache c) < max_size c ->
  put t key value c
  = (set_store c (cache c ++ [(key, value)])%list
               (<[key := t]> (access_times c)), Ok ()).
Proof.
  intros Hnin Hlt. unfold put. rewrite (proj2 (od_contains_false _ _) Hnin).
  rewrite bool_decide_eq_false_2 by lia. cbn. by rewrite od_set_absent.
Qed.

Lemma put_absent_full t key (value : V) c oldest_key oldest_value rest :
  cache_wf c -> key ∉ (cache c).*1 -> max_size c <= length (cache c) ->
  cache c = (oldest_key, oldest_value) :: rest ->
  put t key value c
  = (mkLRUCache (max_size c) (ttl c) (rest ++ [(key, value)])%list
       (<[key := t]> (delete oldest_key (access_times c)))
       (hits c) (misses c) (S (evictions c)), Ok ()).
Proof.
  intros Hwf Hnin Hfull Hc. unfold put.
  rewrite (proj2 (od_contains_false _ _) Hnin).
  rewrite bool_decide_eq_true_2 by lia. rewrite Hc.
  assert (Hold : oldest_key ∈ (cache c).*1).
  { rewrite Hc, fmap_cons. apply elem_of_cons. by left. }
  rewrite _remove_present by done. cbn.
  assert (Hdel : od_del oldest_key (cache c) = rest).
  { rewrite Hc. apply od_del_head. destruct Hwf as [Hnd _].
    rewrite Hc, fmap_cons in Hnd. by apply NoDup_cons in Hnd as [? _]. }
  rewrite Hdel. rewrite od_set_absent; [done|].
  rewrite Hc, fmap_cons in Hnin. by apply not_elem_of_cons in Hnin as [_ ?].
Qed.

Lemma put_empty_full t key (value : V) c :
  cache c = [] -> max_size c = 0 ->
  put t key value c = (c, Raise StopIteration).
Proof.
  intros Hc Hms. unfold put. unfold od_contains. rewrite Hc, Hms. done.
Qed.

End CachePut.

Section CacheRun.
Context {V : Type}.
Implicit Types (c : LRUCache V) (key : string).

Lemma wf_moved c key (v : V) (t : Qc) :
  cache_wf c ->
  cache_wf (set_store c (od_del key (cache c) ++ [(key, v)])%list
                      (<[key := t]> (access_times c))).
Proof.
  intros Hwf. rewrite <- insert_delete_eq.
  exact (wf_appended
           (set_store c (od_del key (cache c)) (delete key (access_times c)))
           key v t (wf_deleted c key Hwf) (od_del_not_elem key (cache c))).
Qed.

Lemma moved_length c key (v : V) :
  cache_wf c -> key ∈ (cache c).*1 ->
  length (od_del key (cache c) ++ [(key, v)])%list = length (cache c).
Proof.
  intros [Hnd _] Hin. rewrite length_app. cbn.
  rewrite <- (od_del_length key (cache c)) by done. lia.
Qed.

Lemma get_inv now now' key c :
  cache_wf c -> size_ c <= max_size c ->
  let c' := (get now now' key c).1 in
  cache_wf c' /\ size_ c' <= max_size c' /\ max_size c' = max_size c
  /\ ttl c' = ttl c.
Proof.
  intros Hwf Hsz. destruct (decide (key ∈ (cache c).*1)) as [Hin|Hnin].
  - destruct (wf_has_time c key Hwf Hin) as [accessed Hacc].
    destruct (decide (ttl c < now - accessed)%Qc) as [Hexp|Hfresh].
    + rewrite (get_expired _ _ _ _ _ Hwf Hin Hacc Hexp). cbn.
      split; [by apply wf_deleted|]. split; [|done].
      unfold size_ in *. cbn. pose proof (od_del_length_le key (cache c)). lia.
    + destruct (od_lookup_Some key (cache c) Hin) as (value & Hval & _).
      rewrite (get_fresh _ _ _ _ _ _ Hin Hacc Hfresh Hval). cbn.
      split; [by apply wf_moved|]. split; [|done].
      unfold size_ in *. cbn. by rewrite moved_length.
  - rewrite get_absent by done. done.
Qed.

Lemma put_inv t key (value : V) c :
  cache_wf c -> size_ c <= max_size c ->
  let c' := (put t key value c).1 in
  cache_wf c' /\ size_ c' <= max_size c' /\ max_size c' = max_size c
  /\ ttl c' = ttl c.
Proof.
  intros Hwf Hsz. destruct (decide (key ∈ (cache c).*1)) as [Hin|Hnin].
  - rewrite put_present by done. cbn.
    split; [by apply wf_moved|]. split; [|done].
    unfold size_ in *. cbn. by rewrite moved_length.
  - destruct (decide (length (cache c) < max_size c)) as [Hroom|Hfull].
    + rewrite put_absent_room by done. cbn.
      split; [by apply wf_appended|]. split; [|done].
      unfold size_. cbn. rewrite length_app. cbn. lia.
    + destruct (cache c) as [|[k0 v0] rest] eqn:Hc.
      * rewrite put_empty_full; [cbn; auto | done |].
        cbn in Hfull. lia.
      * rewrite (put_absent_full t key value c k0 v0 rest);
          [| done | by rewrite Hc | rewrite Hc; cbn in *; lia | done ].
        cbn. unfold size_ in *. rewrite Hc in *. cbn in *.
        split; [|split; [rewrite length_app; cbn; lia|done]].
        pose proof (wf_deleted c k0 Hwf) as Hd.
        rewrite Hc in Hd.
        rewrite od_del_head in Hd.
        2:{ destruct Hwf as [Hnd _]. rewrite Hc, fmap_cons in Hnd.
            by apply NoDup_cons in Hnd as [? _]. }
        pose proof (wf_appended _ key value t Hd) as Ha. cbn in Ha.
        apply Ha. by apply not_elem_of_cons in Hnin as [_ ?].
Qed.

Lemma cleanup_expired_inv t c :
  cache_wf c -> size_ c <= max_size c ->
  let c' := (cleanup_expired t c).1 in
  cache_wf c' /\ size_ c' <= max_size c' /\ max_size c' = max_size c
  /\ ttl c' = ttl c.
Proof.
  intros Hwf Hsz. unfold cleanup_expired.
  set (keys := (map_to_list _).*1).
  destruct (remove_all_wf keys c Hwf) as (Hok & Hwf' & Hsz' & Hms & Httl).
  destruct (remove_all keys c) as [c' r]. cbn in *. subst r. cbn.
  split; [done|]. split; [lia|done].
Qed.

Lemma cache_step_inv c (o : cache_op) :
  cache_wf c -> size_ c <= max_size c ->
  let c' := cache_step c o in
  cache_wf c' /\ size_ c' <= max_size c' /\ max_size c' = max_size c
  /\ ttl c' = ttl c.
Proof.
  intros Hwf Hsz. destruct o as [now now' key|t key value|t]; cbn.
  - by apply get_inv.
  - by apply put_inv.
  - by apply cleanup_expired_inv.
Qed.

Lemma cache_run_inv (ops : list cache_op) c :
  cache_wf c -> size_ c <= max_size c ->
  let c' := cache_run ops c in
  cache_wf c' /\ size_ c' <= max_size c' /\ max_size c' = max_size c
  /\ ttl c' = ttl c.
Proof.
  revert c. induction ops as [|o ops IH]; intros c Hwf Hsz; [done|].
  change (cache_run (o :: ops) c) with (cache_run ops (cache_step c o)).
  destruct (cache_step_inv c o Hwf Hsz) as (Hwf' & Hsz' & Hms & Httl).
  destruct (IH _ Hwf' Hsz') as (H1 & H2 & H3 & H4). cbn zeta.
  split; [done|]. split; [done|]. cbn zeta in *. split; congruence.
Qed.

Lemma LRUCache_init_wf (ms : nat) (t : Qc) : cache_wf (@LRUCache_init V ms t).
Proof. split; cbn; [apply NoDup_nil_2 | set_solver]. Qed.

End CacheRun.

Lemma StronglySorted_impl_elem {A} (R R' : relation A) (l : list A) :
  (forall x y, x ∈ l -> y ∈ l -> R x y -> R' x y) ->
  StronglySorted R l -> StronglySorted R' l.
Proof.
  intros Himpl Hs. induction Hs as [|x l Hs IH Hall]; constructor.
  - apply IH. intros a b Ha Hb. apply Himpl; by apply elem_of_cons; right.
  - apply Forall_forall. intros y Hy. apply Himpl.
    + apply elem_of_cons. by left.
    + apply elem_of_cons. by right.
    + by eapply Forall_forall in Hall.
Qed.

Lemma StronglySorted_filter {A} (R : relation A) (P : A -> Prop)
  `{!forall x, Decision (P x)} (l : list A) :
  StronglySorted R l -> StronglySorted R (filter P l).
Proof.
  intros Hs. induction Hs as [|x l Hs IH Hall]; [constructor|].
  rewrite filter_cons. destruct (decide (P x)); [|done].
  constructor; [done|]. apply Forall_forall. intros y Hy.
  apply list_elem_of_filter in Hy as [_ Hy]. by eapply Forall_forall in Hall.
Qed.

(** ** The order of use *)

Lemma StronglySorted_sublist {A} (R : relation A) (l k : list A) :
  l `sublist_of` k -> StronglySorted R k -> StronglySorted R l.
Proof.
  induction 1 as [|x l k Hsub IH|x l k Hsub IH]; intros Hs; [done| |].
  - apply StronglySorted_inv in Hs as [Hs Hall]. constructor; [by apply IH|].
    apply Forall_forall. intros y Hy. rewrite Forall_forall in Hall.
    apply Hall. by eapply elem_of_sublist.
  - apply StronglySorted_inv in Hs as [Hs _]. by apply IH.
Qed.

Lemma use_ordered_sublist used i (keys keys' : list string) :
  keys' `sublist_of` keys -> use_ordered used i keys -> use_ordered used i keys'.
Proof.
  intros Hsub [Hs Hall]. split; [by eapply StronglySorted_sublist|].
  apply Forall_forall. intros key Hkey. rewrite Forall_forall in Hall.
  apply Hall. by eapply elem_of_sublist.
Qed.

Lemma use_ordered_next used i (keys : list string) :
  use_ordered used i keys -> use_ordered used (S i) keys.
Proof.
  intros [Hs Hall]. split; [done|]. eapply Forall_impl; [exact Hall|].
  intros key (j & Hj & Hlt). exists j. split; [done|lia].
Qed.

(** The key used by the call at position [i] goes last. *)
Lemma use_ordered_snoc used i (keys : list string) key :
  use_ordered used i keys -> key ∉ keys ->
  use_ordered (<[key := i]> used) (S i) (keys ++ [key]).
Proof.
  intros [Hs Hall] Hnin. rewrite Forall_forall in Hall.
  assert (forall k, k ∈ keys -> <[key := i]> used !! k = used !! k) as Hk.
  { intros k Hin. apply lookup_insert_ne. by intros ->. }
  split.
  - apply StronglySorted_app_2.
    + intros k k' Hin ->%list_elem_of_singleton.
      destruct (Hall k Hin) as (j & Hj & Hlt). exists j, i.
      rewrite Hk by done. by rewrite lookup_insert_eq.
    + revert Hs. apply StronglySorted_impl_elem.
      intros k k' Hin Hin' (j & j' & ? & ? & ?). exists j, j'.
      by rewrite !Hk.
    + repeat constructor.
  - apply Forall_app. split.
    + apply Forall_forall. intros k Hin.
      destruct (Hall k Hin) as (j & Hj & Hlt). exists j.
      rewrite Hk by done. split; [done|lia].
    + repeat constructor. exists i. rewrite lookup_insert_eq. split; [done|lia].
Qed.

Section UseOrder.
Context {V : Type}.
Implicit Types (c : LRUCache V) (key : string).

(** A [put] on a cache of capacity at least 1: the entry goes last, behind
    the other entries, of which the oldest is dropped if the cache is
    full. *)
Lemma put_kept t key (value : V) c :
  cache_wf c -> 1 <= max_size c ->
  (put t key value c).2 = Ok ()
  /\ cache_wf (put t key value c).1
  /\ max_size (put t key value c).1 = max_size c
  /\ exists kept,
       cache (put t key value c).1 = kept ++ [(key, value)]
       /\ (kept = od_del key (cache c)
           \/ (max_size c <= length (cache c)
               /\ exists oldest, cache c = oldest :: kept)).
Proof.
  intros Hwf Hms. destruct (decide (key ∈ (cache c).*1)) as [Hin|Hout].
  - rewrite put_present by done. cbn.
    split; [done|]. split; [by apply wf_moved|]. split; [done|].
    exists (od_del key (cache c)). split; [done|]. by left.
  - destruct (decide (length (cache c) < max_size c)) as [Hroom|Hfull].
    + rewrite put_absent_room by done. cbn.
      split; [done|]. split; [by apply wf_appended|]. split; [done|].
      exists (cache c). split; [done|]. left. by rewrite od_del_absent.
    + destruct (cache c) as [|[k0 v0] rest] eqn:Hc; [cbn in *; lia|].
      rewrite (put_absent_full t key value c k0 v0 rest Hwf);
        [|by rewrite Hc|rewrite Hc; cbn in *; lia|done].
      cbn. split; [done|]. split; [|split; [done|]].
      * pose proof (wf_deleted c k0 Hwf) as Hd.
        assert (od_del k0 (cache c) = rest) as Hrest.
        { rewrite Hc. apply od_del_head. destruct Hwf as [Hnd _].
          rewrite Hc, fmap_cons in Hnd. by apply NoDup_cons in Hnd as [? _]. }
        rewrite Hrest in Hd.
        rewrite fmap_cons in Hout. apply not_elem_of_cons in Hout as [_ Hout].
        by apply (wf_appended _ key value t) in Hd.
      * exists rest. split; [done|]. right.
        split; [cbn [length] in *; lia|]. by eexists.
Qed.

Lemma od_del_sublist key (od : list (string * V)) :
  (od_del key od).*1 `sublist_of` od.*1.
Proof. rewrite od_del_keys. apply sublist_filter. Qed.

Lemma remove_all_sublist keys c :
  cache_wf c -> (cache (remove_all keys c).1).*1 `sublist_of` (cache c).*1.
Proof.
  revert c. induction keys as [|key keys IH]; intros c Hwf; [done|].
  cbn. destruct (_remove_wf key c Hwf) as (Hok & Hwf' & _).
  assert ((cache (_remove key c).1).*1 `sublist_of` (cache c).*1) as Hsub.
  { destruct (decide (key ∈ (cache c).*1)) as [Hin|Hnin].
    - rewrite _remove_present by done. cbn. apply od_del_sublist.
    - by rewrite _remove_absent. }
  destruct (_remove key c) as [c' r]. cbn in *. subst r.
  etrans; [by apply IH|done].
Qed.

(** A call keeps the stored keys in the order of their last use. *)
Lemma use_step_ordered c used i (o : @cache_op V) :
  cache_wf c -> 1 <= max_size c ->
  use_ordered used i (cache c).*1 ->
  use_ordered (use_step (c, used, i) o).1.2 (S i)
    (cache (use_step (c, used, i) o).1.1).*1.
Proof.
  intros Hwf Hms Hord. unfold use_step, used_key.
  destruct o as [now now' key|t key value|t]; cbn [cache_step fst snd].
  - destruct (decide (key ∈ (cache c).*1)) as [Hin|Hnin].
    + destruct (wf_has_time c key Hwf Hin) as [accessed Hacc].
      destruct (decide (ttl c < now - accessed)%Qc) as [Hexp|Hfresh].
      * rewrite (get_expired _ _ _ _ _ Hwf Hin Hacc Hexp). cbn.
        apply use_ordered_next.
        eapply use_ordered_sublist; [apply od_del_sublist|done].
      * destruct (od_lookup_Some key (cache c) Hin) as (value & Hval & _).
        rewrite (get_fresh _ _ _ _ _ _ Hin Hacc Hfresh Hval). cbn.
        rewrite fmap_app. cbn. apply use_ordered_snoc.
        -- eapply use_ordered_sublist; [apply od_del_sublist|done].
        -- apply od_del_not_elem.
    + rewrite get_absent by done. cbn. by apply use_ordered_next.
  - destruct (put_kept t key value c Hwf Hms)
      as (Hok & Hwf' & _ & kept & Hc & Hkept).
    rewrite Hok, Hc, fmap_app. cbn.
    assert (NoDup (kept ++ [(key, value)]).*1) as Hnd.
    { rewrite <- Hc. by destruct Hwf'. }
    rewrite fmap_app in Hnd. apply NoDup_app in Hnd as (_ & Hnd & _).
    apply use_ordered_snoc.
    + eapply use_ordered_sublist; [|exact Hord].
      destruct Hkept as [->|(_ & oldest & ->)]; [apply od_del_sublist|].
      rewrite fmap_cons. by apply sublist_cons.
    + intros Hin. apply (Hnd key Hin). cbn. apply elem_of_cons. by left.
  - unfold cleanup_expired.
    set (keys := (map_to_list _).*1).
    destruct (remove_all_wf keys c Hwf) as (Hok & _).
    pose proof (remove_all_sublist keys c Hwf) as Hsub.
    destruct (remove_all keys c) as [c' r]. cbn in *. subst r. cbn.
    apply use_ordered_next. by eapply use_ordered_sublist.
Qed.

Lemma use_run_ordered (ops : list (@cache_op V)) :
  forall c used i,
    cache_wf c -> size_ c <= max_size c -> 1 <= max_size c ->
    use_ordered used i (cache c).*1 ->
    let st := foldl use_step (c, used, i) ops in
    st.1.1 = cache_run ops c
    /\ use_ordered st.1.2 st.2 (cache st.1.1).*1.
Proof.
  induction ops as [|o ops IH]; intros c used i Hwf Hsz Hms Hord; [done|].
  cbn [foldl].
  pose proof (use_step_ordered c used i o Hwf Hms Hord) as Hord'.
  destruct (cache_step_inv c o Hwf Hsz) as (Hwf' & Hsz' & Hms' & _).
  change (cache_run (o :: ops) c) with (cache_run ops (cache_step c o)).
  unfold use_step in *. cbn [fst snd] in Hord'.
  apply IH; [done|done|lia|done].
Qed.

(** After any calls on a new cache of capacity at least 1, the first entry
    is the least recently used one, and no other key is. *)
Lemma least_recently_used_head (ops : list (@cache_op V)) (ms : nat)
  (ttl0 : Qc) k0 v0 rest :
  1 <= ms ->
  cache (cache_run ops (LRUCache_init ms ttl0)) = (k0, v0) :: rest ->
  least_recently_used ops (LRUCache_init ms ttl0) k0
  /\ forall key, least_recently_used ops (LRUCache_init ms ttl0) key ->
                 key = k0.
Proof.
  intros Hms Hc.
  destruct (use_run_ordered ops (LRUCache_init ms ttl0) ∅ 0
              (LRUCache_init_wf ms ttl0) ltac:(cbn; lia) ltac:(cbn; lia)
              ltac:(split; constructor)) as [Hrun [Hs Hall]].
  cbn zeta in *. rewrite Hrun, Hc in Hs. rewrite fmap_cons in Hs. cbn in Hs.
  apply StronglySorted_inv in Hs as [_ Hhead]. rewrite Forall_forall in Hhead.
  assert (least_recently_used ops (LRUCache_init ms ttl0) k0) as Hlru.
  { split.
    - rewrite Hc, fmap_cons. apply elem_of_cons. by left.
    - intros key'. rewrite Hc, fmap_cons. cbn.
      intros [->|Hin]%elem_of_cons Hne; [done|]. by apply Hhead. }
  split; [done|]. intros key [Hin Hkey].
  destruct (decide (key = k0)) as [|Hne]; [done|]. exfalso.
  destruct Hlru as [Hin0 Hk0].
  destruct (Hk0 key Hin Hne) as (i & j & Hi & Hj & Hlt).
  destruct (Hkey k0 Hin0 ltac:(congruence)) as (j' & i' & Hj' & Hi' & Hlt').
  assert (i = i') by congruence. assert (j = j') by congruence. lia.
Qed.

End UseOrder.

(** *** Reading and writing the cache *)

Lemma od_lookup_elem {V : Type} key (od : list (string * V)) value :
  od_lookup key od = Some value -> key ∈ od.*1.
Proof.
  induction od as [|[k w] od IH]; [done|].
  cbn. destruct (decide (k = key)) as [->|Hne].
  - intros _. apply elem_of_cons. by left.
  - intros H. apply elem_of_cons. right. by apply IH.
Qed.

(** C3. [get(key)]: an absent key counts a miss and yields not-found; a
    present key whose age [now - last access] exceeds the TTL is removed
    (the size drops by one), counts a miss and yields not-found; a present
    key that has not expired counts a hit, becomes the last (most recently
    used) entry, has its access time set to the current reading, and its
    stored value is returned unchanged. *)
Theorem get_cases {V : Type} (c : LRUCache V) (now now' : Qc) (key : string) :
  cache_wf c ->
  (key ∉ (cache c).*1 ->
     get now now' key c
     = (mkLRUCache (max_size c) (ttl c) (cache c) (access_times c)
          (hits c) (S (misses c)) (evictions c), Ok None))
  /\ (forall value accessed,
        od_lookup key (cache c) = Some value ->
        access_times c !! key = Some accessed ->
        (ttl c < now - accessed)%Qc ->
        get now now' key c
        = (mkLRUCache (max_size c) (ttl c) (od_del key (cache c))
             (delete key (access_times c))
             (hits c) (S (misses c)) (evictions c), Ok None)
        /\ (key ∉ (od_del key (cache c)).*1)
        /\ S (length (od_del key (cache c))) = size_ c)
  /\ (forall value accessed,
        od_lookup key (cache c) = Some value ->
        access_times c !! key = Some accessed ->
        ~ (ttl c < now - accessed)%Qc ->
        get now now' key c
        = (mkLRUCache (max_size c) (ttl c)
             (od_del key (cache c) ++ [(key, value)])%list
             (<[key := now']> (access_times c))
             (S (hits c)) (misses c) (evictions c), Ok (Some value))
        /\ last (od_del key (cache c) ++ [(key, value)])%list = Some (key, value)
        /\ length (od_del key (cache c) ++ [(key, value)])%list = size_ c).
Proof.
  intros Hwf. split; [|split].
  - intros Hnin. by rewrite get_absent.
  - intros value accessed Hval Hacc Hexp.
    pose proof (od_lookup_elem _ _ _ Hval) as Hin.
    rewrite (get_expired _ _ _ _ _ Hwf Hin Hacc Hexp).
    split; [done|]. split; [apply od_del_not_elem|].
    destruct Hwf as [Hnd _]. by apply od_del_length.
  - intros value accessed Hval Hacc Hfresh.
    pose proof (od_lookup_elem _ _ _ Hval) as Hin.
    rewrite (get_fresh _ _ _ _ _ _ Hin Hacc Hfresh Hval).
    split; [done|]. split; [by rewrite last_snoc|]. by apply moved_length.
Qed.

(** The caches of [MultiLevelCache] hold lists of results; here a cache of
    numbers with the test suite's capacity 3 and TTL 1 after
    [put("key1", 1)] at time 0. *)
Lemma get_cases_witness :
  let c := (put (qz 0) "key1" 1 (@LRUCache_init nat 3 (qz 1))).1 in
  cache_wf c
  /\ (get (qz 0) (qz 0) "key1" c).2 = Ok (Some 1)
  /\ (get (qz 2) (qz 2) "key1" c).2 = Ok None
  /\ (get (qz 0) (qz 0) "nonexistent" c).2 = Ok None.
Proof.
  assert (Hwf : cache_wf (put (qz 0) "key1" 1 (@LRUCache_init nat 3 (qz 1))).1).
  { apply put_inv; [apply LRUCache_init_wf | cbn; lia]. }
  split; [exact Hwf|].
  pose proof (get_cases _ (qz 0) (qz 0) "key1" Hwf) as (_ & _ & Hhit).
  pose proof (get_cases _ (qz 2) (qz 2) "key1" Hwf) as (_ & Hexp & _).
  pose proof (get_cases _ (qz 0) (qz 0) "nonexistent" Hwf) as (Hmiss & _ & _).
  split; [|split].
  - destruct (Hhit 1 (qz 0)) as [-> _]; [by vm_compute.. | done].
  - destruct (Hexp 1 (qz 0)) as [-> _]; [by vm_compute.. | done].
  - rewrite Hmiss; [done|]. apply od_contains_false. by vm_compute.
Defined.

(** C2, as amended: for a cache of capacity [max_size >= 1], after every
    sequence of get/put/cleanup calls the number of stored entries is at
    most [max_size]; a put of an absent key at capacity removes exactly one
    entry, the least recently used one - the stored key whose last use, by
    a [put] or by a [get] that returned its value, lies furthest back in
    the sequence of calls - and counts one eviction; a put of a present key
    replaces its value, makes it the last entry and sets its access time,
    without evicting. *)
Theorem put_bounded_lru {V : Type} (ms : nat) (ttl0 : Qc)
  (ops : list (@cache_op V)) :
  1 <= ms ->
  let c := cache_run ops (LRUCache_init ms ttl0) in
  size_ c <= ms
  /\ (forall t key value,
        key ∉ (cache c).*1 -> size_ c = ms ->
        exists oldest_key oldest_value rest,
          cache c = (oldest_key, oldest_value) :: rest
          /\ put t key value c
             = (mkLRUCache ms ttl0 (rest ++ [(key, value)])%list
                  (<[key := t]> (delete oldest_key (access_times c)))
                  (hits c) (misses c) (S (evictions c)), Ok ())
          /\ least_recently_used ops (LRUCache_init ms ttl0) oldest_key
          /\ forall key',
               least_recently_used ops (LRUCache_init ms ttl0) key' ->
               key' = oldest_key)
  /\ (forall t key value,
        key ∈ (cache c).*1 ->
        put t key value c
        = (mkLRUCache ms ttl0 (od_del key (cache c) ++ [(key, value)])%list
             (<[key := t]> (access_times c))
             (hits c) (misses c) (evictions c), Ok ())
        /\ length (od_del key (cache c) ++ [(key, value)])%list = size_ c).
Proof.
  intros Hms c.
  destruct (cache_run_inv ops (LRUCache_init ms ttl0)
              (LRUCache_init_wf ms ttl0) ltac:(cbn; lia))
    as (Hwf & Hsz & Hmax & Httl).
  change (cache_wf c) in Hwf. change (size_ c <= max_size c) in Hsz.
  change (max_size c = ms) in Hmax. change (ttl c = ttl0) in Httl.
  split; [lia|]. split.
  - intros t key value Hnin Hfull.
    destruct (cache c) as [|[k0 v0] rest] eqn:Hc.
    { unfold size_ in Hfull. rewrite Hc in Hfull. cbn in Hfull. lia. }
    exists k0, v0, rest. split; [done|]. split.
    + rewrite (put_absent_full t key value c k0 v0 rest Hwf);
        [by rewrite Hmax, Httl | by rewrite Hc | unfold size_ in Hfull; lia
        | done].
    + by apply (least_recently_used_head ops ms ttl0 k0 v0 rest).
  - intros t key value Hin. rewrite put_present by done.
    split; [unfold set_store; by rewrite Hmax, Httl|]. by apply moved_length.
Qed.

(** The test suite's scenario: capacity 3, [key1], [key2], [key3] are put,
    [key1] is read, and [key4] is put: [key2] is evicted, whose last use
    (call 1) precedes those of [key3] (call 2) and [key1] (call 3). *)
Lemma put_bounded_lru_witness :
  let ops : list (@cache_op nat) :=
    [OpPut (qz 1) "key1" 1; OpPut (qz 2) "key2" 2; OpPut (qz 3) "key3" 3;
     OpGet (qz 4) (qz 4) "key1"] in
  let c := cache_run ops (LRUCache_init 3 (qz 10)) in
  1 <= 3
  /\ size_ c <= 3
  /\ (cache (put (qz 5) "key4" 4 c).1).*1 = ["key3"; "key1"; "key4"]
  /\ evictions (put (qz 5) "key4" 4 c).1 = 1
  /\ least_recently_used ops (LRUCache_init 3 (qz 10)) "key2"
  /\ last_use ops (LRUCache_init 3 (qz 10))
     = {[ "key1" := 3; "key2" := 1; "key3" := 2 ]}.
Proof.
  intros ops c.
  assert (H3 : 1 <= 3) by lia.
  split; [exact H3|].
  destruct (put_bounded_lru 3 (qz 10) ops H3) as (Hsz & Hput & _).
  split; [exact Hsz|].
  destruct (Hput (qz 5) "key4" 4) as (k0 & v0 & rest & Hc & Heq & Hlru & _).
  - apply od_contains_false. by vm_compute.
  - by vm_compute.
  - fold c in Heq. rewrite Heq. cbn [fst cache evictions].
    vm_compute in Hc. injection Hc as <- <- <-.
    split; [by vm_compute|]. split; [by vm_compute|]. split; [exact Hlru|].
    by vm_compute.
Defined.

(** C2 as stated fails for capacity 0: the empty cache is at capacity, and
    a put raises [StopIteration], evicts nothing and counts no eviction. *)
Lemma put_zero_capacity_counterexample :
  let c := @LRUCache_init nat 0 (qz 1800) in
  ("key1" ∉ (cache c).*1)
  /\ size_ c = max_size c
  /\ put (qz 0) "key1" 1 c = (c, Raise StopIteration)
  /\ evictions (put (qz 0) "key1" 1 c).1 = evictions c.
Proof. cbn. split; [apply not_elem_of_nil|done]. Qed.

(** ** Facet filtering *)

Lemma product_matches_filter_value product facet_name selected_values :
  product_matches_facet product facet_name selected_values = true
  <-> exists v, filter_value product facet_name = Some v /\ v ∈ selected_values.
Proof.
  unfold product_matches_facet, filter_value.
  repeat match goal with
         | |- context [bool_decide (facet_name = ?s)] =>
             destruct (bool_decide (facet_name = s))
         end;
    try (rewrite bool_decide_eq_true; naive_solver).
  split; [done|]. by intros (v & ? & _).
Qed.

Lemma matches_all_filters_passes product filters :
  matches_all_filters product filters = true <-> passes_filters product filters.
Proof.
  unfold passes_filters.
  induction filters as [|[name sel] filters IH]; cbn.
  - split; [|done]. intros _ n s Hin. by apply elem_of_nil in Hin.
  - destruct sel as [|s0 sel].
    + rewrite IH. split.
      * intros H n s [Heq|Hin]%elem_of_cons Hne; [|by apply H].
        by injection Heq as -> ->.
      * intros H n s Hin. apply H. apply elem_of_cons. by right.
    + destruct (product_matches_facet product name (s0 :: sel)) eqn:Hm.
      * rewrite IH. apply product_matches_filter_value in Hm. split.
        -- intros H n s [Heq|Hin]%elem_of_cons Hne; [|by apply H].
           by injection Heq as -> ->.
        -- intros H n s Hin. apply H. apply elem_of_cons. by right.
      * split; [done|]. intros H.
        assert (product_matches_facet product name (s0 :: sel) = true) as Ht;
          [|congruence].
        apply product_matches_filter_value. apply H; [|done].
        apply elem_of_cons. by left.
Qed.

Lemma elem_of_filter_loop (products : list (gmap string string))
  (product_ids : gset string) (filters : list (string * list string))
  (acc : gset string) (x : string) :
  x ∈ foldl (fun (filtered_ids : gset string) product =>
               let product_id := doc_get product "id" "" in
               if bool_decide (product_id ∈ product_ids) then
                 if matches_all_filters product filters
                 then filtered_ids ∪ {[ product_id ]}
                 else filtered_ids
               else filtered_ids)
            acc products
  <-> x ∈ acc
      \/ (x ∈ product_ids
          /\ exists product, product ∈ products
               /\ doc_get product "id" "" = x
               /\ matches_all_filters product filters = true).
Proof.
  revert acc. induction products as [|p products IH]; intros acc; cbn.
  - split; [by left|]. intros [?|(_ & p & Hp & _)]; [done|].
    by apply elem_of_nil in Hp.
  - rewrite IH. clear IH. split.
    + intros [Hacc|(Hx & q & Hq & Hid & Hm)].
      * case_bool_decide as Hin; [|by left].
        destruct (matches_all_filters p filters) eqn:Hm; [|by left].
        apply elem_of_union in Hacc as [?|Hx%elem_of_singleton]; [by left|].
        right. subst x. split; [done|]. exists p. split; [|done].
        apply elem_of_cons. by left.
      * right. split; [done|]. exists q. split; [|done].
        apply elem_of_cons. by right.
    + intros [Hacc|(Hx & q & Hq & Hid & Hm)].
      * left. case_bool_decide; [|done].
        destruct (matches_all_filters p filters); [|done].
        apply elem_of_union. by left.
      * apply elem_of_cons in Hq as [->|Hq].
        -- left. rewrite Hid, Hm. rewrite bool_decide_eq_true_2 by done.
           apply elem_of_union. right. by apply elem_of_singleton.
        -- right. split; [done|]. by exists q.
Qed.

Lemma elem_of_filter_by_facets (products : list (gmap string string))
  (product_ids : gset string) f filters x :
  x ∈ filter_by_facets products product_ids (f :: filters)
  <-> x ∈ product_ids
      /\ exists product, product ∈ products
           /\ doc_get product "id" "" = x
           /\ passes_filters product (f :: filters).
Proof.
  unfold filter_by_facets. rewrite elem_of_filter_loop. split.
  - intros [Hx|(Hx & p & Hp & Hid & Hm)]; [by apply not_elem_of_empty in Hx|].
    split; [done|]. exists p. by rewrite <- matches_all_filters_passes.
  - intros (Hx & p & Hp & Hid & Hm). right. split; [done|].
    exists p. by rewrite matches_all_filters_passes.
Qed.

(** What [filter_by_facets] computes, by the values it compares: the
    candidate ids whose product record has, for every facet name present in
    [filters] with a non-empty selection, the value the filter reads for it
    among the selected values; a facet that is absent or has an empty
    selection constrains nothing; the empty [filters] returns the candidate
    ids unchanged. *)
Lemma filter_by_facets_exact (products : list (gmap string string))
  (product_ids : gset string) :
  filter_by_facets products product_ids [] = product_ids
  /\ forall f filters x,
       x ∈ filter_by_facets products product_ids (f :: filters)
       <-> x ∈ product_ids
           /\ exists product, product ∈ products
                /\ doc_get product "id" "" = x
                /\ passes_filters product (f :: filters).
Proof. split; [done|]. apply elem_of_filter_by_facets. Qed.

(** The specification's example: four products, filtered by brand and by
    brand and category. *)
Example filter_by_facets_example :
  let products : list (gmap string string) :=
    [ {[ "id" := "1"; "Brand" := "Samsung"; "Type" := "Phone" ]};
      {[ "id" := "2"; "Brand" := "Apple"; "Type" := "Phone" ]};
      {[ "id" := "3"; "Brand" := "Sony"; "Type" := "Headphone" ]};
      {[ "id" := "4"; "Brand" := "Samsung"; "Type" := "TV" ]} ] in
  let ids : gset string := {[ "1"; "2"; "3"; "4" ]} in
  filter_by_facets products ids [("brand", ["Samsung"])] = {[ "1"; "4" ]}
  /\ filter_by_facets products ids
       [("brand", ["Samsung"]); ("category", ["Mobile & Tablets"])] = {[ "1" ]}
  /\ filter_by_facets products ids [("brand", [])] = ids.
Proof. repeat split; by vm_compute. Qed.

(** C10. A filter on a facet name outside the five recognized names, with a
    non-empty selection, rejects every product: the result is empty. *)
Theorem filter_by_facets_unrecognized (products : list (gmap string string))
  (product_ids : gset string) (filters : list (string * list string))
  (facet_name : string) (selected_values : list string) :
  (facet_name, selected_values) ∈ filters ->
  selected_values <> [] ->
  facet_name ∉ recognized_facets ->
  filter_by_facets products product_ids filters = ∅.
Proof.
  intros Hin Hne Hun. destruct filters as [|f filters].
  { by apply elem_of_nil in Hin. }
  apply set_eq. intros x.
  rewrite elem_of_filter_by_facets.
  split; [|by intros ?%not_elem_of_empty].
  intros (_ & p & _ & _ & Hpass).
  destruct (Hpass facet_name selected_values Hin Hne) as (v & Hv & _).
  unfold filter_value in Hv. unfold recognized_facets in Hun.
  repeat case_bool_decide; subst; try done; set_solver.
Qed.

Lemma filter_by_facets_unrecognized_witness :
  let products : list (gmap string string) :=
    [ {[ "id" := "1"; "Brand" := "Samsung"; "Type" := "Phone" ]} ] in
  ("color", ["red"]) ∈ [("brand", ["Samsung"]); ("color", ["red"])]
  /\ ["red"] <> []
  /\ ("color" ∉ recognized_facets)
  /\ filter_by_facets products {[ "1" ]}
       [("brand", ["Samsung"]); ("color", ["red"])] = ∅.
Proof.
  intros products.
  assert (H1 : ("color", ["red"]) ∈ [("brand", ["Samsung"]); ("color", ["red"])]).
  { apply elem_of_cons. right. apply elem_of_cons. by left. }
  assert (H2 : ["red"] <> ([] : list string)) by done.
  assert (H3 : "color" ∉ recognized_facets).
  { intros H%(bool_decide_pack _). by vm_compute in H. }
  split; [exact H1|]. split; [exact H2|]. split; [exact H3|].
  exact (filter_by_facets_unrecognized products {[ "1" ]} _ _ _ H1 H2 H3).
Defined.

(** ** The Jaro similarity *)

(** *** The match phase *)

Lemma find_match_first_unmatched c (s2 : list ascii) (f2 : list bool) lo hi :
  length f2 = length s2 ->
  find_match c s2 f2 lo (hi - lo) = first_unmatched c s2 f2 lo hi.
Proof.
  intros Hlen. unfold first_unmatched.
  generalize (hi - lo) as steps. intros steps. revert lo.
  induction steps as [|steps IH]; intros lo; [done|].
  cbn [find_match seq list_find]. 
  destruct (s2 !! lo) as [d|] eqn:Hs2.
  - assert (lo < length f2) as Hlt.
    { rewrite Hlen. by eapply lookup_lt_Some. }
    destruct (lookup_lt_is_Some_2 f2 lo Hlt) as [f Hf]. rewrite Hf. cbn.
    destruct f; cbn.
    + rewrite decide_False by naive_solver.
      rewrite IH. by destruct (list_find _ _) as [[? ?]|].
    + destruct (decide (d = c)) as [->|Hne].
      * rewrite bool_decide_eq_true_2 by done. cbn.
        by rewrite decide_True by done.
      * rewrite bool_decide_eq_false_2 by congruence. cbn.
        rewrite decide_False by naive_solver.
        rewrite IH. by destruct (list_find _ _) as [[? ?]|].
  - rewrite bool_decide_eq_false_2 by done. rewrite orb_true_r.
    rewrite decide_False by naive_solver.
    rewrite IH. by destruct (list_find _ _) as [[? ?]|].
Qed.

Lemma first_unmatched_Some c (s2 : list ascii) (f2 : list bool) lo hi j :
  first_unmatched c s2 f2 lo hi = Some j ->
  f2 !! j = Some false /\ s2 !! j = Some c.
Proof.
  unfold first_unmatched. intros H.
  destruct (list_find _ _) as [[i x]|] eqn:Hfind; [|done].
  cbn in H. injection H as ->.
  by apply list_find_Some in Hfind as (_ & ? & _).
Qed.

Lemma jaro_matching_length w (s2 : list ascii) i (s1 : list ascii) f2 m1 m2 :
  jaro_matching w s2 i s1 f2 = (m1, m2) ->
  length m1 = length s1 /\ length m2 = length f2.
Proof.
  revert i f2 m1 m2. induction s1 as [|c s1 IH]; intros i f2 m1 m2; cbn.
  - by intros [= <- <-].
  - destruct (first_unmatched _ _ _ _ _) as [j|].
    + destruct (jaro_matching w s2 (S i) s1 (<[j:=true]> f2)) as [n1 n2] eqn:Hrec.
      intros [= <- <-]. apply IH in Hrec as [Hn1 Hn2].
      cbn. rewrite Hn1, Hn2. by rewrite length_insert.
    + destruct (jaro_matching w s2 (S i) s1 f2) as [n1 n2] eqn:Hrec.
      intros [= <- <-]. apply IH in Hrec as [Hn1 Hn2].
      cbn. by rewrite Hn1, Hn2.
Qed.

Lemma match_fold_spec w (s2 : list ascii) (pre rest : list ascii)
  (g f2 : list bool) (cnt : nat) m1 m2 :
  length g = length pre -> length f2 = length s2 ->
  jaro_matching w s2 (length pre) rest f2 = (m1, m2) ->
  foldl (match_step (pre ++ rest) s2 w)
        (g ++ replicate (length rest) false, f2, cnt)
        (seq (length pre) (length rest))
  = (g ++ m1, m2, cnt + length (matched_chars m1 rest)).
Proof.
  revert pre g f2 cnt m1 m2.
  induction rest as [|c rest IH]; intros pre g f2 cnt m1 m2 Hg Hf2; cbn [jaro_matching].
  - intros [= <- <-]. cbn. by rewrite Nat.add_0_r.
  - intros Hm. cbn [length seq foldl]. unfold match_step at 2.
    rewrite lookup_app_r by done. rewrite Nat.sub_diag. cbn [lookup list_lookup].
    rewrite find_match_first_unmatched by done.
    assert (Hpre : pre ++ c :: rest = (pre ++ [c]) ++ rest) by by rewrite <- app_assoc.
    assert (Hlen : S (length pre) = length (pre ++ [c])).
    { rewrite length_app. cbn. lia. }
    destruct (first_unmatched _ _ _ _ _) as [j|] eqn:Hfirst.
    + destruct (jaro_matching w s2 (S (length pre)) rest (<[j:=true]> f2))
        as [n1 n2] eqn:Hrec.
      injection Hm as <- <-.
      assert (Hst : <[length pre:=true]> (g ++ replicate (S (length rest)) false)
                    = (g ++ [true]) ++ replicate (length rest) false).
      { rewrite <- Hg. rewrite <- (Nat.add_0_r (length g)).
        rewrite insert_app_r. cbn. by rewrite <- app_assoc. }
      cbn [length]. rewrite Hst, Hpre, Hlen. rewrite Hlen in Hrec.
      rewrite (IH (pre ++ [c]) (g ++ [true]) (<[j:=true]> f2) (S cnt) n1 n2);
        [ | rewrite !length_app; cbn; lia | by rewrite length_insert | done ].
      rewrite <- app_assoc. cbn. f_equal. lia.
    + destruct (jaro_matching w s2 (S (length pre)) rest f2) as [n1 n2] eqn:Hrec.
      injection Hm as <- <-.
      assert (Hst : g ++ replicate (S (length rest)) false
                    = (g ++ [false]) ++ replicate (length rest) false).
      { cbn. by rewrite <- app_assoc. }
      cbn [length]. rewrite Hst, Hpre, Hlen. rewrite Hlen in Hrec.
      rewrite (IH (pre ++ [c]) (g ++ [false]) f2 cnt n1 n2);
        [ | rewrite !length_app; cbn; lia | done | done ].
      rewrite <- app_assoc. done.
Qed.

Lemma identify_matches_spec (a b : list ascii) w m1 m2 :
  jaro_matching w b 0 a (replicate (length b) false) = (m1, m2) ->
  identify_matches a b w = (m1, m2, length (matched_chars m1 a)).
Proof.
  intros Hm. unfold identify_matches.
  apply (match_fold_spec w b [] a [] _ 0 m1 m2); [done| |done].
  by rewrite length_replicate.
Qed.

(** *** Counting the matched characters *)

Lemma matched_chars_insert (f : list bool) (s : list ascii) j :
  f !! j = Some false -> length f = length s ->
  length (matched_chars (<[j:=true]> f) s) = S (length (matched_chars f s)).
Proof.
  revert s j. induction f as [|b f IH]; intros s j Hj Hlen; [done|].
  destruct s as [|c s]; [done|]. injection Hlen as Hlen.
  destruct j as [|j]; cbn in Hj.
  - injection Hj as ->. done.
  - cbn. destruct b; cbn; by rewrite IH.
Qed.

Lemma matched_chars_replicate_false n (s : list ascii) :
  matched_chars (replicate n false) s = [].
Proof.
  revert s. induction n as [|n IH]; intros s; [done|].
  cbn. destruct s; [done|]. apply IH.
Qed.

Lemma jaro_matching_count w (s2 : list ascii) i (s1 : list ascii) f2 m1 m2 :
  length f2 = length s2 ->
  jaro_matching w s2 i s1 f2 = (m1, m2) ->
  length (matched_chars m2 s2)
  = length (matched_chars f2 s2) + length (matched_chars m1 s1).
Proof.
  revert i f2 m1 m2. induction s1 as [|c s1 IH]; intros i f2 m1 m2 Hlen; cbn.
  - intros [= <- <-]. cbn. lia.
  - destruct (first_unmatched _ _ _ _ _) as [j|] eqn:Hfirst.
    + destruct (jaro_matching w s2 (S i) s1 (<[j:=true]> f2)) as [n1 n2] eqn:Hrec.
      intros [= <- <-]. apply IH in Hrec; [|by rewrite length_insert].
      apply first_unmatched_Some in Hfirst as [Hj _].
      rewrite matched_chars_insert in Hrec by done. cbn. lia.
    + destruct (jaro_matching w s2 (S i) s1 f2) as [n1 n2] eqn:Hrec.
      intros [= <- <-]. apply IH in Hrec; [|done]. cbn. lia.
Qed.

(** *** The transposition phase *)

Lemma next_matched_spec (m2 : list bool) (b : list ascii) k d B :
  length m2 = length b ->
  matched_chars (drop k m2) (drop k b) = d :: B ->
  exists k', next_matched m2 k (S (length m2 - k)) = Ok k'
             /\ b !! k' = Some d
             /\ matched_chars (drop (S k') m2) (drop (S k') b) = B.
Proof.
  intros Hlen. remember (length m2 - k) as n eqn:Hn. revert k Hn.
  induction n as [|n IH]; intros k Hn Hd.
  - rewrite drop_ge in Hd by lia. done.
  - assert (Hk : k < length m2) by lia.
    destruct (lookup_lt_is_Some_2 m2 k Hk) as [f Hf].
    assert (Hkb : k < length b) by lia.
    destruct (lookup_lt_is_Some_2 b k Hkb) as [x Hx].
    rewrite (drop_S _ _ _ Hf), (drop_S _ _ _ Hx) in Hd.
    cbn [next_matched]. rewrite Hf. destruct f; cbn in Hd.
    + injection Hd as -> <-. by exists k.
    + destruct (IH (S k) ltac:(lia) Hd) as (k' & Hnext & Hb & HB).
      exists k'. split; [|done].
      replace (length m2 - S k) with n in Hnext by lia. done.
Qed.

Lemma transposition_fold_spec (pre rest b : list ascii) (g h m2 : list bool)
  (k t0 : nat) :
  length g = length pre -> length h = length rest -> length m2 = length b ->
  length (matched_chars h rest)
    <= length (matched_chars (drop k m2) (drop k b)) ->
  exists k',
    foldl (transposition_step (pre ++ rest) b (g ++ h) m2) (Ok (k, t0))
          (seq (length pre) (length rest))
    = Ok (k', t0 + misaligned (matched_chars h rest)
                               (matched_chars (drop k m2) (drop k b))).
Proof.
  revert pre g h k t0.
  induction rest as [|c rest IH]; intros pre g h k t0 Hg Hh Hm2 Hle.
  - exists k. destruct h; [|done]. cbn. by rewrite Nat.add_0_r.
  - destruct h as [|f h]; [done|]. injection Hh as Hh.
    cbn [length seq foldl]. unfold transposition_step at 2. cbn [mbind result_bind].
    rewrite (lookup_app_r g) by lia. rewrite Hg, Nat.sub_diag.
    cbn [lookup list_lookup default from_option id].
    assert (Hpre : pre ++ c :: rest = (pre ++ [c]) ++ rest)
      by by rewrite <- app_assoc.
    assert (Hlen : S (length pre) = length (pre ++ [c])).
    { rewrite length_app. cbn. lia. }
    assert (Hgh : g ++ f :: h = (g ++ [f]) ++ h) by by rewrite <- app_assoc.
    destruct f; cbn [negb].
    + cbn [matched_chars] in Hle |- *.
      destruct (matched_chars (drop k m2) (drop k b)) as [|d B] eqn:HB.
      { cbn in Hle. lia. }
      destruct (next_matched_spec m2 b k d B Hm2 HB) as (k' & Hnext & Hb & HB').
      rewrite Hnext. cbn [mbind result_bind].
      rewrite lookup_app_r by done. rewrite Nat.sub_diag.
      cbn [lookup list_lookup]. rewrite Hb.
      rewrite Hpre, Hgh, Hlen.
      destruct (IH (pre ++ [c]) (g ++ [true]) h (k' + 1)
                  (if bool_decide (Some c = Some d) then t0 else S t0))
        as (k'' & Hfold).
      { rewrite !length_app. cbn. lia. }
      { done. }
      { done. }
      { rewrite Nat.add_1_r, HB'. cbn in Hle. lia. }
      exists k''. rewrite Hfold. f_equal. f_equal.
      rewrite Nat.add_1_r, HB'. cbn [misaligned].
      destruct (decide (c = d)) as [->|Hne].
      * rewrite bool_decide_eq_true_2 by done. lia.
      * rewrite bool_decide_eq_false_2 by congruence. lia.
    + cbn [matched_chars] in Hle |- *.
      rewrite Hpre, Hgh, Hlen.
      apply (IH (pre ++ [c]) (g ++ [false]) h k t0); try done.
      rewrite !length_app. cbn. lia.
Qed.

Lemma count_transpositions_spec (a b : list ascii) (m1 m2 : list bool) :
  length m1 = length a -> length m2 = length b ->
  length (matched_chars m1 a) <= length (matched_chars m2 b) ->
  count_transpositions a b m1 m2
  = Ok (misaligned (matched_chars m1 a) (matched_chars m2 b)).
Proof.
  intros H1 H2 Hle. unfold count_transpositions.
  destruct (transposition_fold_spec [] a b [] m1 m2 0 0) as (k' & Hfold);
    [done..|].
  cbn [app length] in Hfold. rewrite Hfold. done.
Qed.

(** The source function computes the Jaro similarity of the
    specification, and never raises. *)
Lemma _jaro_similarity_refines (s1 s2 : string) :
  _jaro_similarity s1 s2 = Ok (jaro_spec s1 s2).
Proof.
  unfold _jaro_similarity, jaro_spec.
  destruct (chars s1) as [|c1 a] eqn:Ha; destruct (chars s2) as [|c2 b] eqn:Hb;
    try done.
  set (x := c1 :: a). set (y := c2 :: b).
  rewrite !bool_decide_eq_false_2 by done. cbn [andb orb].
  fold (jaro_window (length x) (length y)).
  destruct (jaro_matching (jaro_window (length x) (length y)) y 0 x
              (replicate (length y) false)) as [m1 m2] eqn:Hm.
  rewrite (identify_matches_spec x y _ m1 m2 Hm).
  case_bool_decide; [done|].
  pose proof (jaro_matching_length _ _ _ _ _ _ _ Hm) as [Hl1 Hl2].
  rewrite length_replicate in Hl2.
  pose proof (jaro_matching_count _ y 0 x (replicate (length y) false) m1 m2
                (length_replicate _ _) Hm) as Hcount.
  rewrite matched_chars_replicate_false in Hcount. cbn in Hcount.
  rewrite count_transpositions_spec by (try done; lia).
  done.
Qed.

(** ** The fuzzy matcher *)

Lemma py_max_3 (x y z : Qc) :
  let m := py_max x [y; z] in
  (m = x \/ m = y \/ m = z) /\ (x <= m)%Qc /\ (y <= m)%Qc /\ (z <= m)%Qc.
Proof.
  unfold py_max. cbn.
  destruct (decide (x < y)%Qc) as [Hxy|Hxy].
  - destruct (decide (y < z)%Qc) as [Hyz|Hyz].
    + split; [auto|]. split; [|split].
      * apply Qclt_le_weak. by eapply Qclt_trans.
      * by apply Qclt_le_weak.
      * apply Qcle_refl.
    + split; [auto|]. split; [|split].
      * by apply Qclt_le_weak.
      * apply Qcle_refl.
      * by apply Qcnot_lt_le.
  - destruct (decide (x < z)%Qc) as [Hxz|Hxz].
    + split; [auto|]. split; [|split].
      * by apply Qclt_le_weak.
      * eapply Qcle_trans; [by apply Qcnot_lt_le|by apply Qclt_le_weak].
      * apply Qcle_refl.
    + split; [auto|]. split; [|split].
      * apply Qcle_refl.
      * by apply Qcnot_lt_le.
      * by apply Qcnot_lt_le.
Qed.

Lemma insert_desc_Permutation {A} (key : A -> Qc) x l :
  insert_desc key x l ≡ₚ x :: l.
Proof.
  induction l as [|y l IH]; [done|]. cbn.
  destruct (decide _); [done|]. rewrite IH. apply Permutation_swap.
Qed.

Lemma insert_desc_sorted {A} (key : A -> Qc) x l :
  StronglySorted (key_desc key) l ->
  StronglySorted (key_desc key) (insert_desc key x l).
Proof.
  induction 1 as [|y l Hs IH Hall]; cbn.
  - repeat constructor.
  - destruct (decide (key y <= key x)%Qc) as [Hle|Hnle].
    + constructor; [by constructor|]. constructor; [done|].
      eapply Forall_impl; [exact Hall|]. intros z Hz.
      unfold key_desc in *. by eapply Qcle_trans.
    + constructor; [done|].
      rewrite insert_desc_Permutation. constructor; [|done].
      unfold key_desc. apply Qclt_le_weak. by apply Qcnot_le_lt.
Qed.

Lemma sort_desc_Permutation {A} (key : A -> Qc) l : sort_desc key l ≡ₚ l.
Proof.
  induction l as [|x l IH]; [done|]. cbn.
  by rewrite insert_desc_Permutation, IH.
Qed.

Lemma sort_desc_sorted {A} (key : A -> Qc) l :
  StronglySorted (key_desc key) (sort_desc key l).
Proof.
  induction l as [|x l IH]; cbn; [constructor|].
  by apply insert_desc_sorted.
Qed.

Lemma StronglySorted_take {A} (R : relation A) n (l : list A) :
  StronglySorted R l -> StronglySorted R (take n l).
Proof.
  intros Hs. rewrite <- (take_drop n l) in Hs.
  by apply StronglySorted_app_1_l in Hs.
Qed.

Section FuzzyLemmas.
Variable ratio : string -> string -> Qc.
Variable threshold : Qc.

Lemma fuzzy_fold_spec query_term (all_terms corpus_terms : list string)
  (acc : list FuzzyMatch) :
  corpus_terms ⊆ all_terms ->
  Forall (fuzzy_match_ok ratio threshold query_term all_terms) acc ->
  exists matches,
    foldl (fuzzy_step ratio threshold query_term (lower query_term)) (Ok acc)
          corpus_terms = Ok matches
    /\ Forall (fuzzy_match_ok ratio threshold query_term all_terms) matches.
Proof.
  revert acc. induction corpus_terms as [|term corpus_terms IH];
    intros acc Hsub Hacc.
  - by exists acc.
  - cbn [foldl]. unfold fuzzy_step at 2. cbn [mbind result_bind].
    assert (Hsub' : corpus_terms ⊆ all_terms) by set_solver.
    case_bool_decide as Heq; [by apply IH|].
    rewrite _jaro_similarity_refines. cbn [mbind result_bind].
    destruct (decide _) as [Hthr|Hthr]; [|by apply IH].
    apply IH; [done|]. apply Forall_app. split; [done|].
    constructor; [|done]. unfold fuzzy_match_ok. cbn.
    split; [done|]. split; [set_solver|]. split; [|done].
    intros Hx. apply Heq. symmetry. exact Hx.
Qed.
End FuzzyLemmas.

(** C7. [_jaro_similarity] returns the standard Jaro value: characters are
    matched within the window [max(0, floor(max(len1, len2) / 2) - 1)]; two
    empty strings give 1 and exactly one empty string gives 0; when no
    character matches the result is 0; otherwise it is
    [(m/len1 + m/len2 + (m - t)/m) / 3], with [m] the number of matched
    characters and [t] the number of transpositions: half the number of
    positions at which the matched characters of the two strings, aligned
    in their original order, differ. Scores are exact rationals. *)
Theorem _jaro_similarity_standard (s1 s2 : string) :
  _jaro_similarity s1 s2 = Ok (jaro_spec s1 s2)
  /\ Z.of_nat (jaro_window (String.length s1) (String.length s2))
     = Z.max 0 (Z.max (Z.of_nat (String.length s1)) (Z.of_nat (String.length s2))
                / 2 - 1)
  /\ _jaro_similarity "" "" = Ok (qz 1)
  /\ (forall c s, _jaro_similarity "" (String c s) = Ok (qz 0)
                  /\ _jaro_similarity (String c s) "" = Ok (qz 0))
  /\ (forall c1 r1 c2 r2,
        let a := chars (String c1 r1) in
        let b := chars (String c2 r2) in
        let w := jaro_window (length a) (length b) in
        let matching := jaro_matching w b 0 a (replicate (length b) false) in
        let m := length (matched_chars matching.1 a) in
        let t := (qn (misaligned (matched_chars matching.1 a)
                                 (matched_chars matching.2 b)) / qz 2)%Qc in
        _jaro_similarity (String c1 r1) (String c2 r2)
        = Ok (if bool_decide (m = 0) then qz 0
              else ((qn m / qn (length a) + qn m / qn (length b)
                     + (qn m - t) / qn m) / qz 3)%Qc)).
Proof.
  split; [apply _jaro_similarity_refines|].
  split.
  { unfold jaro_window.
    rewrite Nat2Z.inj_sub_max, (Nat2Z.inj_div _ 2), Nat2Z.inj_max. done. }
  split; [done|]. split; [done|].
  intros c1 r1 c2 r2 a b w matching m t.
  rewrite _jaro_similarity_refines. f_equal.
  unfold jaro_spec. fold a b. subst a b. cbn [chars String.list_ascii_of_string].
  cbn [chars String.list_ascii_of_string] in *.
  subst t m. fold w. subst matching.
  by destruct (jaro_matching _ _ _ _ _) as [m1 m2].
Qed.

(** Two textbook values: MARTHA/MARHTA is 17/18 and DIXON/DICKSONX 23/30. *)
Example _jaro_similarity_examples :
  _jaro_similarity "martha" "marhta" = Ok (qc 17 18)
  /\ _jaro_similarity "dixon" "dicksonx" = Ok (qc 23 30)
  /\ _jaro_similarity "abc" "xyz" = Ok (qz 0).
Proof.
  repeat split; by vm_compute.
Qed.

(** C6. Every match returned by [find_fuzzy_matches] carries a corpus term
    that differs from the query term after lower-casing; its similarity is
    the greatest of the three metrics (sequence-alignment ratio, Jaro
    similarity, normalized edit-distance similarity) of the lower-cased
    pair and is at least the threshold; the returned list is sorted by
    decreasing similarity and holds at most [max_results] matches. The
    call never raises. *)
Theorem find_fuzzy_matches_sound (ratio : string -> string -> Qc)
  (similarity_threshold : Qc) (query_term : string)
  (corpus_terms : list string) (max_results : nat) :
  exists matches,
    find_fuzzy_matches ratio similarity_threshold query_term corpus_terms
      max_results = Ok matches
    /\ length matches <= max_results
    /\ StronglySorted (fun m m' => (similarity m' <= similarity m)%Qc) matches
    /\ Forall
         (fun m =>
            let query_lower := lower query_term in
            let term_lower := lower (matched_term m) in
            term_lower <> query_lower
            /\ matched_term m ∈ corpus_terms
            /\ exists jaro,
                 _jaro_similarity query_lower term_lower = Ok jaro
                 /\ (similarity m = ratio query_lower term_lower
                     \/ similarity m = jaro
                     \/ similarity m
                        = _levenshtein_similarity query_lower term_lower)
                 /\ (ratio query_lower term_lower <= similarity m)%Qc
                 /\ (jaro <= similarity m)%Qc
                 /\ (_levenshtein_similarity query_lower term_lower
                     <= similarity m)%Qc
                 /\ (similarity_threshold <= similarity m)%Qc)
         matches.
Proof.
  unfold find_fuzzy_matches.
  destruct (fuzzy_fold_spec ratio similarity_threshold query_term
              corpus_terms corpus_terms [] ltac:(done) ltac:(constructor))
    as (found & -> & Hfound).
  cbn [mbind result_bind]. eexists. split; [done|].
  split; [rewrite length_take; lia|].
  split; [apply StronglySorted_take, sort_desc_sorted|].
  apply Forall_forall. intros m Hm.
  apply subseteq_take in Hm. rewrite sort_desc_Permutation in Hm.
  eapply Forall_forall in Hfound; [|exact Hm].
  destruct Hfound as (_ & Hin & Hne & Hsim & Hthr).
  cbn zeta. split; [done|]. split; [done|].
  exists (jaro_spec (lower query_term) (lower (matched_term m))).
  split; [apply _jaro_similarity_refines|].
  pose proof (py_max_3 (ratio (lower query_term) (lower (matched_term m)))
                (jaro_spec (lower query_term) (lower (matched_term m)))
                (_levenshtein_similarity (lower query_term)
                   (lower (matched_term m)))) as Hmax.
  cbn zeta in Hmax. rewrite <- Hsim in Hmax.
  destruct Hmax as (Hone & H1 & H2 & H3). done.
Qed.

(** The test suite's corpus: only "bluetooth" is close enough to the
    misspelt query (Jaro 26/27); a term equal to the query up to case is
    skipped. *)
Example find_fuzzy_matches_example :
  (fun r => match r with
            | Ok l => Some ((fun m => (matched_term m, similarity m)) <$> l)
            | Raise _ => None
            end)
    (find_fuzzy_matches (fun _ _ => qz 0) (qc 6 10) "bluetoth"
       ["bluetooth"; "car"; "house"; "Bluetoth"] 10)
  = Some [("bluetooth", qc 26 27)].
Proof. by vm_compute. Qed.

(** ** What a search changes in the product records *)

Lemma same_fields_refl p : same_fields p p.
Proof. by split. Qed.

Lemma same_fields_trans p1 p2 p3 :
  same_fields p1 p2 -> same_fields p2 p3 -> same_fields p1 p3.
Proof.
  intros [H1 H1'] [H2 H2']. split.
  - intros key Hkey. by rewrite H2, H1.
  - intros key Hkey. by apply H2', H1'.
Qed.

Lemma same_fields_insert p key v :
  key ∈ annotation_keys -> same_fields p (<[key := v]> p).
Proof.
  intros Hkey. split.
  - intros k Hk. rewrite lookup_insert_ne; [done|]. by intros ->.
  - intros k Hk. destruct (decide (key = k)) as [->|Hne].
    + rewrite lookup_insert_eq. by eexists.
    + by rewrite lookup_insert_ne.
Qed.

Lemma same_documents_refl ps : same_documents ps ps.
Proof. apply Forall2_same_length_lookup. split; [done|].
  intros i p p' Hp Hp'. assert (p = p') as -> by congruence.
  apply same_fields_refl.
Qed.

Lemma same_documents_trans ps1 ps2 ps3 :
  same_documents ps1 ps2 -> same_documents ps2 ps3 -> same_documents ps1 ps3.
Proof.
  unfold same_documents. intros H12 H23.
  revert ps3 H23. induction H12 as [|p1 p2 ps1 ps2 Hp H12 IH]; intros ps3 H23.
  - by inversion H23.
  - inversion H23 as [|? p3 ? ps3' Hp' H23']; subst.
    constructor; [by eapply same_fields_trans|by apply IH].
Qed.

Lemma same_documents_set_field ps i key v :
  key ∈ annotation_keys ->
  same_documents ps (alter (fun p => <[key := v]> p) i ps).
Proof.
  intros Hkey. unfold same_documents.
  revert i. induction ps as [|p ps IH]; intros i; [constructor|].
  destruct i as [|i]; cbn.
  - constructor; [by apply same_fields_insert|apply same_documents_refl].
  - constructor; [apply same_fields_refl|apply IH].
Qed.

Lemma frames_refl e : frames e e.
Proof. split; [apply same_documents_refl|done]. Qed.

Lemma frames_trans e1 e2 e3 : frames e1 e2 -> frames e2 e3 -> frames e1 e3.
Proof.
  intros (H1 & H1' & H1'') (H2 & H2' & H2'').
  split; [by eapply same_documents_trans|]. split; congruence.
Qed.

Lemma framed_eret {A} (a : A) : framed (eret a).
Proof. intros e. apply frames_refl. Qed.

Lemma framed_eraise {A} (x : exn) : framed (@eraise A x).
Proof. intros e. apply frames_refl. Qed.

Lemma framed_elift {A} (r : result A) : framed (elift r).
Proof. intros e. apply frames_refl. Qed.

Lemma framed_eread : framed eread.
Proof. intros e. apply frames_refl. Qed.

Lemma framed_ebind {A B} (m : Eff A) (k : A -> Eff B) :
  framed m -> (forall a, framed (k a)) -> framed (ebind m k).
Proof.
  intros Hm Hk e. unfold ebind. specialize (Hm e).
  destruct (m e) as [e' [a|x]]; [|done].
  eapply frames_trans; [exact Hm|apply Hk].
Qed.

Lemma framed_etry {A} (m : Eff A) (handler : exn -> Eff A) :
  framed m -> (forall x, framed (handler x)) -> framed (etry m handler).
Proof.
  intros Hm Hh e. unfold etry. specialize (Hm e).
  destruct (m e) as [e' [a|x]]; [done|].
  eapply frames_trans; [exact Hm|apply Hh].
Qed.

Lemma framed_efold {A B} (body : B -> A -> Eff B) (acc : B) (xs : list A) :
  (forall acc x, framed (body acc x)) -> framed (efold body acc xs).
Proof.
  intros Hbody. revert acc. induction xs as [|x xs IH]; intros acc; cbn.
  - apply framed_eret.
  - apply framed_ebind; [apply Hbody|]. intros acc'. apply IH.
Qed.

Lemma framed_set_field i key v :
  key ∈ annotation_keys -> framed (set_field i key v).
Proof.
  intros Hkey e. unfold set_field. cbn.
  split; [by apply same_documents_set_field|done].
Qed.

Lemma framed_cache_get sc key : framed (cache_get sc key).
Proof.
  intros e. unfold cache_get. destruct (get _ _ _ _) as [c r]. cbn.
  split; [apply same_documents_refl|done].
Qed.

Lemma framed_cache_put sc key results : framed (cache_put sc key results).
Proof.
  intros e. unfold cache_put. destruct (put _ _ _ _) as [c r]. cbn.
  split; [apply same_documents_refl|done].
Qed.

Lemma annotation_key_elem key :
  bool_decide (key ∈ annotation_keys) = true -> key ∈ annotation_keys.
Proof. apply bool_decide_eq_true_1. Qed.

Ltac framed_step :=
  match goal with
  | |- framed (ebind _ _) => apply framed_ebind; [|intros ?]
  | |- framed (etry _ _) => apply framed_etry; [|intros ?]
  | |- framed (efold _ _ _) => apply framed_efold; intros ? ?
  | |- framed (eret _) => apply framed_eret
  | |- framed (eraise _) => apply framed_eraise
  | |- framed (elift _) => apply framed_elift
  | |- framed eread => apply framed_eread
  | |- framed (set_field _ _ _) =>
      apply framed_set_field, annotation_key_elem; reflexivity
  | |- framed (cache_get _ _) => apply framed_cache_get
  | |- framed (cache_put _ _ _) => apply framed_cache_put
  | |- framed (fun e => (e, _)) => intros ?; apply frames_refl
  | |- framed (match ?x with _ => _ end) => destruct x
  | |- framed (if ?b then _ else _) => destruct b
  | |- framed (let '(_, _) := ?x in _) => destruct x
  end.

Lemma framed_SpaceStone_search sc query : framed (SpaceStone_search sc query).
Proof.
  unfold SpaceStone_search. framed_step; [framed_step|].
  destruct (foldl _ _ _) as [[product_scores fields] shard_hits].
  framed_step; [|framed_step].
  framed_step. unfold space_result. destruct x as [product_id score].
  repeat framed_step.
Qed.

Lemma framed_MindStone_search sc query : framed (MindStone_search sc query).
Proof.
  unfold MindStone_search. framed_step; [apply framed_SpaceStone_search|].
  framed_step; [|framed_step].
  unfold _enhance_ux_features. framed_step; [|framed_step].
  framed_step. unfold enhance_result. repeat framed_step.
Qed.

Lemma framed_RealityStone_search sc query : framed (RealityStone_search sc query).
Proof.
  unfold RealityStone_search. framed_step; [apply framed_SpaceStone_search|].
  repeat framed_step.
Qed.

Lemma framed_PowerStone_search sc query : framed (PowerStone_search sc query).
Proof.
  unfold PowerStone_search. framed_step; [framed_step|].
  framed_step; [framed_step|].
  framed_step.
  { unfold _distributed_search. framed_step.
    framed_step; [framed_step|]. framed_step; [|framed_step].
    framed_step. unfold process_product. repeat framed_step. }
  framed_step.
  { unfold _optimize_performance. repeat framed_step. }
  framed_step; [|framed_step].
  intros e. cbn. split; [apply same_documents_refl|done].
Qed.

Lemma framed_TimeStone_search sc query : framed (TimeStone_search sc query).
Proof. unfold TimeStone_search. repeat framed_step. Qed.

Lemma framed_SoulStone_search sc query : framed (SoulStone_search sc query).
Proof.
  unfold SoulStone_search. framed_step; [apply framed_SpaceStone_search|].
  repeat framed_step.
Qed.

Lemma framed_stone_search sc stone_type query :
  framed (stone_search sc stone_type query).
Proof.
  destruct stone_type; cbn.
  - apply framed_SpaceStone_search.
  - apply framed_MindStone_search.
  - apply framed_RealityStone_search.
  - apply framed_PowerStone_search.
  - apply framed_TimeStone_search.
  - apply framed_SoulStone_search.
Qed.

Lemma framed_ranked_search sc cleaned_query query stone_preference :
  framed (ranked_search sc cleaned_query query stone_preference).
Proof.
  unfold ranked_search. framed_step; [framed_step|].
  framed_step; [framed_step|].
  framed_step.
  { unfold search_stones. framed_step. framed_step; [|framed_step].
    framed_step; [|framed_step]. framed_step; [|framed_step].
    apply framed_stone_search. }
  repeat framed_step.
Qed.

Lemma framed_search sc query stone_preference :
  framed (search sc query stone_preference).
Proof.
  unfold search, handle_errors. framed_step.
  - unfold search_body. framed_step; [|framed_step].
    framed_step; [framed_step|]. framed_step; [framed_step|].
    apply framed_ranked_search.
  - repeat framed_step.
Qed.

(** C8, as amended: a search keeps the records of the Document Store in
    place and removes no field of any record; every field that is not one
    of the annotations [_shard_id], [_shard_hits], [_highlighted],
    [_snippet], [_facets], [_processing_time], [_power_optimized],
    [_query_processed] holds after the search what it held before. (The
    stages write those annotations into the stored records of the
    documents they return.) *)
Theorem search_keeps_documents (sc : Scoring) (query : string)
  (stone_preference : option StoneType) (e : Engine) :
  let e' := (search sc query stone_preference e).1 in
  length (products e') = length (products e)
  /\ forall i p,
       products e !! i = Some p ->
       exists p',
         products e' !! i = Some p'
         /\ (forall key, key ∉ annotation_keys -> p' !! key = p !! key)
         /\ (forall key, is_Some (p !! key) -> is_Some (p' !! key)).
Proof.
  intros e'. destruct (framed_search sc query stone_preference e) as [Hdocs _].
  fold e' in Hdocs. unfold same_documents in Hdocs. split.
  - symmetry. by eapply Forall2_length.
  - intros i p Hp.
    destruct (Forall2_lookup_l _ _ _ _ _ Hdocs Hp) as (p' & Hp' & H1 & H2).
    by exists p'.
Qed.

(** C8 as stated fails: the search for "bluetooth" in a store that holds
    one speaker adds the field [_shard_id] (and others) to the stored
    record; the Space Stone alone adds [_shard_id] and [_shard_hits]. *)
Lemma search_writes_annotations_counterexample :
  let e := engine_of [speaker] in
  let e' := (search unit_scoring "bluetooth" None e).1 in
  products e !! 0 = Some speaker
  /\ speaker !! "_shard_id" = None
  /\ (products e' !! 0) ≫= (fun p => p !! "_shard_id") = Some (VInt 0)
  /\ products (SpaceStone_search unit_scoring "bluetooth" e).1
     = [ <["_shard_hits" := VInt 1]> (<["_shard_id" := VInt 0]> speaker) ].
Proof. repeat split; by vm_compute. Qed.

(** ** The entry point [search] *)

Lemma SpaceStone_search_annotates (sc : Scoring) :
  products (SpaceStone_search sc "bluetooth" (engine_of [speaker])).1
  = [ <["_shard_hits" := VInt 1]> (<["_shard_id" := VInt 0]> speaker) ].
Proof. by vm_compute. Qed.

Lemma str_take_all n s : String.length s <= n -> str_take n s = s.
Proof.
  revert n. induction s as [|c s IH]; intros n Hn; [by destruct n|].
  destruct n as [|n]; cbn in *; [lia|]. rewrite IH; [done|lia].
Qed.

Lemma length_zero_empty s : String.length s = 0 <-> s = "".
Proof. destruct s; cbn; split; intros; done. Qed.

Lemma validate_query_empty query :
  strip query = "" ->
  exists msg, validate_query query = Raise (ValidationError msg).
Proof.
  intros Hs. unfold validate_query. case_bool_decide; [by eexists|].
  rewrite bool_decide_eq_true_2; [by eexists|]. by apply length_zero_empty.
Qed.

Lemma validate_query_valid query :
  strip query <> "" ->
  validate_query query
  = Ok (str_filter (fun c => negb (is_dangerous c)) (str_take 500 (strip query))).
Proof.
  intros Hs. unfold validate_query.
  rewrite bool_decide_eq_false_2 by (intros ->; by apply Hs).
  rewrite bool_decide_eq_false_2 by (by rewrite length_zero_empty).
  case_bool_decide as Hlen; [done|]. rewrite str_take_all; [done|lia].
Qed.

(** ** The boolean query parser *)

Lemma parse_fuel_enough_aux (tokens : list string) (n : nat) :
  forall pos fuel, length tokens - pos <= n ->
    (6 * n + 1 <= fuel ->
       parsed_from true pos (_parse_primary_expression fuel tokens pos))
    /\ (6 * n + 2 <= fuel ->
       parsed_from true pos (_parse_not_expression fuel tokens pos))
    /\ (6 * n + 1 <= fuel -> forall lhs,
       parsed_from false pos (_and_loop fuel tokens lhs pos))
    /\ (6 * n + 3 <= fuel ->
       parsed_from true pos (_parse_and_expression fuel tokens pos))
    /\ (6 * n + 1 <= fuel -> forall lhs,
       parsed_from false pos (_or_loop fuel tokens lhs pos))
    /\ (6 * n + 4 <= fuel ->
       parsed_from true pos (_parse_or_expression fuel tokens pos)).
Proof.
  induction n as [|n IH]; intros pos fuel Hrem.
  - assert (Hnone : tokens !! pos = None) by (apply lookup_ge_None; lia).
    assert (Hprim : forall f, 1 <= f ->
              parsed_from true pos (_parse_primary_expression f tokens pos)).
    { intros [|f] Hf; [lia|]. cbn. by rewrite Hnone. }
    assert (Hnot : forall f, 2 <= f ->
              parsed_from true pos (_parse_not_expression f tokens pos)).
    { intros [|f] Hf; [lia|]. cbn. rewrite Hnone.
      rewrite bool_decide_eq_false_2 by done. apply Hprim. lia. }
    assert (Hal : forall f, 1 <= f -> forall lhs,
              parsed_from false pos (_and_loop f tokens lhs pos)).
    { intros [|f] Hf lhs; [lia|]. cbn. rewrite Hnone.
      rewrite bool_decide_eq_false_2 by done. cbn. lia. }
    assert (Hand : forall f, 3 <= f ->
              parsed_from true pos (_parse_and_expression f tokens pos)).
    { intros [|f] Hf; [lia|]. cbn.
      pose proof (Hnot f ltac:(lia)) as H.
      destruct (_parse_not_expression f tokens pos) as [[lhs p]|x]; [|done].
      cbn in *. assert (tokens !! p = None) as Hp by (apply lookup_ge_None; lia).
      destruct f as [|f]; [lia|]. cbn. rewrite Hp.
      rewrite bool_decide_eq_false_2 by done. cbn. lia. }
    assert (Hol : forall f, 1 <= f -> forall lhs,
              parsed_from false pos (_or_loop f tokens lhs pos)).
    { intros [|f] Hf lhs; [lia|]. cbn. rewrite Hnone.
      rewrite bool_decide_eq_false_2 by done. cbn. lia. }
    repeat split; try (intros; first [by apply Hprim | by apply Hnot
                                      | by apply Hal | by apply Hand
                                      | by apply Hol]).
    intros Hf. destruct fuel as [|f]; [lia|]. cbn.
    pose proof (Hand f ltac:(lia)) as H.
    destruct (_parse_and_expression f tokens pos) as [[lhs p]|x]; [|done].
    cbn in *. assert (tokens !! p = None) as Hp by (apply lookup_ge_None; lia).
    destruct f as [|f]; [lia|]. cbn. rewrite Hp.
    rewrite bool_decide_eq_false_2 by done. cbn. lia.
  - (* the six facts for at most [S n] remaining tokens *)
    assert (Hprim : forall p f, length tokens - p <= S n -> 6 * S n + 1 <= f ->
              parsed_from true p (_parse_primary_expression f tokens p)).
    { intros p [|f] Hp Hf; [lia|]. cbn.
      destruct (tokens !! p) as [tok|] eqn:Htok; [|done].
      case_bool_decide.
      - destruct (IH (p + 1) f ltac:(lia)) as (_ & _ & _ & _ & _ & Hor).
        specialize (Hor ltac:(lia)).
        destruct (_parse_or_expression f tokens (p + 1)) as [[ex p']|x];
          [|done].
        cbn in *. case_bool_decide; cbn; [lia|done].
      - destruct (negb (is_operator tok)); cbn; [lia|done]. }
    assert (Hnot : forall p f, length tokens - p <= S n -> 6 * S n + 2 <= f ->
              parsed_from true p (_parse_not_expression f tokens p)).
    { intros p [|f] Hp Hf; [lia|]. cbn. case_bool_decide.
      - destruct (IH (p + 1) f ltac:(lia)) as (Hpr & _).
        specialize (Hpr ltac:(lia)).
        destruct (_parse_primary_expression f tokens (p + 1)) as [[ex p']|x];
          [|done].
        cbn in *. lia.
      - apply Hprim; lia. }
    assert (Hal : forall p f, length tokens - p <= S n -> 6 * S n + 1 <= f ->
              forall lhs, parsed_from false p (_and_loop f tokens lhs p)).
    { intros p [|f] Hp Hf lhs; [lia|]. cbn. case_bool_decide; [|cbn; lia].
      destruct (IH (p + 1) f ltac:(lia)) as (_ & Hn & _).
      specialize (Hn ltac:(lia)).
      destruct (_parse_not_expression f tokens (p + 1)) as [[rhs p']|x];
        [|done].
      cbn in *.
      destruct (IH p' f ltac:(lia)) as (_ & _ & Hl & _).
      specialize (Hl ltac:(lia) (And lhs rhs)).
      destruct (_and_loop f tokens (And lhs rhs) p') as [[ex p'']|x]; [|done].
      cbn in *. lia. }
    assert (Hand : forall p f, length tokens - p <= S n -> 6 * S n + 3 <= f ->
              parsed_from true p (_parse_and_expression f tokens p)).
    { intros p [|f] Hp Hf; [lia|]. cbn.
      pose proof (Hnot p f Hp ltac:(lia)) as Hn.
      destruct (_parse_not_expression f tokens p) as [[lhs p']|x]; [|done].
      cbn in *.
      destruct (IH p' f ltac:(lia)) as (_ & _ & Hl & _).
      specialize (Hl ltac:(lia) lhs).
      destruct (_and_loop f tokens lhs p') as [[ex p'']|x]; [|done].
      cbn in *. lia. }
    assert (Hol : forall p f, length tokens - p <= S n -> 6 * S n + 1 <= f ->
              forall lhs, parsed_from false p (_or_loop f tokens lhs p)).
    { intros p [|f] Hp Hf lhs; [lia|]. cbn. case_bool_decide; [|cbn; lia].
      destruct (IH (p + 1) f ltac:(lia)) as (_ & _ & _ & Ha & _).
      specialize (Ha ltac:(lia)).
      destruct (_parse_and_expression f tokens (p + 1)) as [[rhs p']|x];
        [|done].
      cbn in *.
      destruct (IH p' f ltac:(lia)) as (_ & _ & _ & _ & Hl & _).
      specialize (Hl ltac:(lia) (Or lhs rhs)).
      destruct (_or_loop f tokens (Or lhs rhs) p') as [[ex p'']|x]; [|done].
      cbn in *. lia. }
    repeat split; try (intros; first [by apply Hprim | by apply Hnot
                                      | by apply Hal | by apply Hand
                                      | by apply Hol]).
    intros Hf. destruct fuel as [|f]; [lia|]. cbn.
    pose proof (Hand pos f Hrem ltac:(lia)) as Ha.
    destruct (_parse_and_expression f tokens pos) as [[lhs p']|x]; [|done].
    cbn in *.
    destruct (IH p' f ltac:(lia)) as (_ & _ & _ & _ & Hl & _).
    specialize (Hl ltac:(lia) lhs).
    destruct (_or_loop f tokens lhs p') as [[ex p'']|x]; [|done].
    cbn in *. lia.
Qed.

(** The fuel of [_parse_expression] is never exhausted: a query is
    rejected only by one of the parser's own [ValueError]s. *)
Lemma parse_fuel_enough (tokens : list string) :
  match _parse_expression tokens with
  | Ok _ | Raise (ValueError _) => True
  | Raise _ => False
  end.
Proof.
  unfold _parse_expression. destruct tokens as [|tok tokens]; [done|].
  set (ts := tok :: tokens).
  destruct (parse_fuel_enough_aux ts (length ts) 0 (parse_fuel ts) ltac:(lia))
    as (_ & _ & _ & _ & _ & Hor).
  specialize (Hor ltac:(unfold parse_fuel; lia)).
  by destruct (_parse_or_expression (parse_fuel ts) ts 0) as [[ex p]|[]].
Qed.

(** C5. The parser does not reject trailing tokens: [_parse_expression]
    drops the position returned by [_parse_or_expression], so the tokens
    after the first complete expression are ignored and the parse succeeds.
    The docstring's own example [camera NOT digital] is parsed as the
    single term [camera], and the boolean search then returns the digital
    camera too. The unbalanced query of the specification is rejected,
    and [search_boolean] falls back to [search] on its space-joined raw
    split. *)
Theorem parse_boolean_query_drops_trailing_tokens :
  parse_boolean_query "camera NOT digital"
  = ParseSuccess (Term "camera") "camera NOT digital"
      ["camera"; "NOT"; "digital"]
  /\ parse_boolean_query "phone tablet"
     = ParseSuccess (Term "phone") "phone tablet" ["phone"; "tablet"]
  /\ parse_boolean_query "speaker )"
     = ParseSuccess (Term "speaker") "speaker )" ["speaker"; ")"]
  /\ (forall sc stone_preference,
        (search_boolean sc "camera NOT digital" stone_preference
           (engine_of cameras)).2
        = Ok [ mkSearchResult "1" 0 (qz 1) [(MIND, qz 1)] ["boolean_search"];
               mkSearchResult "2" 1 (qz 1) [(MIND, qz 1)] ["boolean_search"] ])
  /\ parse_boolean_query "bluetooth AND (headphone OR speaker"
     = ParseFailure (ValueError "Missing closing parenthesis")
         ["bluetooth"; "AND"; "(headphone"; "OR"; "speaker"]
  /\ (forall sc stone_preference e,
        search_boolean sc "bluetooth AND (headphone OR speaker"
          stone_preference e
        = etry (search sc "bluetooth AND (headphone OR speaker" stone_preference)
               (fun _ => search sc "bluetooth AND (headphone OR speaker"
                           stone_preference) e).
Proof.
  split; [by vm_compute|]. split; [by vm_compute|]. split; [by vm_compute|].
  split; [intros sc stone_preference; by vm_compute|].
  split; [by vm_compute|].
  intros sc stone_preference e. unfold search_boolean.
  replace (parse_boolean_query "bluetooth AND (headphone OR speaker")
    with (ParseFailure (ValueError "Missing closing parenthesis")
            ["bluetooth"; "AND"; "(headphone"; "OR"; "speaker"])
    by (by vm_compute).
  done.
Qed.

(** ** Facts about lists *)

Lemma NoDup_fmap_elem_inj {A B} (f : A -> B) (l : list A) x y :
  NoDup (f <$> l) -> x ∈ l -> y ∈ l -> f x = f y -> x = y.
Proof.
  induction l as [|a l IH]; intros Hnd Hx Hy Hf; [by apply elem_of_nil in Hx|].
  rewrite fmap_cons in Hnd. apply NoDup_cons in Hnd as [Ha Hnd].
  apply elem_of_cons in Hx as [->|Hx]; apply elem_of_cons in Hy as [->|Hy].
  - done.
  - exfalso. apply Ha. rewrite Hf. by apply list_elem_of_fmap_2.
  - exfalso. apply Ha. rewrite <- Hf. by apply list_elem_of_fmap_2.
  - by apply IH.
Qed.

Lemma omap_ext_elem {A B} (f g : A -> option B) (l : list A) :
  (forall x, x ∈ l -> f x = g x) -> omap f l = omap g l.
Proof.
  induction l as [|a l IH]; intros H; [done|]. cbn.
  rewrite (H a) by (apply elem_of_cons; by left).
  rewrite IH; [done|]. intros x Hx. apply H. apply elem_of_cons; by right.
Qed.

Lemma filter_all {A} (P : A -> Prop) `{!forall x, Decision (P x)} (l : list A) :
  (forall x, x ∈ l -> P x) -> filter P l = l.
Proof.
  induction l as [|a l IH]; intros Hall; [done|].
  rewrite filter_cons, decide_True by (apply Hall, elem_of_cons; by left).
  f_equal. apply IH. intros x Hx. apply Hall, elem_of_cons. by right.
Qed.

Lemma filter_ext_elem {A} (P Q : A -> Prop) `{!forall x, Decision (P x)}
  `{!forall x, Decision (Q x)} (l : list A) :
  (forall x, x ∈ l -> P x <-> Q x) -> filter P l = filter Q l.
Proof.
  induction l as [|a l IH]; intros Hall; [done|].
  rewrite !filter_cons.
  assert (P a <-> Q a) as Ha by (apply Hall, elem_of_cons; by left).
  rewrite IH by (intros x Hx; apply Hall, elem_of_cons; by right).
  destruct (decide (P a)), (decide (Q a)); tauto.
Qed.

Lemma filter_length_split {A} (P : A -> Prop) `{!forall x, Decision (P x)}
  (l : list A) :
  length (filter P l) + length (filter (fun x => ¬ P x) l) = length l.
Proof.
  induction l as [|a l IH]; [done|]. rewrite !filter_cons.
  destruct (decide (P a)); [rewrite decide_False by tauto|rewrite decide_True by done];
    cbn; lia.
Qed.

Lemma StronglySorted_lookup {A} (R : relation A) (l : list A) i j x y :
  StronglySorted R l -> l !! i = Some x -> l !! j = Some y -> i < j -> R x y.
Proof.
  intros Hs. revert i j. induction Hs as [|a l Hs IH Hall]; intros i j Hi Hj Hlt.
  - done.
  - destruct j as [|j]; [lia|]. cbn in Hj. destruct i as [|i]; cbn in Hi.
    + injection Hi as <-. eapply Forall_forall in Hall; [exact Hall|].
      by eapply list_elem_of_lookup_2.
    + eapply IH; [done..|lia].
Qed.

Lemma last_drop {A} (l : list A) (n : nat) :
  n < length l -> last (drop n l) = last l.
Proof.
  revert n. induction l as [|a l IH]; intros n Hn; [cbn in Hn; lia|].
  destruct n as [|n]; [done|]. cbn [drop]. cbn in Hn.
  rewrite IH by lia. destruct l; [cbn in Hn; lia|done].
Qed.

(** ** Scores as rationals *)

Lemma qn_le (a b : nat) : a <= b -> (qn a <= qn b)%Qc.
Proof.
  intros H. unfold qn, qz, qc, Qcle. cbn. rewrite !Qred_correct.
  unfold Qle. cbn. lia.
Qed.

Lemma qn_lt (a b : nat) : a < b -> (qn a < qn b)%Qc.
Proof.
  intros H. unfold qn, qz, qc, Qclt. cbn. rewrite !Qred_correct.
  unfold Qlt. cbn. lia.
Qed.

Lemma qn_0 : qn 0 = 0%Qc.
Proof. by apply Qc_is_canon. Qed.

Lemma qz_0 : qz 0 = 0%Qc.
Proof. by apply Qc_is_canon. Qed.

Lemma qz_1 : qz 1 = 1%Qc.
Proof. by apply Qc_is_canon. Qed.

Lemma Qc_div_mult (x y : Qc) : y <> 0%Qc -> (x / y * y = x)%Qc.
Proof. intros Hy. rewrite Qcmult_comm. by apply Qcmult_div_r. Qed.

Lemma Qc_div_nonneg (x y : Qc) : (0 <= x)%Qc -> (0 < y)%Qc -> (0 <= x / y)%Qc.
Proof.
  intros Hx Hy. apply (Qcmult_lt_0_le_reg_r _ _ y); [done|].
  rewrite Qcmult_0_l, Qc_div_mult; [done|].
  intros ->. by apply Qclt_not_eq in Hy.
Qed.

Lemma Qc_div_le_1 (x y : Qc) : (x <= y)%Qc -> (0 < y)%Qc -> (x / y <= 1)%Qc.
Proof.
  intros Hx Hy. apply (Qcmult_lt_0_le_reg_r _ _ y); [done|].
  rewrite Qcmult_1_l, Qc_div_mult; [done|].
  intros ->. by apply Qclt_not_eq in Hy.
Qed.

(** ** Laws of the boolean evaluation *)

Lemma evaluate_subseteq_all_products (e : QueryExpression)
  (m : gmap string (gset string)) :
  evaluate_boolean_expression e m ⊆ all_products m.
Proof.
  induction e as [term|l IHl r IHr|l IHl r IHr|operand IH|]; cbn.
  - destruct (m !! term) as [ids|] eqn:Hm; cbn; [|set_solver].
    intros x Hx. apply elem_of_all_products. eauto.
  - set_solver.
  - set_solver.
  - set_solver.
  - set_solver.
Qed.

(** X1. Every result of [evaluate_boolean_expression] lies within the
    universe of the negation, the ids that occur in some set of
    [product_matches]; so negating twice gives the result of the operand
    back, an expression and its negation share no id, and together they
    make up the universe. *)
Theorem evaluate_boolean_expression_complement (e : QueryExpression)
  (m : gmap string (gset string)) :
  evaluate_boolean_expression e m ⊆ all_products m
  /\ evaluate_boolean_expression (Not (Not e)) m = evaluate_boolean_expression e m
  /\ evaluate_boolean_expression (And e (Not e)) m = ∅
  /\ evaluate_boolean_expression (Or e (Not e)) m = all_products m.
Proof.
  pose proof (evaluate_subseteq_all_products e m) as Hsub.
  split; [done|]. cbn. repeat split; apply set_eq; intros x; set_unfold.
  - specialize (Hsub x). destruct (decide (x ∈ evaluate_boolean_expression e m)); naive_solver.
  - naive_solver.
  - specialize (Hsub x). destruct (decide (x ∈ evaluate_boolean_expression e m)); naive_solver.
Qed.

(** X2. De Morgan's laws hold for the evaluation: the negation of a
    conjunction is the disjunction of the negations, and the negation of a
    disjunction is the conjunction of the negations. *)
Theorem evaluate_boolean_expression_de_morgan (a b : QueryExpression)
  (m : gmap string (gset string)) :
  evaluate_boolean_expression (Not (And a b)) m
  = evaluate_boolean_expression (Or (Not a) (Not b)) m
  /\ evaluate_boolean_expression (Not (Or a b)) m
     = evaluate_boolean_expression (And (Not a) (Not b)) m.
Proof.
  cbn. split; apply set_eq; intros x; set_unfold.
  - destruct (decide (x ∈ evaluate_boolean_expression a m)); naive_solver.
  - naive_solver.
Qed.

(** ** What the parser returns *)

Lemma parse_outcome_aux (tokens : list string) (fuel : nat) :
  forall pos,
    parse_outcome tokens (_parse_primary_expression fuel tokens pos)
    /\ parse_outcome tokens (_parse_not_expression fuel tokens pos)
    /\ (forall lhs, parse_outcome tokens (Ok (lhs, pos)) ->
          parse_outcome tokens (_and_loop fuel tokens lhs pos))
    /\ parse_outcome tokens (_parse_and_expression fuel tokens pos)
    /\ (forall lhs, parse_outcome tokens (Ok (lhs, pos)) ->
          parse_outcome tokens (_or_loop fuel tokens lhs pos))
    /\ parse_outcome tokens (_parse_or_expression fuel tokens pos).
Proof.
  induction fuel as [|fuel IH]; intros pos.
  { cbn. repeat split; try (intros; by left); by left. }
  assert (Hprim : parse_outcome tokens (_parse_primary_expression (S fuel) tokens pos)).
  { cbn. destruct (tokens !! pos) as [tok|] eqn:Htok; [|right; by left].
    assert (tok ∈ tokens) as Hin by (by eapply list_elem_of_lookup_2).
    case_bool_decide as Hparen.
    - destruct (IH (pos + 1)) as (_ & _ & _ & _ & _ & Hor).
      destruct (_parse_or_expression fuel tokens (pos + 1)) as [[ex p]|x]; [|done].
      cbn in *. case_bool_decide; cbn; [done|]. right. right. by left.
    - destruct (is_operator tok) eqn:Hop; cbn.
      + right. right. right. exists tok. split; [done|].
        split; [by apply bool_decide_eq_true in Hop|done].
      + split; [by apply bool_decide_eq_false in Hop|].
        apply singleton_subseteq_l, elem_of_list_to_set. done. }
  assert (Hnot : parse_outcome tokens (_parse_not_expression (S fuel) tokens pos)).
  { cbn. case_bool_decide.
    - destruct (IH (pos + 1)) as (Hpr & _).
      destruct (_parse_primary_expression fuel tokens (pos + 1)) as [[ex p]|x];
        [|done].
      done.
    - destruct (IH pos) as (Hpr & _). done. }
  assert (Hal : forall lhs, parse_outcome tokens (Ok (lhs, pos)) ->
            parse_outcome tokens (_and_loop (S fuel) tokens lhs pos)).
  { intros lhs Hlhs. cbn. case_bool_decide; [|done].
    destruct (IH (pos + 1)) as (_ & Hn & _).
    destruct (_parse_not_expression fuel tokens (pos + 1)) as [[rhs p]|x]; [|done].
    cbn. destruct (IH p) as (_ & _ & Hl & _). apply Hl.
    cbn in *. split; [tauto|set_solver]. }
  assert (Hand : parse_outcome tokens (_parse_and_expression (S fuel) tokens pos)).
  { cbn. destruct (IH pos) as (_ & Hn & _).
    destruct (_parse_not_expression fuel tokens pos) as [[lhs p]|x]; [|done].
    cbn. destruct (IH p) as (_ & _ & Hl & _). by apply Hl. }
  assert (Hol : forall lhs, parse_outcome tokens (Ok (lhs, pos)) ->
            parse_outcome tokens (_or_loop (S fuel) tokens lhs pos)).
  { intros lhs Hlhs. cbn. case_bool_decide; [|done].
    destruct (IH (pos + 1)) as (_ & _ & _ & Ha & _).
    destruct (_parse_and_expression fuel tokens (pos + 1)) as [[rhs p]|x]; [|done].
    cbn. destruct (IH p) as (_ & _ & _ & _ & Hl & _). apply Hl.
    cbn in *. split; [tauto|set_solver]. }
  split; [exact Hprim|]. split; [exact Hnot|]. split; [exact Hal|].
  split; [exact Hand|]. split; [exact Hol|].
  cbn. destruct (IH pos) as (_ & _ & _ & Ha & _).
  destruct (_parse_and_expression fuel tokens pos) as [[lhs p]|x]; [|done].
  cbn. destruct (IH p) as (_ & _ & _ & _ & Hl & _). by apply Hl.
Qed.

(** X5. The parser always comes to an end (the interpreter's limit on the
    depth of recursion aside). Of a query without tokens it makes the empty
    expression; of any other it makes a tree without empty nodes, each of
    whose terms is a token of the query and no operator, or it raises one
    of three [ValueError]s: the expression ends too early, a closing
    parenthesis is missing, or an operator of the query stands where a term
    is expected. *)
Theorem _parse_expression_outcome (tokens : list string) :
  match _parse_expression tokens with
  | Ok expression =>
      (tokens = [] /\ expression = Empty)
      \/ (tokens <> [] /\ well_formed expression
          /\ forall term, term ∈ _extract_terms_from_expression expression ->
                          term ∈ tokens /\ term ∉ operators)
  | Raise x => parser_error tokens x
  end.
Proof.
  pose proof (parse_fuel_enough tokens) as Hfuel.
  unfold _parse_expression in *. destruct tokens as [|tok tokens]; [by left|].
  set (ts := tok :: tokens) in *.
  destruct (parse_outcome_aux ts (parse_fuel ts) 0) as (_ & _ & _ & _ & _ & Hor).
  destruct (_parse_or_expression (parse_fuel ts) ts 0) as [[ex p]|x]; cbn in *.
  - right. split; [done|]. destruct Hor as [Hwf Hterms]. split; [done|].
    intros term Hterm. split; [set_solver|].
    clear -Hwf Hterm. induction ex; cbn in *; set_solver.
  - destruct Hor as [->|Herr]; [done|done].
Qed.

(** ** Parsing what was written out *)

Lemma lookup_split {A} (T l1 l2 : list A) (x : A) (n : nat) :
  T = l1 ++ x :: l2 -> n = length l1 -> T !! n = Some x.
Proof. intros -> ->. by apply list_lookup_middle. Qed.

Lemma lookup_head {A} (T l1 suf : list A) (n : nat) :
  T = l1 ++ suf -> n = length l1 -> T !! n = head suf.
Proof.
  intros -> ->. rewrite lookup_app_r by lia.
  rewrite Nat.sub_diag. by destruct suf.
Qed.

Section ParserSteps.
Context (tokens : list string) (fuel : nat).

Lemma primary_term pos term :
  tokens !! pos = Some term -> term ∉ operators ->
  _parse_primary_expression (S fuel) tokens pos = Ok (Term term, pos + 1).
Proof.
  intros Htok Hterm. cbn. rewrite Htok.
  rewrite bool_decide_eq_false_2 by (intros ->; apply Hterm; set_solver).
  unfold is_operator. by rewrite bool_decide_eq_false_2.
Qed.

Lemma primary_paren pos expr p :
  tokens !! pos = Some "(" ->
  _parse_or_expression fuel tokens (pos + 1) = Ok (expr, p) ->
  tokens !! p = Some ")" ->
  _parse_primary_expression (S fuel) tokens pos = Ok (expr, p + 1).
Proof.
  intros Htok Hor Hclose. cbn. rewrite Htok. cbn. rewrite Hor. cbn.
  by rewrite !bool_decide_eq_true_2.
Qed.

Lemma not_absent pos :
  tokens !! pos <> Some "NOT" ->
  _parse_not_expression (S fuel) tokens pos
  = _parse_primary_expression fuel tokens pos.
Proof. intros Htok. cbn. by rewrite bool_decide_eq_false_2. Qed.

Lemma not_present pos expr p :
  tokens !! pos = Some "NOT" ->
  _parse_primary_expression fuel tokens (pos + 1) = Ok (expr, p) ->
  _parse_not_expression (S fuel) tokens pos = Ok (Not expr, p).
Proof.
  intros Htok Hpr. cbn. rewrite bool_decide_eq_true_2 by done. by rewrite Hpr.
Qed.

Lemma and_loop_stop pos lhs :
  tokens !! pos <> Some "AND" ->
  _and_loop (S fuel) tokens lhs pos = Ok (lhs, pos).
Proof. intros Htok. cbn. by rewrite bool_decide_eq_false_2. Qed.

Lemma and_loop_step pos lhs rhs p :
  tokens !! pos = Some "AND" ->
  _parse_not_expression fuel tokens (pos + 1) = Ok (rhs, p) ->
  _and_loop (S fuel) tokens lhs pos = _and_loop fuel tokens (And lhs rhs) p.
Proof.
  intros Htok Hn. cbn. rewrite bool_decide_eq_true_2 by done. by rewrite Hn.
Qed.

Lemma and_start pos lhs p :
  _parse_not_expression fuel tokens pos = Ok (lhs, p) ->
  _parse_and_expression (S fuel) tokens pos = _and_loop fuel tokens lhs p.
Proof. intros Hn. cbn. by rewrite Hn. Qed.

Lemma or_loop_stop pos lhs :
  tokens !! pos <> Some "OR" ->
  _or_loop (S fuel) tokens lhs pos = Ok (lhs, pos).
Proof. intros Htok. cbn. by rewrite bool_decide_eq_false_2. Qed.

Lemma or_loop_step pos lhs rhs p :
  tokens !! pos = Some "OR" ->
  _parse_and_expression fuel tokens (pos + 1) = Ok (rhs, p) ->
  _or_loop (S fuel) tokens lhs pos = _or_loop fuel tokens (Or lhs rhs) p.
Proof.
  intros Htok Ha. cbn. rewrite bool_decide_eq_true_2 by done. by rewrite Ha.
Qed.

Lemma or_start pos lhs p :
  _parse_and_expression fuel tokens pos = Ok (lhs, p) ->
  _parse_or_expression (S fuel) tokens pos = _or_loop fuel tokens lhs p.
Proof. intros Ha. cbn. by rewrite Ha. Qed.

End ParserSteps.

Lemma render_And_length l r :
  length (render (And l r)) = length (render l) + length (render r) + 5.
Proof. cbn. repeat (rewrite length_app; cbn). lia. Qed.

Lemma render_Or_length l r :
  length (render (Or l r)) = length (render l) + length (render r) + 5.
Proof. cbn. repeat (rewrite length_app; cbn). lia. Qed.

Lemma render_Not_length operand :
  length (render (Not operand)) = length (render operand) + 3.
Proof. cbn. repeat (rewrite length_app; cbn). lia. Qed.

(** [tokens], given as [pre ++ ...], holds [x] at [n]; [l1] is what stands
    before [x]. *)
Ltac token_at l1 :=
  eapply (lookup_split _ l1);
  [ subst; repeat (rewrite <- app_assoc; cbn); reflexivity
  | subst; repeat (rewrite length_app; cbn); lia ].

Ltac token_after l1 :=
  eapply (lookup_head _ l1);
  [ subst; repeat (rewrite <- app_assoc; cbn); reflexivity
  | subst; repeat (rewrite length_app; cbn); lia ].

(** A parenthesised operand at [pos]. *)
Lemma primary_rendered (tokens : list string) (fuel pos : nat)
  (expr : QueryExpression) (pre rest : list string) :
  (forall tokens' pre' suf' f pos',
     tokens' = pre' ++ render expr ++ suf' -> pos' = length pre' ->
     head suf' <> Some "AND" -> head suf' <> Some "OR" ->
     6 * length (render expr) + 4 <= f ->
     _parse_or_expression f tokens' pos'
     = Ok (expr, pos' + length (render expr))) ->
  tokens = pre ++ "(" :: render expr ++ ")" :: rest ->
  pos = length pre ->
  6 * length (render expr) + 5 <= fuel ->
  _parse_primary_expression fuel tokens pos
  = Ok (expr, pos + length (render expr) + 2).
Proof.
  intros IH Htok Hpos Hfuel. destruct fuel as [|fuel]; [lia|].
  replace (pos + length (render expr) + 2)
    with (pos + 1 + length (render expr) + 1) by lia.
  apply primary_paren.
  - subst. by apply list_lookup_middle.
  - apply (IH _ (pre ++ ["("]) (")" :: rest)); [| |done|done|lia].
    + subst. by rewrite <- !app_assoc.
    + rewrite length_app. cbn. lia.
  - subst tokens. eapply (lookup_split _ (pre ++ "(" :: render expr)).
    + by rewrite <- app_assoc.
    + rewrite length_app. cbn. lia.
Qed.

Lemma parse_render_aux (expr : QueryExpression) :
  well_formed expr ->
  forall tokens pre suf fuel pos,
    tokens = pre ++ render expr ++ suf -> pos = length pre ->
    head suf <> Some "AND" -> head suf <> Some "OR" ->
    6 * length (render expr) + 4 <= fuel ->
    _parse_or_expression fuel tokens pos = Ok (expr, pos + length (render expr)).
Proof.
  induction expr as [term|l IHl r IHr|l IHl r IHr|operand IH|];
    intros Hwf tokens pre suf fuel pos Htok Hpos Hand Hor Hfuel; cbn in Hwf.
  - (* a term *)
    cbn in *. do 4 (destruct fuel as [|fuel]; [lia|]).
    assert (tokens !! pos = Some term) as Hterm by (subst; by apply list_lookup_middle).
    assert (tokens !! (pos + 1) = head suf) as Hnext by token_after (pre ++ [term]).
    assert (_parse_not_expression (S (S fuel)) tokens pos = Ok (Term term, pos + 1))
      as Hn.
    { rewrite not_absent by (rewrite Hterm; intros [= ->]; apply Hwf; set_solver).
      by apply primary_term. }
    assert (_parse_and_expression (S (S (S fuel))) tokens pos = Ok (Term term, pos + 1))
      as Ha.
    { rewrite (and_start _ _ _ _ _ Hn). apply and_loop_stop. by rewrite Hnext. }
    rewrite (or_start _ _ _ _ _ Ha). apply or_loop_stop. by rewrite Hnext.
  - (* a conjunction *)
    destruct Hwf as [Hwl Hwr]. rewrite render_And_length in *.
    assert (tokens = pre ++ "(" :: render l ++ ")" :: "AND" :: "(" :: render r
                         ++ ")" :: suf) as Htok'.
    { subst tokens. cbn. by repeat (rewrite <- app_assoc; cbn). }
    clear Htok.
    set (n := length (render l)) in *. set (k := length (render r)) in *.
    do 5 (destruct fuel as [|fuel]; [lia|]).
    assert (tokens !! pos = Some "(") as Hfirst by token_at pre.
    assert (_parse_primary_expression (S (S fuel)) tokens pos = Ok (l, pos + n + 2))
      as Hl.
    { eapply primary_rendered; [by eauto|exact Htok'|done|fold n; lia]. }
    assert (tokens !! (pos + n + 2) = Some "AND") as Hop
      by token_at (pre ++ "(" :: render l ++ [")"]).
    assert (tokens !! (pos + n + 2 + 1) = Some "(") as Hopen
      by token_at (pre ++ "(" :: render l ++ [")"; "AND"]).
    assert (_parse_primary_expression (S fuel) tokens (pos + n + 2 + 1)
            = Ok (r, pos + n + 2 + 1 + k + 2)) as Hr.
    { eapply (primary_rendered _ _ _ _
                (pre ++ "(" :: render l ++ [")"; "AND"]) suf);
        [by eauto| | |fold k; lia].
      - subst. by repeat (rewrite <- app_assoc; cbn).
      - subst. repeat (rewrite length_app; cbn). lia. }
    assert (tokens !! (pos + n + 2 + 1 + k + 2) = head suf) as Hnext
      by token_after (pre ++ "(" :: render l ++ ")" :: "AND" :: "("
                          :: render r ++ [")"]).
    replace (pos + (n + k + 5)) with (pos + n + 2 + 1 + k + 2) by lia.
    assert (_parse_not_expression (S (S (S fuel))) tokens pos = Ok (l, pos + n + 2))
      as Hn1 by (rewrite not_absent by (by rewrite Hfirst); exact Hl).
    assert (_parse_not_expression (S (S fuel)) tokens (pos + n + 2 + 1)
            = Ok (r, pos + n + 2 + 1 + k + 2)) as Hn2
      by (rewrite not_absent by (by rewrite Hopen); exact Hr).
    assert (_parse_and_expression (S (S (S (S fuel)))) tokens pos
            = Ok (And l r, pos + n + 2 + 1 + k + 2)) as Ha.
    { rewrite (and_start _ _ _ _ _ Hn1).
      rewrite (and_loop_step _ _ _ _ _ _ Hop Hn2).
      apply and_loop_stop. by rewrite Hnext. }
    rewrite (or_start _ _ _ _ _ Ha). apply or_loop_stop. by rewrite Hnext.
  - (* a disjunction *)
    destruct Hwf as [Hwl Hwr]. rewrite render_Or_length in *.
    assert (tokens = pre ++ "(" :: render l ++ ")" :: "OR" :: "(" :: render r
                         ++ ")" :: suf) as Htok'.
    { subst tokens. cbn. by repeat (rewrite <- app_assoc; cbn). }
    clear Htok.
    set (n := length (render l)) in *. set (k := length (render r)) in *.
    do 5 (destruct fuel as [|fuel]; [lia|]).
    assert (tokens !! pos = Some "(") as Hfirst by token_at pre.
    assert (_parse_primary_expression (S (S fuel)) tokens pos = Ok (l, pos + n + 2))
      as Hl.
    { eapply primary_rendered; [by eauto|exact Htok'|done|fold n; lia]. }
    assert (tokens !! (pos + n + 2) = Some "OR") as Hop
      by token_at (pre ++ "(" :: render l ++ [")"]).
    assert (tokens !! (pos + n + 2 + 1) = Some "(") as Hopen
      by token_at (pre ++ "(" :: render l ++ [")"; "OR"]).
    assert (_parse_primary_expression (S fuel) tokens (pos + n + 2 + 1)
            = Ok (r, pos + n + 2 + 1 + k + 2)) as Hr.
    { eapply (primary_rendered _ _ _ _
                (pre ++ "(" :: render l ++ [")"; "OR"]) suf);
        [by eauto| | |fold k; lia].
      - subst. by repeat (rewrite <- app_assoc; cbn).
      - subst. repeat (rewrite length_app; cbn). lia. }
    assert (tokens !! (pos + n + 2 + 1 + k + 2) = head suf) as Hnext
      by token_after (pre ++ "(" :: render l ++ ")" :: "OR" :: "("
                          :: render r ++ [")"]).
    replace (pos + (n + k + 5)) with (pos + n + 2 + 1 + k + 2) by lia.
    assert (_parse_not_expression (S (S (S fuel))) tokens pos = Ok (l, pos + n + 2))
      as Hn1 by (rewrite not_absent by (by rewrite Hfirst); exact Hl).
    assert (_parse_and_expression (S (S (S (S fuel)))) tokens pos
            = Ok (l, pos + n + 2)) as Ha1.
    { rewrite (and_start _ _ _ _ _ Hn1). apply and_loop_stop. by rewrite Hop. }
    assert (_parse_not_expression (S (S fuel)) tokens (pos + n + 2 + 1)
            = Ok (r, pos + n + 2 + 1 + k + 2)) as Hn2
      by (rewrite not_absent by (by rewrite Hopen); exact Hr).
    assert (_parse_and_expression (S (S (S fuel))) tokens (pos + n + 2 + 1)
            = Ok (r, pos + n + 2 + 1 + k + 2)) as Ha2.
    { rewrite (and_start _ _ _ _ _ Hn2). apply and_loop_stop. by rewrite Hnext. }
    rewrite (or_start _ _ _ _ _ Ha1).
    rewrite (or_loop_step _ _ _ _ _ _ Hop Ha2).
    apply or_loop_stop. by rewrite Hnext.
  - (* a negation *)
    rewrite render_Not_length in *.
    assert (tokens = pre ++ "NOT" :: "(" :: render operand ++ ")" :: suf) as Htok'.
    { subst tokens. cbn. by repeat (rewrite <- app_assoc; cbn). }
    clear Htok.
    set (n := length (render operand)) in *.
    do 3 (destruct fuel as [|fuel]; [lia|]).
    assert (tokens !! pos = Some "NOT") as Hfirst by token_at pre.
    assert (_parse_primary_expression fuel tokens (pos + 1)
            = Ok (operand, pos + 1 + n + 2)) as Ho.
    { eapply (primary_rendered _ _ _ _ (pre ++ ["NOT"]) suf);
        [by eauto| | |fold n; lia].
      - subst. by repeat (rewrite <- app_assoc; cbn).
      - subst. repeat (rewrite length_app; cbn). lia. }
    assert (tokens !! (pos + 1 + n + 2) = head suf) as Hnext
      by token_after (pre ++ "NOT" :: "(" :: render operand ++ [")"]).
    replace (pos + (n + 3)) with (pos + 1 + n + 2) by lia.
    pose proof (not_present _ _ _ _ _ Hfirst Ho) as Hn.
    assert (_parse_and_expression (S (S fuel)) tokens pos
            = Ok (Not operand, pos + 1 + n + 2)) as Ha.
    { rewrite (and_start _ _ _ _ _ Hn). apply and_loop_stop. by rewrite Hnext. }
    rewrite (or_start _ _ _ _ _ Ha). apply or_loop_stop. by rewrite Hnext.
  - done.
Qed.

(** X6. Writing a tree out and parsing it gives the tree back: for every
    tree without empty nodes whose terms are no operators, the parser
    returns the tree from its tokens, written with each operand of an
    operator in parentheses (the interpreter's limit on the depth of
    recursion aside). Every such tree is the parse of some list of
    tokens. *)
Theorem _parse_expression_render (expression : QueryExpression) :
  well_formed expression ->
  _parse_expression (render expression) = Ok expression.
Proof.
  intros Hwf. unfold _parse_expression.
  destruct (render expression) as [|tok toks] eqn:Hr.
  { destruct expression; cbn in *; try done; by destruct Hwf. }
  rewrite <- Hr.
  rewrite (parse_render_aux expression Hwf (render expression) [] [] _ 0);
    [done|by rewrite app_nil_r|done|done|done|unfold parse_fuel; lia].
Qed.

Lemma _parse_expression_render_witness :
  let expression :=
    And (Term "bluetooth") (Or (Term "headphone") (Not (Term "speaker"))) in
  well_formed expression
  /\ _parse_expression (render expression) = Ok expression.
Proof.
  intros expression.
  assert (Hwf : well_formed expression).
  { repeat split; intros H%(bool_decide_pack _); by vm_compute in H. }
  split; [exact Hwf|]. exact (_parse_expression_render expression Hwf).
Defined.

(** ** Precedence *)

Lemma term_not_operator (term : string) :
  term ∉ operators ->
  term <> "AND" /\ term <> "OR" /\ term <> "NOT" /\ term <> "(" /\ term <> ")".
Proof. intros H. repeat split; intros ->; apply H; set_solver. Qed.

(** Running the parser on given tokens, one call at a time. *)
Ltac token_test := cbn; first [reflexivity | congruence].

Ltac run_primary :=
  apply primary_term; [token_test | assumption].
Ltac run_not :=
  first [ eapply not_present; [token_test | run_primary]
        | rewrite not_absent by token_test; run_primary ].
Ltac run_and_loop :=
  first [ eapply eq_trans;
          [ eapply and_loop_step; [token_test | run_not] | run_and_loop ]
        | apply and_loop_stop; token_test ].
Ltac run_and :=
  eapply eq_trans; [ eapply and_start; run_not | run_and_loop ].
Ltac run_or_loop :=
  first [ eapply eq_trans;
          [ eapply or_loop_step; [token_test | run_and] | run_or_loop ]
        | apply or_loop_stop; token_test ].
Ltac run_or :=
  eapply eq_trans; [ eapply or_start; run_and | run_or_loop ].

Ltac run_parser :=
  cbv beta iota delta [_parse_expression parse_fuel length Nat.mul Nat.add];
  match goal with
  | |- context [_parse_or_expression ?f ?T 0] =>
      let H := fresh in
      eassert (H : _parse_or_expression f T 0 = _);
      [ run_or | rewrite H; reflexivity ]
  end.

(** X7. NOT binds more tightly than AND, and AND more tightly than OR;
    AND and OR associate to the left; NOT takes a term or a parenthesised
    expression only, so a doubled NOT is rejected. *)
Theorem _parse_expression_precedence (a b c : string) :
  a ∉ operators -> b ∉ operators -> c ∉ operators ->
  _parse_expression [a; "OR"; b; "AND"; c]
  = Ok (Or (Term a) (And (Term b) (Term c)))
  /\ _parse_expression [a; "AND"; b; "OR"; c]
     = Ok (Or (And (Term a) (Term b)) (Term c))
  /\ _parse_expression [a; "AND"; b; "AND"; c]
     = Ok (And (And (Term a) (Term b)) (Term c))
  /\ _parse_expression [a; "OR"; b; "OR"; c]
     = Ok (Or (Or (Term a) (Term b)) (Term c))
  /\ _parse_expression ["NOT"; a; "AND"; b] = Ok (And (Not (Term a)) (Term b))
  /\ _parse_expression ["NOT"; a; "OR"; "NOT"; b]
     = Ok (Or (Not (Term a)) (Not (Term b)))
  /\ _parse_expression ["NOT"; "NOT"; a]
     = Raise (ValueError "Unexpected token: NOT").
Proof.
  intros Ha Hb Hc.
  destruct (term_not_operator a Ha) as (? & ? & ? & ? & ?).
  destruct (term_not_operator b Hb) as (? & ? & ? & ? & ?).
  destruct (term_not_operator c Hc) as (? & ? & ? & ? & ?).
  split; [run_parser|]. split; [run_parser|]. split; [run_parser|].
  split; [run_parser|]. split; [run_parser|]. split; [run_parser|].
  by vm_compute.
Qed.

Lemma _parse_expression_precedence_witness :
  ("phone" ∉ operators) /\ ("tablet" ∉ operators) /\ ("case" ∉ operators)
  /\ _parse_expression ["phone"; "OR"; "tablet"; "AND"; "case"]
     = Ok (Or (Term "phone") (And (Term "tablet") (Term "case"))).
Proof.
  assert (H : forall t, bool_decide (t ∈ operators) = false -> t ∉ operators).
  { intros t Ht. by apply bool_decide_eq_false in Ht. }
  assert (H1 : "phone" ∉ operators) by (by apply H).
  assert (H2 : "tablet" ∉ operators) by (by apply H).
  assert (H3 : "case" ∉ operators) by (by apply H).
  split; [exact H1|]. split; [exact H2|]. split; [exact H3|].
  exact (proj1 (_parse_expression_precedence "phone" "tablet" "case" H1 H2 H3)).
Defined.

(** ** The boolean search on the product records *)

(** [product_matches], as [search_boolean] fills it. *)
Lemma product_matches_lookup (ps : list (gmap string value))
  (all_terms : gset string) (term : string) :
  (set_to_map (fun term =>
                 (term,
                  list_to_set
                    (id_of <$> filter (fun product =>
                                         contains (lower term) (product_text product) = true)
                                      ps)))
              all_terms : gmap string (gset string)) !! term
  = if decide (term ∈ all_terms)
    then Some (list_to_set (id_of <$> filter (fun product => term_matches term product = true) ps))
    else None.
Proof.
  case_decide as Hin.
  - apply lookup_set_to_map; [by intros y y' _ _ ?|]. by exists term.
  - apply eq_None_not_Some. intros [ids Hids].
    apply lookup_set_to_map in Hids as (y & Hy & Heq); [|by intros ? ? _ _ ?].
    by simplify_eq.
Qed.

Section BooleanSemantics.
Context (ps : list (gmap string value)) (all_terms : gset string).
Hypothesis unique_ids : NoDup (id_of <$> ps).

Lemma elem_of_matches_universe x :
  x ∈ all_products (product_matches_of ps all_terms)
  <-> exists p, p ∈ ps /\ id_of p = x /\ in_universe all_terms p = true.
Proof using Type.
  rewrite elem_of_all_products. unfold in_universe. split.
  - intros (term & ids & Hl & Hx). unfold product_matches_of in Hl.
    rewrite product_matches_lookup in Hl. case_decide as Hin; [|done].
    simplify_eq. apply elem_of_list_to_set, list_elem_of_fmap in Hx as (p & -> & Hp).
    apply list_elem_of_filter in Hp as [Hm Hp].
    exists p. split; [done|]. split; [done|].
    apply bool_decide_eq_true. by exists term.
  - intros (p & Hp & <- & Hu). apply bool_decide_eq_true in Hu as (term & Hin & Hm).
    exists term, (list_to_set (id_of <$> filter (fun product => term_matches term product = true) ps)).
    split.
    + unfold product_matches_of. rewrite product_matches_lookup. by rewrite decide_True.
    + apply elem_of_list_to_set, list_elem_of_fmap. exists p. split; [done|].
      by apply list_elem_of_filter.
Qed.

Lemma elem_of_evaluate_matches (expression : QueryExpression) x :
  _extract_terms_from_expression expression ⊆ all_terms ->
  x ∈ evaluate_boolean_expression expression (product_matches_of ps all_terms)
  <-> exists p, p ∈ ps /\ id_of p = x /\ satisfies all_terms expression p = true.
Proof using unique_ids.
  induction expression as [term|l IHl r IHr|l IHl r IHr|operand IH|]; cbn; intros Hsub.
  - unfold product_matches_of. rewrite product_matches_lookup.
    rewrite decide_True by set_solver. cbn.
    rewrite elem_of_list_to_set, list_elem_of_fmap. split.
    + intros (p & -> & Hp). apply list_elem_of_filter in Hp as [Hm Hp]. by exists p.
    + intros (p & Hp & <- & Hm). exists p. split; [done|].
      by apply list_elem_of_filter.
  - rewrite elem_of_intersection, IHl, IHr by set_solver. split.
    + intros [(p & Hp & <- & Hl) (p' & Hp' & Heq & Hr)].
      assert (p' = p) as -> by eauto using NoDup_fmap_elem_inj.
      exists p. by rewrite Hl, Hr.
    + intros (p & Hp & <- & [Hl Hr]%andb_true_iff). split; by exists p.
  - rewrite elem_of_union, IHl, IHr by set_solver. split.
    + intros [(p & Hp & <- & Hl)|(p & Hp & <- & Hr)]; exists p;
        (split; [done|]); (split; [done|]); apply orb_true_iff; auto.
    + intros (p & Hp & <- & [Hl|Hr]%orb_true_iff); [left|right]; by exists p.
  - rewrite elem_of_difference, elem_of_matches_universe, IH by set_solver. split.
    + intros [(p & Hp & <- & Hu) Hn]. exists p. split; [done|]. split; [done|].
      rewrite Hu. cbn. apply negb_true_iff, not_true_iff_false.
      intros Hs. apply Hn. by exists p.
    + intros (p & Hp & <- & [Hu Hs]%andb_true_iff). split; [by exists p|].
      intros (p' & Hp' & Heq & Hs').
      assert (p' = p) as -> by eauto using NoDup_fmap_elem_inj.
      by rewrite Hs' in Hs.
  - rewrite elem_of_empty. split; [done|]. by intros (p & _ & _ & ?).
Qed.

End BooleanSemantics.

Lemma boolean_results_satisfies (e : Engine) (expression : QueryExpression) :
  NoDup (id_of <$> products e) ->
  boolean_results e expression
  = omap (fun ip =>
            if satisfies (_extract_terms_from_expression expression) expression ip.2
            then Some (boolean_result ip.1 ip.2) else None)
         (zip (seq 0 (length (products e))) (products e)).
Proof.
  intros Hnd. unfold boolean_results. apply omap_ext_elem.
  intros [i p] Hip. cbn.
  assert (p ∈ products e) as Hp.
  { apply elem_of_zip_r in Hip. done. }
  pose proof (elem_of_evaluate_matches (products e)
                (_extract_terms_from_expression expression) Hnd expression (id_of p)
                (reflexivity _)) as Hiff.
  case_bool_decide as Hin.
  - apply Hiff in Hin as (p' & Hp' & Heq & Hs).
    assert (p' = p) as -> by eauto using NoDup_fmap_elem_inj.
    by rewrite Hs.
  - destruct (satisfies _ expression p) eqn:Hs; [|done].
    exfalso. apply Hin, Hiff. by exists p.
Qed.

(** X3. With one record per id, a boolean query that parses returns, in the
    order of the store, exactly the records that satisfy its expression:
    a term holds of a record whose text contains it in lower case, AND and
    OR are conjunction and disjunction, and NOT holds of a record that
    contains some term of the query but does not satisfy the operand. The
    engine is left as it was: nothing is validated, cached or annotated. *)
Theorem search_boolean_satisfies (sc : Scoring) (boolean_query : string)
  (stone_preference : option StoneType) (e : Engine)
  (expression : QueryExpression) (original_query : string) (tokens : list string) :
  NoDup (id_of <$> products e) ->
  parse_boolean_query boolean_query
  = ParseSuccess expression original_query tokens ->
  search_boolean sc boolean_query stone_preference e
  = (e, Ok (omap (fun ip =>
                    if satisfies (_extract_terms_from_expression expression)
                                 expression ip.2
                    then Some (boolean_result ip.1 ip.2) else None)
                 (zip (seq 0 (length (products e))) (products e)))).
Proof.
  intros Hnd Hparse. unfold search_boolean, etry. rewrite Hparse. cbn.
  by rewrite boolean_results_satisfies.
Qed.

Lemma search_boolean_satisfies_witness :
  NoDup (id_of <$> products (engine_of cameras))
  /\ parse_boolean_query "camera AND NOT digital"
     = ParseSuccess (And (Term "camera") (Not (Term "digital")))
         "camera AND NOT digital" ["camera"; "AND"; "NOT"; "digital"]
  /\ search_boolean unit_scoring "camera AND NOT digital" None (engine_of cameras)
     = (engine_of cameras,
        Ok [mkSearchResult "2" 1 (qz 1) [(MIND, qz 1)] ["boolean_search"]]).
Proof.
  assert (H1 : NoDup (id_of <$> products (engine_of cameras))).
  { apply (bool_decide_unpack _). by vm_compute. }
  assert (H2 : parse_boolean_query "camera AND NOT digital"
               = ParseSuccess (And (Term "camera") (Not (Term "digital")))
                   "camera AND NOT digital" ["camera"; "AND"; "NOT"; "digital"]).
  { by vm_compute. }
  split; [exact H1|]. split; [exact H2|].
  rewrite (search_boolean_satisfies unit_scoring _ None _ _ _ _ H1 H2).
  by vm_compute.
Defined.

Lemma boolean_results_negated_term (e : Engine) (term : string) :
  boolean_results e (Not (Term term)) = [].
Proof.
  unfold boolean_results.
  cbn [_extract_terms_from_expression evaluate_boolean_expression].
  set (product_matches := set_to_map _ _).
  assert (all_products product_matches ∖ default ∅ (product_matches !! term) = ∅)
    as ->.
  { apply set_eq. intros x.
    rewrite elem_of_difference, elem_of_all_products. split; [|set_solver].
    intros [(t & ids & Hl & Hx) Hn]. exfalso. apply Hn.
    assert (t = term) as ->.
    { unfold product_matches in Hl. rewrite product_matches_lookup in Hl.
      case_decide; [set_solver|done]. }
    by rewrite Hl. }
  induction (zip _ _) as [|ip l IH]; [done|]. cbn.
  rewrite bool_decide_eq_false_2 by set_solver. done.
Qed.

(** X4. A query that consists of one negated term returns no record,
    whatever the store holds: the universe of the negation is made of the
    records that match a term of the query, here the negated term alone. *)
Theorem search_boolean_negated_term (sc : Scoring) (boolean_query term : string)
  (stone_preference : option StoneType) (e : Engine) :
  _tokenize_boolean_query boolean_query = ["NOT"; term] ->
  term ∉ operators ->
  search_boolean sc boolean_query stone_preference e = (e, Ok []).
Proof.
  intros Htok Hterm.
  assert (parse_boolean_query boolean_query
          = ParseSuccess (Not (Term term)) boolean_query ["NOT"; term]) as Hparse.
  { unfold parse_boolean_query. rewrite Htok.
    destruct (term_not_operator term Hterm) as (? & ? & ? & ? & ?).
    assert (_parse_expression ["NOT"; term] = Ok (Not (Term term))) as ->
      by run_parser.
    done. }
  unfold search_boolean, etry. rewrite Hparse. cbn -[boolean_results].
  by rewrite boolean_results_negated_term.
Qed.

Lemma search_boolean_negated_term_witness :
  _tokenize_boolean_query "not Digital" = ["NOT"; "digital"]
  /\ ("digital" ∉ operators)
  /\ search_boolean unit_scoring "not Digital" None (engine_of cameras)
     = (engine_of cameras, Ok []).
Proof.
  assert (H1 : _tokenize_boolean_query "not Digital" = ["NOT"; "digital"]).
  { by vm_compute. }
  assert (H2 : "digital" ∉ operators).
  { intros H%(bool_decide_pack _). by vm_compute in H. }
  split; [exact H1|]. split; [exact H2|].
  exact (search_boolean_negated_term unit_scoring _ _ None _ H1 H2).
Defined.

(** ** More on the LRU cache *)

Section CacheMore.
Context {V : Type}.
Implicit Types (c : LRUCache V) (key : string) (value : V).

Lemma od_lookup_app_last key value (od : list (string * V)) :
  key ∉ od.*1 -> od_lookup key (od ++ [(key, value)]) = Some value.
Proof.
  induction od as [|[k v] od IH]; intros Hk; cbn.
  - by rewrite decide_True.
  - rewrite fmap_cons in Hk. apply not_elem_of_cons in Hk as [Hne Hk].
    rewrite decide_False by done. by apply IH.
Qed.

(** After a [put] the entry is the last one, with the time of the call. *)
Lemma put_stored t key value c :
  cache_wf c -> 1 <= max_size c ->
  exists items,
    (key ∉ items.*1)
    /\ (put t key value c).2 = Ok ()
    /\ cache (put t key value c).1 = items ++ [(key, value)]
    /\ access_times (put t key value c).1 !! key = Some t
    /\ ttl (put t key value c).1 = ttl c
    /\ cache_wf (put t key value c).1.
Proof.
  intros Hwf Hms. destruct (decide (key ∈ (cache c).*1)) as [Hin|Hout].
  - rewrite put_present by done. exists (od_del key (cache c)). cbn.
    split; [apply od_del_not_elem|]. rewrite lookup_insert_eq.
    do 4 (split; [done|]). by apply wf_moved.
  - destruct (decide (length (cache c) < max_size c)) as [Hroom|Hfull].
    + rewrite put_absent_room by done. exists (cache c). cbn.
      rewrite lookup_insert_eq. do 5 (split; [done|]). by apply wf_appended.
    + destruct (cache c) as [|[k0 v0] rest] eqn:Hc; [cbn in *; lia|].
      rewrite (put_absent_full t key value c k0 v0 rest Hwf);
        [|by rewrite Hc|rewrite Hc; cbn in *; lia|done].
      exists rest. cbn. rewrite fmap_cons in Hout.
      apply not_elem_of_cons in Hout as [_ Hout].
      rewrite lookup_insert_eq. do 5 (split; [done|]).
      pose proof (wf_deleted c k0 Hwf) as Hd.
      assert (od_del k0 (cache c) = rest) as Hrest.
      { rewrite Hc. apply od_del_head. destruct Hwf as [Hnd _].
        rewrite Hc, fmap_cons in Hnd. by apply NoDup_cons in Hnd as [? _]. }
      rewrite Hrest in Hd.
      by apply (wf_appended _ key value t) in Hd.
Qed.

End CacheMore.

(** X8. What is put can be fetched: on a cache of capacity at least 1 a
    [put] never raises, and a [get] of the same key that follows returns
    the value stored, if no more than the TTL has passed since the [put];
    if more has passed, the [get] returns not-found and the entry is
    gone. *)
Theorem put_get_round_trip {V : Type} (c : LRUCache V) (t now now' : Qc)
  (key : string) (value : V) :
  cache_wf c -> 1 <= max_size c ->
  let c' := (put t key value c).1 in
  (put t key value c).2 = Ok ()
  /\ ((now - t <= ttl c)%Qc -> (get now now' key c').2 = Ok (Some value))
  /\ ((ttl c < now - t)%Qc ->
      (get now now' key c').2 = Ok None
      /\ key ∉ (cache (get now now' key c').1).*1).
Proof.
  intros Hwf Hms c'.
  destruct (put_stored t key value c Hwf Hms)
    as (items & Hk & Hok & Hc & Ht & Httl & Hwf').
  fold c' in Hc, Ht, Httl, Hwf'.
  assert (key ∈ (cache c').*1) as Hin.
  { rewrite Hc, fmap_app. apply elem_of_app. right. cbn. apply elem_of_cons. by left. }
  split; [done|]. split.
  - intros Hfresh.
    rewrite (get_fresh now now' key c' t value); [done|done|done| |].
    + rewrite Httl. by apply Qcle_not_lt.
    + rewrite Hc. by apply od_lookup_app_last.
  - intros Hexp.
    rewrite (get_expired now now' key c' t); [|done|done|done|by rewrite Httl].
    cbn. split; [done|]. apply od_del_not_elem.
Qed.

Lemma put_get_round_trip_witness :
  let c := @LRUCache_init nat 3 (qz 1800) in
  cache_wf c /\ 1 <= max_size c
  /\ (get (qz 10) (qz 10) "key1" (put (qz 0) "key1" 7 c).1).2 = Ok (Some 7).
Proof.
  intros c.
  assert (H1 : cache_wf c) by apply LRUCache_init_wf.
  assert (H2 : 1 <= max_size c) by (cbn; lia).
  split; [exact H1|]. split; [exact H2|].
  apply (put_get_round_trip c (qz 0) (qz 10) (qz 10) "key1" 7 H1 H2).
  by vm_compute.
Defined.

(** *** Expiry *)

Section CacheExpiry.
Context {V : Type}.
Implicit Types (c : LRUCache V) (key : string) (value : V).

Lemma set_store_id c : set_store c (cache c) (access_times c) = c.
Proof. by destruct c. Qed.

Lemma remove_all_spec (keys : list string) c :
  cache_wf c ->
  remove_all keys c
  = (set_store c (filter (fun kv => kv.1 ∉ keys) (cache c))
               (filter (fun kt => kt.1 ∉ keys) (access_times c)), Ok ()).
Proof.
  revert c. induction keys as [|key keys IH]; intros c Hwf; cbn.
  - rewrite filter_all by (intros; apply not_elem_of_nil).
    rewrite map_filter_id by (intros; apply not_elem_of_nil).
    by rewrite set_store_id.
  - destruct (decide (key ∈ (cache c).*1)) as [Hin|Hout].
    + rewrite _remove_present by done. rewrite IH by (by apply wf_deleted).
      cbn. unfold set_store. cbn. f_equal. f_equal.
      * unfold od_del. rewrite list_filter_filter. apply list_filter_iff.
        intros [k v]. cbn. rewrite not_elem_of_cons. tauto.
      * apply map_eq. intros k. apply option_eq. intros a.
        rewrite !map_lookup_filter_Some, lookup_delete_Some. cbn.
        rewrite not_elem_of_cons. naive_solver.
    + rewrite _remove_absent by done. rewrite IH by done. f_equal. f_equal.
      * apply filter_ext_elem. intros [k v] Hkv. cbn.
        rewrite not_elem_of_cons. split; [|tauto]. intros Hk. split; [|done].
        intros ->. apply Hout. apply list_elem_of_fmap. by exists (key, v).
      * apply map_filter_ext. intros k a Hka. cbn.
        rewrite not_elem_of_cons. split; [|tauto]. intros Hk. split; [|done].
        intros ->. apply Hout. apply wf_time_has_key; [done|]. by exists a.
Qed.

Lemma elem_of_expired_keys c t key :
  key ∈ (map_to_list (filter (fun kt => (ttl c < t - kt.2)%Qc) (access_times c))).*1
  <-> is_expired c t key = true.
Proof.
  unfold is_expired. rewrite list_elem_of_fmap. split.
  - intros ([k a] & -> & Hin). apply elem_of_map_to_list in Hin.
    apply map_lookup_filter_Some in Hin as [Hl He]. cbn in *. rewrite Hl.
    by apply bool_decide_eq_true.
  - destruct (access_times c !! key) as [a|] eqn:Hl; [|done].
    intros He%bool_decide_eq_true. exists (key, a). split; [done|].
    apply elem_of_map_to_list, map_lookup_filter_Some. done.
Qed.

Lemma cleanup_expired_spec c t :
  cache_wf c ->
  cleanup_expired t c
  = (set_store c (filter (fun kv => is_expired c t kv.1 = false) (cache c))
               (filter (fun kt => (t - kt.2 <= ttl c)%Qc) (access_times c)),
     Ok (length (filter (fun kv => is_expired c t kv.1 = true) (cache c)))).
Proof.
  intros Hwf. unfold cleanup_expired. rewrite remove_all_spec by done.
  set (keys := (map_to_list _).*1). cbn. f_equal; [f_equal|f_equal].
  - apply list_filter_iff. intros [k v]. cbn. unfold keys.
    rewrite elem_of_expired_keys. by destruct (is_expired c t k).
  - apply map_filter_ext. intros k a Hka. cbn. unfold keys.
    rewrite elem_of_expired_keys. unfold is_expired. rewrite Hka.
    rewrite not_true_iff_false, bool_decide_eq_false. split.
    + apply Qcnot_lt_le.
    + apply Qcle_not_lt.
  - (* as many keys as entries *)
    rewrite <- (length_fmap fst (filter _ (cache c))).
    apply Permutation_length, NoDup_Permutation.
    + unfold keys. apply NoDup_fst_map_to_list.
    + destruct Hwf as [Hnd _]. clear -Hnd.
      induction (cache c) as [|[k v] l IH]; [constructor|].
      rewrite fmap_cons in Hnd. apply NoDup_cons in Hnd as [Hk Hnd].
      rewrite filter_cons. case_decide; [|by apply IH].
      rewrite fmap_cons. apply NoDup_cons. split; [|by apply IH].
      intros Hin. apply Hk. apply list_elem_of_fmap in Hin as ([k' v'] & -> & Hin).
      apply list_elem_of_filter in Hin as [_ Hin].
      apply list_elem_of_fmap. by exists (k', v').
    + intros k. unfold keys. rewrite elem_of_expired_keys.
      rewrite list_elem_of_fmap. split.
      * intros He. assert (k ∈ (cache c).*1) as Hin.
        { apply wf_time_has_key; [done|]. unfold is_expired in He.
          by destruct (access_times c !! k). }
        apply list_elem_of_fmap in Hin as ([k' v] & -> & Hin).
        exists (k', v). split; [done|]. by apply list_elem_of_filter.
      * intros ([k' v] & -> & Hin). by apply list_elem_of_filter in Hin as [? _].
Qed.

End CacheExpiry.

(** X9. [cleanup_expired] removes exactly the entries whose age exceeds
    the TTL and returns their number; the entries that stay keep their
    order, access times and values, and the hit, miss and eviction counters
    are not touched. A second call at the same time removes nothing. *)
Theorem cleanup_expired_exact {V : Type} (c : LRUCache V) (t : Qc) :
  cache_wf c ->
  let kept := filter (fun kv => is_expired c t kv.1 = false) (cache c) in
  let c' :=
    mkLRUCache (max_size c) (ttl c) kept
      (filter (fun kt => (t - kt.2 <= ttl c)%Qc) (access_times c))
      (hits c) (misses c) (evictions c) in
  cleanup_expired t c = (c', Ok (length (cache c) - length kept))
  /\ cleanup_expired t c' = (c', Ok 0).
Proof.
  intros Hwf kept c'.
  assert (cleanup_expired t c = (c', Ok (length (cache c) - length kept))) as Hfirst.
  { rewrite cleanup_expired_spec by done. unfold c', set_store. f_equal. f_equal.
    pose proof (filter_length_split (fun kv : string * V => is_expired c t kv.1 = true)
                  (cache c)) as Hlen.
    assert (filter (fun kv : string * V => ¬ is_expired c t kv.1 = true) (cache c)
            = kept) as Hk.
    { apply list_filter_iff. intros kv. apply not_true_iff_false. }
    cbv beta in Hlen. rewrite Hk in Hlen. lia. }
  split; [done|].
  assert (cache_wf c') as Hwf'.
  { assert (cache_wf (cleanup_expired t c).1) as Hw.
    { unfold cleanup_expired.
      pose proof (remove_all_wf
                    (map_to_list (filter (fun kt => (ttl c < t - kt.2)%Qc)
                                    (access_times c))).*1 c Hwf) as (Hok & Hw & _).
      destruct (remove_all _ c) as [c1 [[]|x]]; cbn in *; done. }
    by rewrite Hfirst in Hw. }
  rewrite cleanup_expired_spec by done.
  assert (forall k a, access_times c' !! k = Some a -> (t - a <= ttl c)%Qc) as Hfresh.
  { intros k a Hka. cbn in Hka. by apply map_lookup_filter_Some in Hka as [_ ?]. }
  assert (forall k, is_expired c' t k = false) as Hnone.
  { intros k. unfold is_expired. destruct (access_times c' !! k) as [a|] eqn:Hka; [|done].
    apply bool_decide_eq_false. cbn. apply Qcle_not_lt. by eapply Hfresh. }
  f_equal.
  - rewrite filter_all by (intros kv _; apply Hnone).
    rewrite map_filter_id by (intros k a Hka; exact (Hfresh k a Hka)).
    apply set_store_id.
  - f_equal. rewrite (filter_ext_elem _ (fun _ => False)); [|intros kv _; by rewrite Hnone].
    by induction (cache c').
Qed.

Lemma cleanup_expired_exact_witness :
  let c := (put (qz 5) "key2" 2 (put (qz 0) "key1" 1 (@LRUCache_init nat 3 (qz 1))).1).1 in
  cache_wf c
  /\ (cleanup_expired (qz 3) c).2 = Ok 1
  /\ (cache (cleanup_expired (qz 3) c).1).*1 = ["key2"].
Proof.
  intros c.
  assert (Hwf : cache_wf c).
  { pose proof (cache_run_inv [OpPut (qz 0) "key1" 1; OpPut (qz 5) "key2" 2]
                  (@LRUCache_init nat 3 (qz 1)) (LRUCache_init_wf _ _)) as H.
    apply H. cbn. lia. }
  split; [exact Hwf|].
  destruct (cleanup_expired_exact c (qz 3) Hwf) as [-> _].
  split; by vm_compute.
Defined.

(** *** Statistics *)

Section CacheCounters.
Context {V : Type}.
Implicit Types (c : LRUCache V) (key : string) (value : V).

Lemma get_counts now now' key c :
  cache_wf c ->
  let c' := (get now now' key c).1 in
  is_ok (get now now' key c).2 = true
  /\ hits c' + misses c' = S (hits c + misses c)
  /\ evictions c' = evictions c.
Proof.
  intros Hwf. destruct (decide (key ∈ (cache c).*1)) as [Hin|Hout].
  - destruct (wf_has_time c key Hwf Hin) as [accessed Ht].
    destruct (od_lookup_Some key (cache c) Hin) as (value & Hv & _).
    destruct (decide (ttl c < now - accessed)%Qc) as [Hexp|Hfresh].
    + rewrite (get_expired now now' key c accessed) by done. cbn. lia.
    + rewrite (get_fresh now now' key c accessed value) by done. cbn. lia.
  - rewrite get_absent by done. cbn. lia.
Qed.

Lemma put_counts t key value c :
  cache_wf c ->
  let c' := (put t key value c).1 in
  hits c' = hits c /\ misses c' = misses c
  /\ evictions c <= evictions c' <= S (evictions c)
  /\ (1 <= max_size c -> (put t key value c).2 = Ok ()).
Proof.
  intros Hwf. destruct (decide (key ∈ (cache c).*1)) as [Hin|Hout].
  - rewrite put_present by done. cbn. repeat split; lia.
  - destruct (decide (length (cache c) < max_size c)) as [Hroom|Hfull].
    + rewrite put_absent_room by done. cbn. repeat split; lia.
    + destruct (cache c) as [|[k0 v0] rest] eqn:Hc.
      * destruct (decide (max_size c = 0)) as [Hz|Hnz].
        -- rewrite put_empty_full by done. cbn. repeat split; lia.
        -- cbn in Hfull. lia.
      * rewrite (put_absent_full t key value c k0 v0 rest Hwf);
          [|by rewrite Hc|rewrite Hc; cbn in *; lia|done].
        cbn. repeat split; lia.
Qed.

Lemma cleanup_expired_counts t c :
  cache_wf c ->
  let c' := (cleanup_expired t c).1 in
  is_ok (cleanup_expired t c).2 = true
  /\ hits c' = hits c /\ misses c' = misses c /\ evictions c' = evictions c.
Proof. intros Hwf. by rewrite cleanup_expired_spec. Qed.

Lemma cache_run_counts (ops : list cache_op) c :
  cache_wf c -> size_ c <= max_size c ->
  let c' := cache_run ops c in
  hits c' + misses c' = hits c + misses c + length (filter (fun o => is_get o = true) ops)
  /\ evictions c <= evictions c'
     <= evictions c + length (filter (fun o => is_put o = true) ops).
Proof.
  revert c. induction ops as [|o ops IH]; intros c Hwf Hsz; cbv zeta.
  { cbn. lia. }
  destruct (cache_step_inv c o Hwf Hsz) as (Hwf' & Hsz' & _).
  specialize (IH (cache_step c o) Hwf' Hsz'). cbv zeta in IH.
  change (cache_run (o :: ops) c) with (cache_run ops (cache_step c o)).
  rewrite !filter_cons. destruct o as [now now' key|t key value|t].
  - destruct (get_counts now now' key c Hwf) as (_ & Hhm & Hev).
    repeat case_decide; cbn in *; try done; lia.
  - destruct (put_counts t key value c Hwf) as (Hh & Hm & Hev & _).
    repeat case_decide; cbn in *; try done; lia.
  - destruct (cleanup_expired_counts t c Hwf) as (_ & Hh & Hm & Hev).
    repeat case_decide; cbn in *; try done; lia.
Qed.

End CacheCounters.

(** X10. The statistics of a cache are exact: after any calls of [get],
    [put] and [cleanup_expired] on a new cache, hits and misses add up to
    the number of [get]s, there are no more evictions than [put]s, the size
    is within the capacity, and the hit ratio is the share of hits among
    the [get]s, between 0 and 1, and 0 before the first [get]. *)
Theorem get_stats_exact {V : Type} (ms : nat) (ttl0 : Qc)
  (ops : list (@cache_op V)) :
  let stats := get_stats (cache_run ops (LRUCache_init ms ttl0)) in
  let gets := length (filter (fun o => is_get o = true) ops) in
  stats_hits stats + stats_misses stats = gets
  /\ stats_evictions stats <= length (filter (fun o => is_put o = true) ops)
  /\ stats_size stats <= stats_max_size stats
  /\ stats_max_size stats = ms
  /\ stats_ttl stats = ttl0
  /\ (0 <= stats_hit_ratio stats)%Qc /\ (stats_hit_ratio stats <= 1)%Qc
  /\ (gets = 0 -> stats_hit_ratio stats = qz 0)
  /\ (0 < gets -> (stats_hit_ratio stats * qn gets)%Qc = qn (stats_hits stats)).
Proof.
  intros stats gets.
  pose proof (LRUCache_init_wf (V := V) ms ttl0) as Hwf.
  destruct (cache_run_inv ops (LRUCache_init ms ttl0) Hwf ltac:(cbn; lia))
    as (_ & Hsz & Hms & Httl).
  destruct (cache_run_counts ops (LRUCache_init ms ttl0) Hwf ltac:(cbn; lia))
    as (Hhm & Hev).
  cbn in Hhm, Hev, Hms, Httl. fold gets in Hhm.
  set (c := cache_run ops (LRUCache_init ms ttl0)) in *.
  unfold stats, get_stats. cbn.
  split; [done|]. split; [lia|]. split; [exact Hsz|]. split; [done|].
  split; [done|].
  rewrite Hhm. case_bool_decide as Hpos.
  - assert (0 < qn gets)%Qc as Hq by (rewrite <- qn_0; by apply qn_lt).
    split; [|split; [|split]].
    + apply Qc_div_nonneg; [|done]. rewrite <- qn_0. apply qn_le. lia.
    + apply Qc_div_le_1; [|done]. apply qn_le. lia.
    + lia.
    + intros _. apply Qc_div_mult. intros Hz. rewrite Hz in Hq.
      by apply Qclt_not_eq in Hq.
  - rewrite qz_0. split; [done|]. split; [done|]. split; [done|]. lia.
Qed.

(** ** The cache system and its monitor *)

Section CacheSystem.
Context {V : Type}.
Implicit Types (m : MultiLevelCache V) (c : LRUCache V).

Lemma cache_within_step n c (o : cache_op) :
  cache_within n c -> cache_within n (cache_step c o).
Proof.
  intros (Hwf & Hsz & Hms).
  destruct (cache_step_inv c o Hwf Hsz) as (? & ? & ? & _).
  split; [done|]. split; [done|]. congruence.
Qed.

Lemma cache_within_clear n c : cache_within n c -> cache_within n (clear c).
Proof.
  intros (Hwf & Hsz & Hms). repeat split; cbn; first [apply NoDup_nil_2|lia|done].
Qed.

Lemma cache_within_cleanup n c t :
  cache_within n c ->
  is_ok (cleanup_expired t c).2 = true /\ cache_within n (cleanup_expired t c).1.
Proof.
  intros (Hwf & Hsz & Hms). split; [by rewrite cleanup_expired_spec|].
  destruct (cleanup_expired_inv t c Hwf Hsz) as (? & ? & ? & _).
  split; [done|]. split; [done|]. congruence.
Qed.

Lemma cache_within_init n (t : Qc) : cache_within n (@LRUCache_init V n t).
Proof. split; [apply LRUCache_init_wf|]. cbn. split; [lia|done]. Qed.

Lemma system_within_level l m :
  system_within m ->
  exists n, cache_within n (get_level l m)
            /\ forall c, cache_within n c -> system_within (set_level l c m).
Proof.
  intros (Hq & Hi & Ha). destruct l; [exists 500|exists 1000|exists 100];
    (split; [done|]); intros c Hc; unfold system_within; cbn; tauto.
Qed.

Lemma cleanup_expired_all_within t1 t2 t3 m :
  system_within m ->
  is_ok (cleanup_expired_all t1 t2 t3 m).2 = true
  /\ system_within (cleanup_expired_all t1 t2 t3 m).1.
Proof.
  intros (Hq & Hi & Ha). unfold cleanup_expired_all.
  destruct (cache_within_cleanup _ _ t1 Hq) as [Hok1 Hq'].
  destruct (cleanup_expired t1 (query_cache m)) as [q [n1|x]]; [|done]. cbn in *.
  destruct (cache_within_cleanup _ _ t2 Hi) as [Hok2 Hi'].
  destruct (cleanup_expired t2 (index_cache m)) as [i [n2|x]]; [|done]. cbn in *.
  destruct (cache_within_cleanup _ _ t3 Ha) as [Hok3 Ha'].
  destruct (cleanup_expired t3 (analytics_cache m)) as [a [n3|x]]; [|done]. cbn in *.
  split; [done|]. unfold system_within; cbn; tauto.
Qed.

Lemma system_step_within m (o : system_op) :
  system_within m -> system_within (system_step m o).
Proof.
  intros Hm. destruct o as [l o|l| |t1 t2 t3]; cbn.
  - destruct (system_within_level l m Hm) as (n & Hc & Hset).
    by apply Hset, cache_within_step.
  - destruct (system_within_level l m Hm) as (n & Hc & Hset).
    by apply Hset, cache_within_clear.
  - destruct Hm as (Hq & Hi & Ha).
    split; [|split]; by apply cache_within_clear.
  - by apply cleanup_expired_all_within.
Qed.

Lemma system_run_within (ops : list system_op) m :
  system_within m -> system_within (system_run ops m).
Proof.
  revert m. induction ops as [|o ops IH]; intros m Hm; [done|].
  cbn. by apply IH, system_step_within.
Qed.

Lemma system_init_within : system_within (@MultiLevelCache_init V).
Proof. split; [|split]; apply cache_within_init. Qed.

Lemma system_within_memory m :
  system_within m ->
  size_ (query_cache m) <= 500 /\ size_ (index_cache m) <= 1000
  /\ size_ (analytics_cache m) <= 100
  /\ (_estimate_memory_usage m <= 1049600)%Z.
Proof.
  intros ((_ & Hq & Hqm) & (_ & Hi & Him) & (_ & Ha & Ham)).
  unfold _estimate_memory_usage. lia.
Qed.

End CacheSystem.

(** X12. In the cache system every cache stays within its capacity (500
    query results, 1000 index items, 100 analytics items) whatever its
    clients do: at most 1600 items are held in all, the memory estimate
    never exceeds 1 049 600 bytes, and [cleanup_expired_all] never
    raises. *)
Theorem cache_system_within_capacity {V : Type} (ops : list (@system_op V)) :
  let m := system_run ops MultiLevelCache_init in
  size_ (query_cache m) <= 500
  /\ size_ (index_cache m) <= 1000
  /\ size_ (analytics_cache m) <= 100
  /\ total_memory_items (get_comprehensive_stats m) <= 1600
  /\ (_estimate_memory_usage m <= 1049600)%Z
  /\ forall t1 t2 t3, is_ok (cleanup_expired_all t1 t2 t3 m).2 = true.
Proof.
  intros m.
  pose proof (system_run_within ops _ (@system_init_within V)) as Hm. fold m in Hm.
  destruct (system_within_memory m Hm) as (Hq & Hi & Ha & Hmem).
  do 3 (split; [done|]). split; [cbn; lia|]. split; [done|].
  intros t1 t2 t3. by apply cleanup_expired_all_within.
Qed.

(** *** The monitor *)

Lemma monitor_run_snoc {V : Type} (snapshots : list (Qc * Qc * MultiLevelCache V))
  (s : Qc * Qc * MultiLevelCache V) (pm : PerformanceMonitor) :
  monitor_run (snapshots ++ [s]) pm
  = (record_performance_snapshot s.1.1 s.1.2 s.2 (monitor_run snapshots pm)).1.
Proof. unfold monitor_run. by rewrite foldl_app. Qed.

Lemma record_performance_snapshot_history {V : Type} (now now' : Qc)
  (m : MultiLevelCache V) (pm : PerformanceMonitor) :
  let r := record_performance_snapshot now now' m pm in
  length (performance_history pm) <= 100 ->
  start_time r.1 = start_time pm
  /\ length (performance_history r.1)
     = Nat.min (S (length (performance_history pm))) 100
  /\ last (performance_history r.1) = Some r.2
  /\ forall s, s ∈ performance_history r.1 ->
               s ∈ performance_history pm \/ s = r.2.
Proof.
  intros r Hlen. unfold r, record_performance_snapshot. cbn.
  set (snapshot := mkSnapshot _ _ _ _).
  split; [done|]. case_bool_decide as Hfull.
  - rewrite length_app in Hfull. cbn in Hfull.
    rewrite length_drop, length_app. cbn. split; [lia|]. split.
    + rewrite last_drop by (rewrite length_app; cbn; lia). apply last_snoc.
    + intros s Hs. apply list_elem_of_lookup in Hs as [i Hi].
      rewrite lookup_drop in Hi. apply list_elem_of_lookup_2 in Hi.
      apply elem_of_app in Hi as [?|Hi]; [by left|].
      right. by apply list_elem_of_singleton in Hi.
  - rewrite length_app in *. cbn in *. split; [lia|]. split; [apply last_snoc|].
    intros s Hs. apply elem_of_app in Hs as [?|Hs]; [by left|].
    right. by apply list_elem_of_singleton in Hs.
Qed.

(** X13. The monitor keeps the last 100 snapshots and no more. Its report
    is the error message before the first snapshot; from then on it is
    built from the latest snapshot, and it never advises on high memory
    usage: the 50 MB the estimate would have to exceed are out of the reach
    of the three caches. *)
Theorem get_performance_report_bounded {V : Type}
  (snapshots : list (Qc * Qc * list (@system_op V))) (start : Qc) :
  let states :=
    (fun s => (s.1.1, s.1.2, system_run s.2 MultiLevelCache_init)) <$> snapshots in
  let pm := monitor_run states (PerformanceMonitor_init start) in
  length (performance_history pm) = Nat.min (length snapshots) 100
  /\ match get_performance_report pm with
     | ReportError error =>
         snapshots = [] /\ error = "No performance data available"
     | Report latest trends history_length recommendations =>
         (exists now now' ops,
            last snapshots = Some (now, now', ops)
            /\ latest
               = mkSnapshot now (now' - start)%Qc
                   (get_comprehensive_stats (system_run ops MultiLevelCache_init))
                   (_estimate_memory_usage (system_run ops MultiLevelCache_init)))
         /\ history_length = Nat.min (length snapshots) 100
         /\ (high_memory ∉ recommendations)
         /\ (is_Some trends <-> 2 <= length snapshots)
     end.
Proof.
  intros states pm.
  assert (start_time pm = start
          /\ length (performance_history pm) = Nat.min (length snapshots) 100
          /\ last (performance_history pm)
             = (fun s => mkSnapshot s.1.1 (s.1.2 - start)%Qc
                           (get_comprehensive_stats s.2)
                           (_estimate_memory_usage s.2)) <$> last states) as Hinv.
  { unfold pm, states. clear. induction snapshots as [|s snapshots IH] using rev_ind.
    - done.
    - rewrite fmap_app. cbn [fmap list_fmap]. rewrite monitor_run_snoc.
      destruct IH as (Hst & Hlen & _).
      set (pm := monitor_run _ _) in *.
      destruct (record_performance_snapshot_history s.1.1 s.1.2
                  (system_run s.2 MultiLevelCache_init) pm ltac:(lia))
        as (Hst' & Hlen' & Hlast' & _).
      cbn [fst snd] in *. split; [congruence|]. split.
      + rewrite Hlen', Hlen, length_app. cbn. lia.
      + rewrite Hlast', last_snoc. cbn. unfold record_performance_snapshot. cbn.
        by rewrite Hst. }
  destruct Hinv as (Hst & Hlen & Hlast). split; [done|].
  unfold get_performance_report. rewrite Hlast. unfold states.
  rewrite fmap_last. destruct (last snapshots) as [[[now now'] ops]|] eqn:Hl; cbn.
  - split; [by exists now, now', ops|]. split; [done|]. split.
    + unfold _generate_recommendations. cbn [system_memory_estimate].
      pose proof (system_within_memory _
                    (system_run_within ops _ (@system_init_within V)))
        as (_ & _ & _ & Hmem).
      unfold system_run in Hmem.
      rewrite (bool_decide_eq_false_2 (_ < _)%Z) by lia.
      repeat case_decide; cbn; intros Hin;
        repeat (apply elem_of_cons in Hin as [Hin|Hin]; [done|]);
        by apply elem_of_nil in Hin.
    + rewrite Hlen. case_bool_decide as H2.
      * assert (length snapshots - 0 >= 2) by lia.
        destruct (performance_history pm !! _) eqn:Hp.
        -- split; [lia|eauto].
        -- apply lookup_ge_None in Hp. lia.
      * split; [by intros [? ?]|lia].
  - split; [|done]. by apply last_None in Hl.
Qed.

(** X11. No call raises on a cache of capacity at least 1: after any
    calls on a new cache, [get] and [cleanup_expired] return, and so does
    [put]. A cache of capacity 0 stays empty, and each [put] on it raises
    [StopIteration] and stores nothing. *)
Theorem cache_run_never_raises {V : Type} (ms : nat) (ttl0 : Qc)
  (ops : list (@cache_op V)) :
  let c := cache_run ops (LRUCache_init ms ttl0) in
  (forall now now' key, is_ok (get now now' key c).2 = true)
  /\ (forall t, is_ok (cleanup_expired t c).2 = true)
  /\ (1 <= ms -> forall t key value, (put t key value c).2 = Ok ())
  /\ (ms = 0 ->
      cache c = []
      /\ forall t key value, put t key value c = (c, Raise StopIteration)).
Proof.
  intros c.
  pose proof (LRUCache_init_wf (V := V) ms ttl0) as Hwf0.
  destruct (cache_run_inv ops (LRUCache_init ms ttl0) Hwf0 ltac:(cbn; lia))
    as (Hwf & Hsz & Hms & _).
  fold c in Hwf, Hsz, Hms. cbn in Hms.
  split; [intros now now' key; by destruct (get_counts now now' key c Hwf) as [? _]|].
  split; [intros t; by destruct (cleanup_expired_counts t c Hwf) as [? _]|].
  split.
  - intros Hpos t key value.
    destruct (put_counts t key value c Hwf) as (_ & _ & _ & Hok).
    apply Hok. lia.
  - intros ->. assert (cache c = []) as Hempty.
    { unfold size_ in Hsz. rewrite Hms in Hsz.
      destruct (cache c); [done|cbn in Hsz; lia]. }
    split; [done|]. intros t key value. by apply put_empty_full.
Qed.

(** ** The edit distance *)

Lemma edit_distance_nil_r (x : list ascii) : edit_distance x [] = length x.
Proof. by destruct x. Qed.

Lemma edit_distance_cons (c d : ascii) (x y : list ascii) :
  edit_distance (c :: x) (d :: y)
  = Nat.min (edit_distance x (d :: y) + 1)
      (Nat.min (edit_distance (c :: x) y + 1)
         (edit_distance x y + (if decide (c = d) then 0 else 1))).
Proof. done. Qed.

Lemma edit_distance_sym (x y : list ascii) :
  edit_distance x y = edit_distance y x.
Proof.
  revert y. induction x as [|c x IHx]; intros y.
  - by rewrite edit_distance_nil_r.
  - induction y as [|d y IHy]; [done|].
    rewrite !edit_distance_cons, IHy, (IHx (d :: y)), (IHx y).
    destruct (decide (c = d)), (decide (d = c)); try congruence; lia.
Qed.

Lemma edit_distance_refl (x : list ascii) : edit_distance x x = 0.
Proof.
  induction x as [|c x IH]; [done|].
  rewrite edit_distance_cons, IH, decide_True by done. lia.
Qed.

Lemma edit_distance_bounds (x y : list ascii) :
  length x - length y <= edit_distance x y
  /\ length y - length x <= edit_distance x y
  /\ edit_distance x y <= Nat.max (length x) (length y).
Proof.
  revert y. induction x as [|c x IHx]; intros y; [cbn; lia|].
  induction y as [|d y IHy]; [cbn; lia|].
  rewrite edit_distance_cons.
  pose proof (IHx (d :: y)). pose proof (IHx y).
  cbn [length] in *. destruct (decide (c = d)); lia.
Qed.

Lemma edit_distance_zero (x y : list ascii) : edit_distance x y = 0 -> x = y.
Proof.
  revert y. induction x as [|c x IHx]; intros y.
  - cbn. by destruct y.
  - induction y as [|d y IHy]; [done|].
    rewrite edit_distance_cons. intros H.
    destruct (decide (c = d)) as [->|]; [|lia].
    f_equal. apply IHx. lia.
Qed.

(** *** The rows of [_levenshtein_distance] *)

Lemma at_fmap_seq (f : nat -> nat) (n j : nat) :
  j < n -> at_ (f <$> seq 0 n) j = f j.
Proof.
  intros Hj. unfold at_. rewrite nth_lookup, list_lookup_fmap.
  by rewrite lookup_seq_lt.
Qed.

Lemma lev_inner_fold (c1 : ascii) (x s2 pre rest : list ascii) (cur : list nat) :
  s2 = pre ++ rest ->
  cur = (fun j => edit_distance (c1 :: x) (rev (take j s2))) <$> seq 0 (S (length pre)) ->
  foldl (lev_inner c1 (distance_row x s2)) cur
        (zip (seq (length pre) (length rest)) rest)
  = distance_row (c1 :: x) s2.
Proof.
  revert pre cur. induction rest as [|c2 rest IH]; intros pre cur Hs2 Hcur.
  - cbn. subst. by rewrite app_nil_r.
  - cbn [length seq zip zip_with foldl].
    replace (S (length pre)) with (length (pre ++ [c2]))
      by (rewrite length_app; cbn; lia).
    apply (IH (pre ++ [c2])).
    + subst. by rewrite <- app_assoc.
    + rewrite length_app. cbn [length]. rewrite Nat.add_1_r.
      rewrite (seq_S (S (length pre))), fmap_app. cbn [fmap list_fmap].
      unfold lev_inner. rewrite <- Hcur. f_equal. f_equal.
      assert (length pre < length s2) as Hlt.
      { subst s2. rewrite length_app. cbn. lia. }
      unfold distance_row. rewrite !at_fmap_seq by lia.
      rewrite Hcur, at_fmap_seq by lia.
      assert (take (length pre) s2 = pre) as Htake.
      { subst s2. by rewrite take_app_length. }
      assert (take (length pre + 1) s2 = pre ++ [c2]) as Htake'.
      { subst s2.
        replace (pre ++ c2 :: rest) with ((pre ++ [c2]) ++ rest)
          by (by rewrite <- app_assoc).
        apply take_app_length'. rewrite length_app. cbn. lia. }
      rewrite Htake, Htake'.
      replace (0 + S (length pre)) with (length pre + 1) by lia.
      rewrite Htake', rev_app_distr. cbn [rev app].
      by rewrite edit_distance_cons.
Qed.

Lemma lev_outer_fold (s2 pre rest : list ascii) :
  foldl (lev_outer s2) (distance_row (rev pre) s2)
        (zip (seq (length pre) (length rest)) rest)
  = distance_row (rev (pre ++ rest)) s2.
Proof.
  revert pre. induction rest as [|c1 rest IH]; intros pre.
  - cbn. by rewrite app_nil_r.
  - cbn [length seq zip zip_with foldl].
    replace (pre ++ c1 :: rest) with ((pre ++ [c1]) ++ rest)
      by (by rewrite <- app_assoc).
    replace (S (length pre)) with (length (pre ++ [c1]))
      by (rewrite length_app; cbn; lia).
    rewrite <- IH. f_equal. unfold lev_outer.
    rewrite rev_app_distr. cbn [rev app].
    apply (lev_inner_fold c1 (rev pre) s2 [] s2); [done|].
    cbn. by rewrite length_rev, Nat.add_1_r.
Qed.

Lemma lev_rows_edit_distance (s1 s2 : list ascii) :
  lev_rows s1 s2 = edit_distance (rev s1) (rev s2).
Proof.
  unfold lev_rows. case_bool_decide as Hz.
  - destruct s2; [|done]. by rewrite edit_distance_nil_r, length_rev.
  - assert (seq 0 (length s2 + 1) = distance_row [] s2) as ->.
    { unfold distance_row. rewrite Nat.add_1_r.
      rewrite <- (list_fmap_id (seq 0 (S (length s2)))) at 1.
      apply Forall_fmap_ext_1.
      apply Forall_forall. intros j Hj. apply elem_of_seq in Hj.
      cbn. rewrite length_rev, length_take. lia. }
    pose proof (lev_outer_fold s2 [] s1) as Hfold.
    cbn [app rev length] in Hfold. rewrite Hfold.
    unfold distance_row at 2. rewrite length_fmap, length_seq.
    replace (S (length s2) - 1) with (length s2) by lia.
    unfold distance_row. rewrite at_fmap_seq by lia.
    by rewrite firstn_all.
Qed.

Lemma length_chars (s : string) : length (chars s) = String.length s.
Proof. unfold chars. induction s as [|c s IH]; [done|]. cbn. by rewrite IH. Qed.

Lemma _levenshtein_distance_refines (s1 s2 : string) :
  _levenshtein_distance s1 s2
  = edit_distance (rev (chars s1)) (rev (chars s2)).
Proof.
  unfold _levenshtein_distance. case_bool_decide.
  - rewrite lev_rows_edit_distance. apply edit_distance_sym.
  - apply lev_rows_edit_distance.
Qed.

Lemma chars_inj (s1 s2 : string) : chars s1 = chars s2 -> s1 = s2.
Proof.
  revert s2. induction s1 as [|c s1 IH]; intros [|d s2]; cbn; try done.
  intros [= -> H]. f_equal. by apply IH.
Qed.

(** X14. [_levenshtein_distance] returns the edit distance of the two
    strings as its recurrence over their prefixes defines it: the row-wise
    computation, and its swap of a shorter first string, change nothing. *)
Theorem _levenshtein_distance_recurrence (s1 s2 : string) :
  _levenshtein_distance s1 s2
  = edit_distance (rev (chars s1)) (rev (chars s2)).
Proof. apply _levenshtein_distance_refines. Qed.

(** X15. The distance is symmetric, it is 0 exactly for equal strings, it
    is at least the difference of the lengths and at most the greater
    length; so the normalized similarity lies between 0 and 1, and it is 1
    exactly for equal strings. *)
Theorem _levenshtein_distance_metric (s1 s2 : string) :
  _levenshtein_distance s1 s2 = _levenshtein_distance s2 s1
  /\ (_levenshtein_distance s1 s2 = 0 <-> s1 = s2)
  /\ String.length s1 - String.length s2 <= _levenshtein_distance s1 s2
  /\ String.length s2 - String.length s1 <= _levenshtein_distance s1 s2
  /\ _levenshtein_distance s1 s2 <= Nat.max (String.length s1) (String.length s2)
  /\ (0 <= _levenshtein_similarity s1 s2)%Qc
  /\ (_levenshtein_similarity s1 s2 <= 1)%Qc
  /\ (_levenshtein_similarity s1 s2 = 1%Qc <-> s1 = s2).
Proof.
  rewrite !_levenshtein_distance_refines.
  pose proof (edit_distance_bounds (rev (chars s1)) (rev (chars s2))) as Hb.
  rewrite !length_rev, !length_chars in Hb.
  assert (edit_distance (rev (chars s1)) (rev (chars s2)) = 0 <-> s1 = s2) as Hz.
  { split.
    - intros H%edit_distance_zero. apply chars_inj.
      apply (f_equal (@rev ascii)) in H. by rewrite !rev_involutive in H.
    - intros ->. apply edit_distance_refl. }
  split; [apply edit_distance_sym|]. split; [done|].
  split; [lia|]. split; [lia|]. split; [lia|].
  unfold _levenshtein_similarity. rewrite _levenshtein_distance_refines.
  set (d := edit_distance _ _) in *.
  set (n := Nat.max _ _) in *.
  destruct (decide (n = 0)) as [Hn|Hn].
  - assert (String.length s1 = 0 /\ String.length s2 = 0) as [H1 H2] by lia.
    rewrite H1, H2. cbn. rewrite qz_1.
    split; [done|]. split; [done|]. split; [|done]. intros _.
    destruct s1, s2; done.
  - assert (bool_decide (String.length s1 = 0) && bool_decide (String.length s2 = 0)
            = false) as ->.
    { apply andb_false_iff.
      destruct (decide (String.length s1 = 0)); [right|left];
        apply bool_decide_eq_false; lia. }
    rewrite (bool_decide_eq_false_2 (n = 0)) by done.
    assert (0 < qn n)%Qc as Hq by (rewrite <- qn_0; apply qn_lt; lia).
    assert (qn d / qn n <= 1)%Qc as Hle by (apply Qc_div_le_1; [apply qn_le; lia|done]).
    assert (0 <= qn d / qn n)%Qc as Hge.
    { apply Qc_div_nonneg; [|done]. rewrite <- qn_0. apply qn_le. lia. }
    rewrite qz_1. split; [|split].
    + apply Qcle_minus_iff in Hle. exact Hle.
    + apply Qcle_minus_iff.
      replace (1 + - (1 - qn d / qn n))%Qc with (qn d / qn n)%Qc by ring. done.
    + rewrite <- Hz. split.
      * intros H1.
        assert (qn d / qn n = 0)%Qc as H0.
        { replace (qn d / qn n)%Qc with (1 - (1 - qn d / qn n))%Qc by ring.
          rewrite H1. ring. }
        assert (qn d = 0%Qc) as Hd.
        { assert (qn d = qn d / qn n * qn n)%Qc as Hd'.
          { symmetry. apply Qc_div_mult. intros Hz'. rewrite Hz' in Hq.
            by apply Qclt_not_eq in Hq. }
          rewrite Hd', H0. ring. }
        destruct (decide (d = 0)) as [|Hd0]; [done|].
        assert (0 < qn d)%Qc as Hpos by (rewrite <- qn_0; apply qn_lt; lia).
        rewrite Hd in Hpos. by apply Qclt_not_eq in Hpos.
      * intros ->. rewrite qn_0. unfold Qcdiv. ring.
Qed.

(** ** The range of the Jaro similarity *)

Lemma qz_3 : qz 3 = (1 + 1 + 1)%Qc.
Proof. by apply Qc_is_canon. Qed.

Lemma qz_2_pos : (0 < qz 2)%Qc.
Proof. done. Qed.

Lemma qz_3_pos : (0 < qz 3)%Qc.
Proof. done. Qed.

Lemma qn_nonneg (n : nat) : (0 <= qn n)%Qc.
Proof. rewrite <- qn_0. apply qn_le. lia. Qed.

(** The mean of three scores between 0 and 1. *)
Lemma Qc_mean_range (x y z : Qc) :
  (0 <= x)%Qc -> (x <= 1)%Qc -> (0 <= y)%Qc -> (y <= 1)%Qc ->
  (0 <= z)%Qc -> (z <= 1)%Qc ->
  (0 <= (x + y + z) / qz 3)%Qc /\ ((x + y + z) / qz 3 <= 1)%Qc.
Proof.
  intros Hx0 Hx1 Hy0 Hy1 Hz0 Hz1. split.
  - apply Qc_div_nonneg; [|apply qz_3_pos].
    replace 0%Qc with (0 + 0 + 0)%Qc by ring.
    by repeat apply Qcplus_le_compat.
  - apply Qc_div_le_1; [|apply qz_3_pos]. rewrite qz_3.
    by repeat apply Qcplus_le_compat.
Qed.

Lemma matched_chars_length (f : list bool) (s : list ascii) :
  length (matched_chars f s) <= length s.
Proof.
  revert s. induction f as [|b f IH]; intros s; [cbn; lia|].
  destruct s as [|c s]; [by destruct b|].
  specialize (IH s). destruct b; cbn; lia.
Qed.

Lemma misaligned_length (x y : list ascii) : misaligned x y <= length x.
Proof.
  revert y. induction x as [|c x IH]; intros y; [done|].
  destruct y as [|d y]; cbn; [lia|].
  specialize (IH y). destruct (decide (c = d)); lia.
Qed.

Lemma misaligned_same (x : list ascii) : misaligned x x = 0.
Proof. induction x as [|c x IH]; [done|]. cbn. by rewrite decide_True, IH. Qed.

Lemma matched_chars_all (s : list ascii) :
  matched_chars (replicate (length s) true) s = s.
Proof. induction s as [|c s IH]; [done|]. cbn. by rewrite IH. Qed.

Lemma jaro_spec_range (s1 s2 : string) :
  (0 <= jaro_spec s1 s2)%Qc /\ (jaro_spec s1 s2 <= 1)%Qc.
Proof.
  unfold jaro_spec.
  destruct (chars s1) as [|c1 a] eqn:Ha; destruct (chars s2) as [|c2 b] eqn:Hb;
    try done.
  set (x := c1 :: a). set (y := c2 :: b).
  destruct (jaro_matching _ y 0 x _) as [m1 m2] eqn:Hm.
  case_bool_decide as Hz; [done|].
  pose proof (jaro_matching_count _ y 0 x (replicate (length y) false) m1 m2
                (length_replicate _ _) Hm) as Hcount.
  rewrite matched_chars_replicate_false in Hcount. cbn [length] in Hcount.
  pose proof (matched_chars_length m1 x) as Hle1.
  pose proof (matched_chars_length m2 y) as Hle2.
  pose proof (misaligned_length (matched_chars m1 x) (matched_chars m2 y)) as Hmis.
  set (m := length (matched_chars m1 x)) in *.
  set (t := misaligned _ _) in *.
  assert (0 < qn m)%Qc as Hm0 by (rewrite <- qn_0; apply qn_lt; lia).
  assert (0 < qn (length x))%Qc as Hx0 by (rewrite <- qn_0; apply qn_lt; lia).
  assert (0 < qn (length y))%Qc as Hy0 by (rewrite <- qn_0; apply qn_lt; lia).
  assert (0 <= qn t / qz 2)%Qc as Ht0.
  { apply Qc_div_nonneg; [apply qn_nonneg|apply qz_2_pos]. }
  assert (qn t / qz 2 <= qn m)%Qc as Ht1.
  { apply Qcle_trans with (qn t); [|apply qn_le; lia].
    apply (Qcmult_lt_0_le_reg_r _ _ (qz 2)); [apply qz_2_pos|].
    rewrite Qc_div_mult by done.
    replace (qn t) with (qn t * 1)%Qc at 1 by ring.
    rewrite !(Qcmult_comm (qn t)). apply Qcmult_le_compat_r; [done|apply qn_nonneg]. }
  apply Qc_mean_range.
  - apply Qc_div_nonneg; [apply qn_nonneg|done].
  - apply Qc_div_le_1; [apply qn_le; lia|done].
  - apply Qc_div_nonneg; [apply qn_nonneg|done].
  - apply Qc_div_le_1; [apply qn_le; lia|done].
  - apply Qc_div_nonneg; [|done]. by apply Qcle_minus_iff in Ht1.
  - apply Qc_div_le_1; [|done]. apply Qcle_minus_iff.
    replace (qn m + - (qn m - qn t / qz 2))%Qc with (qn t / qz 2)%Qc by ring.
    done.
Qed.

(** *** A string and itself *)

Lemma first_unmatched_same (w : nat) (pre rest : list ascii) (c : ascii) :
  let s := pre ++ c :: rest in
  let i := length pre in
  first_unmatched c s
    (replicate i true ++ replicate (S (length rest)) false)
    (i - w) (Nat.min (i + w + 1) (length s))
  = Some i.
Proof.
  intros s i. unfold first_unmatched.
  set (f2 := replicate i true ++ _).
  set (lo := i - w). set (hi := Nat.min (i + w + 1) (length s)).
  assert (length s = i + S (length rest)) as Hlen.
  { unfold s, i. rewrite length_app. done. }
  assert (list_find (fun j => f2 !! j = Some false /\ s !! j = Some c)
            (seq lo (hi - lo)) = Some (i - lo, i)) as ->; [|done].
  apply list_find_Some. split; [|split].
  - rewrite lookup_seq. split; [|lia]. unfold lo. lia.
  - split.
    + unfold f2. rewrite lookup_app_r by (rewrite length_replicate; lia).
      rewrite length_replicate, Nat.sub_diag. done.
    + unfold s, i. by apply list_lookup_middle.
  - intros j y Hy Hj. apply lookup_seq in Hy as [-> _].
    intros [Hf _]. unfold f2 in Hf.
    rewrite lookup_app_l in Hf by (rewrite length_replicate; lia).
    apply lookup_replicate in Hf as [? _]. done.
Qed.

Lemma jaro_matching_same (w : nat) (rest pre : list ascii) :
  jaro_matching w (pre ++ rest) (length pre) rest
    (replicate (length pre) true ++ replicate (length rest) false)
  = (replicate (length rest) true, replicate (length (pre ++ rest)) true).
Proof.
  revert pre. induction rest as [|c rest IH]; intros pre.
  - cbn. by rewrite !app_nil_r.
  - cbn [jaro_matching length].
    rewrite (first_unmatched_same w pre rest c).
    assert (<[length pre := true]>
              (replicate (length pre) true ++ replicate (S (length rest)) false)
            = replicate (length (pre ++ [c])) true ++ replicate (length rest) false)
      as ->.
    { rewrite insert_app_r_alt by (rewrite length_replicate; lia).
      rewrite length_replicate, Nat.sub_diag. cbn.
      rewrite length_app. cbn. rewrite replicate_add. cbn.
      by rewrite <- app_assoc. }
    replace (S (length pre)) with (length (pre ++ [c]))
      by (rewrite length_app; cbn; lia).
    replace (pre ++ c :: rest) with ((pre ++ [c]) ++ rest)
      by (by rewrite <- app_assoc).
    by rewrite IH.
Qed.

Lemma jaro_spec_same (s : string) : jaro_spec s s = qz 1.
Proof.
  unfold jaro_spec. destruct (chars s) as [|c a] eqn:Ha; [done|].
  set (x := c :: a).
  pose proof (jaro_matching_same (jaro_window (length x) (length x)) x []) as Hm.
  cbn [app length replicate] in Hm. rewrite Hm.
  rewrite !matched_chars_all, misaligned_same.
  rewrite bool_decide_eq_false_2 by done.
  assert (qn (length x) <> 0%Qc) as Hx.
  { intros Hz. assert (0 < qn (length x))%Qc as Hpos
      by (rewrite <- qn_0; apply qn_lt; cbn; lia).
    rewrite Hz in Hpos. by apply Qclt_not_eq in Hpos. }
  set (q := qn (length x)) in *.
  assert (q / q = 1)%Qc as Hqq by (by apply Qcmult_inv_r).
  rewrite qn_0.
  replace (q - 0 / qz 2)%Qc with q by (unfold Qcdiv; ring).
  rewrite Hqq. rewrite qz_3, qz_1. apply Qcmult_inv_r. done.
Qed.

(** X16. [_jaro_similarity] never raises, its value lies between 0 and 1,
    and a string is at similarity 1 from itself. *)
Theorem _jaro_similarity_range (s1 s2 : string) :
  (exists jaro,
     _jaro_similarity s1 s2 = Ok jaro /\ (0 <= jaro)%Qc /\ (jaro <= 1)%Qc)
  /\ _jaro_similarity s1 s1 = Ok (qz 1).
Proof.
  split.
  - exists (jaro_spec s1 s2). split; [apply _jaro_similarity_refines|].
    apply jaro_spec_range.
  - by rewrite _jaro_similarity_refines, jaro_spec_same.
Qed.

(** ** What the fuzzy matcher keeps *)

Section FuzzyComplete.
Variable ratio : string -> string -> Qc.
Variable threshold : Qc.

Lemma fuzzy_fold_candidates query_term (corpus_terms : list string)
  (acc : list FuzzyMatch) :
  foldl (fuzzy_step ratio threshold query_term (lower query_term)) (Ok acc)
        corpus_terms
  = Ok (acc ++ omap (candidate ratio threshold query_term) corpus_terms).
Proof.
  revert acc. induction corpus_terms as [|term corpus_terms IH]; intros acc.
  - cbn. by rewrite app_nil_r.
  - cbn [foldl omap list_omap]. unfold fuzzy_step at 2. cbn [mbind result_bind].
    destruct (candidate ratio threshold query_term term) as [m|] eqn:Hc; unfold candidate in Hc;
      case_bool_decide as Heq; try done.
    + rewrite _jaro_similarity_refines. cbn [mbind result_bind].
      fold (best_similarity ratio query_term term).
      destruct (decide _) as [Hthr|Hthr]; [|done]. injection Hc as <-.
      rewrite IH. by rewrite <- app_assoc.
    + rewrite _jaro_similarity_refines. cbn [mbind result_bind].
      fold (best_similarity ratio query_term term).
      destruct (decide _) as [Hthr|Hthr]; [done|]. apply IH.
Qed.

End FuzzyComplete.

(** X17. [find_fuzzy_matches] loses no term but to the limit: a corpus
    term that differs from the query after lower-casing and scores at
    least the threshold is among the matches returned, with its score, or
    else [max_results] matches are returned and each of them scores at
    least as much as the term. *)
Theorem find_fuzzy_matches_complete (ratio : string -> string -> Qc)
  (similarity_threshold : Qc) (query_term : string)
  (corpus_terms : list string) (max_results : nat) :
  exists matches,
    find_fuzzy_matches ratio similarity_threshold query_term corpus_terms
      max_results = Ok matches
    /\ forall term jaro,
         term ∈ corpus_terms ->
         lower term <> lower query_term ->
         _jaro_similarity (lower query_term) (lower term) = Ok jaro ->
         let best :=
           py_max (ratio (lower query_term) (lower term))
                  [jaro; _levenshtein_similarity (lower query_term) (lower term)] in
         (similarity_threshold <= best)%Qc ->
         mkFuzzyMatch query_term term best "corpus" ∈ matches
         \/ (length matches = max_results
             /\ forall m, m ∈ matches -> (best <= similarity m)%Qc).
Proof.
  unfold find_fuzzy_matches. rewrite fuzzy_fold_candidates.
  cbn [mbind result_bind app]. eexists. split; [done|].
  intros term jaro Hin Hne Hjaro Hthr.
  rewrite _jaro_similarity_refines in Hjaro. injection Hjaro as <-.
  fold (best_similarity ratio query_term term) in *.
  set (best := best_similarity ratio query_term term) in *.
  set (found := omap (candidate ratio similarity_threshold query_term) corpus_terms).
  set (m0 := mkFuzzyMatch query_term term best "corpus").
  assert (m0 ∈ found) as Hfound.
  { apply list_elem_of_omap. exists term. split; [done|].
    unfold candidate. rewrite bool_decide_eq_false_2 by congruence.
    fold best. by rewrite decide_True. }
  pose proof (sort_desc_sorted similarity found) as Hsorted.
  assert (m0 ∈ sort_desc similarity found) as Hs by (by rewrite sort_desc_Permutation).
  apply list_elem_of_lookup in Hs as [i Hi].
  destruct (decide (i < max_results)) as [Hlt|Hge].
  - left. apply list_elem_of_lookup. exists i. by rewrite lookup_take_lt.
  - right. apply lookup_lt_Some in Hi as Hlen.
    split; [rewrite length_take; lia|].
    intros m Hm. apply list_elem_of_lookup in Hm as [j Hj].
    apply lookup_take_Some in Hj as [Hj Hjlt].
    change best with (similarity m0).
    exact (StronglySorted_lookup _ _ j i m m0 Hsorted Hj Hi ltac:(lia)).
Qed.

(** ** Composing facet filters *)

Lemma passes_filters_app product filters1 filters2 :
  passes_filters product (filters1 ++ filters2)
  <-> passes_filters product filters1 /\ passes_filters product filters2.
Proof.
  unfold passes_filters. split.
  - intros H. split; intros n s Hin Hne; apply H; try done;
      apply elem_of_app; auto.
  - intros [H1 H2] n s [Hin|Hin]%elem_of_app Hne; [by apply H1|by apply H2].
Qed.

Lemma filter_by_facets_subseteq (products : list (gmap string string))
  (product_ids : gset string) (filters : list (string * list string)) :
  filter_by_facets products product_ids filters ⊆ product_ids.
Proof.
  destruct filters as [|f filters]; [done|].
  intros x Hx. by apply elem_of_filter_by_facets in Hx as [? _].
Qed.

(** X18. Facet filters compose. The result is part of the candidate ids and
    grows with them; filtering a result again by the same filters changes
    nothing; the order of the filters does not matter; and, when no two
    products share an id, filtering by one set of filters and then by
    another is filtering by both at once. *)
Theorem filter_by_facets_compose (products : list (gmap string string))
  (product_ids : gset string) (filters1 filters2 : list (string * list string)) :
  NoDup ((fun product => doc_get product "id" "") <$> products) ->
  filter_by_facets products
    (filter_by_facets products product_ids filters1) filters2
  = filter_by_facets products product_ids (filters1 ++ filters2)
  /\ filter_by_facets products
       (filter_by_facets products product_ids filters1) filters1
     = filter_by_facets products product_ids filters1
  /\ filter_by_facets products product_ids filters1 ⊆ product_ids
  /\ (forall product_ids', product_ids ⊆ product_ids' ->
        filter_by_facets products product_ids filters1
        ⊆ filter_by_facets products product_ids' filters1)
  /\ (filters1 ≡ₚ filters2 ->
      filter_by_facets products product_ids filters1
      = filter_by_facets products product_ids filters2).
Proof.
  intros Hnd. split; [|split; [|split; [|split]]].
  - destruct filters1 as [|f1 filters1]; [done|].
    destruct filters2 as [|f2 filters2]; [by rewrite app_nil_r|].
    apply set_eq. intros x.
    rewrite <- app_comm_cons, !elem_of_filter_by_facets. split.
    + intros [(Hx & p & Hp & Hid & H1) (q & Hq & Hid' & H2)].
      assert (q = p) as -> by (eapply NoDup_fmap_elem_inj; [exact Hnd|done..|congruence]).
      split; [done|]. exists p. split; [done|]. split; [done|].
      rewrite app_comm_cons. by apply passes_filters_app.
    + intros (Hx & p & Hp & Hid & H12).
      rewrite app_comm_cons in H12. apply passes_filters_app in H12 as [H1 H2].
      split; [|by exists p]. split; [done|]. by exists p.
  - destruct filters1 as [|f1 filters1]; [done|].
    apply set_eq. intros x. rewrite !elem_of_filter_by_facets. tauto.
  - apply filter_by_facets_subseteq.
  - intros ids' Hsub. destruct filters1 as [|f1 filters1]; [done|].
    intros x. rewrite !elem_of_filter_by_facets. set_solver.
  - intros Hperm. destruct filters1 as [|f1 filters1].
    { apply Permutation_nil_l in Hperm. by subst. }
    destruct filters2 as [|f2 filters2].
    { by apply Permutation_nil_r in Hperm. }
    apply set_eq. intros x. rewrite !elem_of_filter_by_facets.
    unfold passes_filters. setoid_rewrite Hperm. done.
Qed.

Lemma filter_by_facets_compose_witness :
  let products : list (gmap string string) :=
    [ {[ "id" := "1"; "Brand" := "Samsung"; "Type" := "Phone" ]};
      {[ "id" := "2"; "Brand" := "Apple"; "Type" := "Phone" ]};
      {[ "id" := "3"; "Brand" := "Samsung"; "Type" := "Speaker" ]} ] in
  NoDup ((fun product => doc_get product "id" "") <$> products)
  /\ filter_by_facets products
       (filter_by_facets products {[ "1"; "2"; "3" ]} [("brand", ["Samsung"])])
       [("category", ["Audio"])]
     = filter_by_facets products {[ "1"; "2"; "3" ]}
         [("brand", ["Samsung"]); ("category", ["Audio"])].
Proof.
  intros products.
  assert (H : NoDup ((fun product => doc_get product "id" "") <$> products)).
  { apply (bool_decide_unpack _). by vm_compute. }
  split; [exact H|].
  exact (proj1 (filter_by_facets_compose products {[ "1"; "2"; "3" ]}
                  [("brand", ["Samsung"])] [("category", ["Audio"])] H)).
Defined.

(** ** Keywords within keywords *)

Lemma string_app_cons (c : ascii) (s t : string) :
  (String c s ++ t = String c (s ++ t))%string.
Proof. done. Qed.

Lemma string_app_assoc (s1 s2 s3 : string) :
  (s1 ++ (s2 ++ s3) = (s1 ++ s2) ++ s3)%string.
Proof.
  induction s1 as [|c s1 IH]; [done|]. by rewrite !string_app_cons, IH.
Qed.

Lemma is_prefix_spec (p s : string) :
  is_prefix p s = true <-> exists suf, s = (p ++ suf)%string.
Proof.
  revert s. induction p as [|a p IH]; intros s; cbn [is_prefix].
  - split; [|done]. intros _. by exists s.
  - destruct s as [|b s].
    + split; [done|]. by intros [suf ?].
    + destruct (decide (a = b)) as [->|Hne].
      * rewrite IH. split; intros [suf Hs]; exists suf.
        -- by rewrite string_app_cons, Hs.
        -- rewrite string_app_cons in Hs. by injection Hs.
      * split; [done|]. intros [suf Hs]. rewrite string_app_cons in Hs.
        injection Hs as ? _. done.
Qed.

Lemma contains_spec (needle haystack : string) :
  contains needle haystack = true
  <-> exists pre suf, haystack = (pre ++ needle ++ suf)%string.
Proof.
  induction haystack as [|c h IH].
  - cbn [contains]. rewrite orb_false_r, is_prefix_spec. split.
    + intros [suf Hs]. by exists "", suf.
    + intros (pre & suf & Hs). destruct pre; [by exists suf|done].
  - cbn [contains]. rewrite orb_true_iff, IH, is_prefix_spec. split.
    + intros [[suf Hs]|(pre & suf & Hs)].
      * by exists "", suf.
      * exists (String c pre), suf. by rewrite string_app_cons, Hs.
    + intros (pre & suf & Hs). destruct pre as [|d pre].
      * left. by exists suf.
      * right. rewrite string_app_cons in Hs. injection Hs as -> ->.
        by exists pre, suf.
Qed.

(** A text that contains a keyword contains what the keyword contains. *)
Lemma contains_trans (a b c : string) :
  contains a b = true -> contains b c = true -> contains a c = true.
Proof.
  rewrite !contains_spec. intros (p1 & s1 & ->) (p2 & s2 & ->).
  exists (p2 ++ p1)%string, (s1 ++ s2)%string.
  by rewrite <- !string_app_assoc.
Qed.

Lemma upper_lower_char (c : ascii) : lower_char (upper_char c) = lower_char c.
Proof. by destruct c as [[] [] [] [] [] [] [] []]. Qed.

Lemma lower_upper (s : string) : lower (upper s) = lower s.
Proof.
  unfold lower, upper. induction s as [|c s IH]; [done|].
  cbn. by rewrite upper_lower_char, IH.
Qed.

Lemma any_in_cons keyword keywords text :
  any_in (keyword :: keywords) text = contains keyword text || any_in keywords text.
Proof. done. Qed.

(** X19. Some keywords of [_infer_category] never decide: a type that
    contains [headphone] or [earphone] contains [phone], and is put under
    Mobile & Tablets, not Audio; a type that contains [skincare] contains
    [car], and is put under Automotive, or a category tested before it,
    never under Beauty. Audio is reached through [speaker] or [audio] only.
    For a type of ASCII characters the letter case does not matter. *)
Theorem _infer_category_shadowed (product_type : string) :
  let type_lower := lower product_type in
  (contains "headphone" type_lower = true \/ contains "earphone" type_lower = true ->
   _infer_category product_type = "Mobile & Tablets")
  /\ (contains "skincare" type_lower = true ->
      _infer_category product_type
      ∈ ["Mobile & Tablets"; "Computers"; "Audio"; "Automotive"])
  /\ (_infer_category product_type = "Audio" ->
      contains "speaker" type_lower = true \/ contains "audio" type_lower = true)
  /\ (isascii product_type = true ->
      _infer_category (upper product_type) = _infer_category product_type).
Proof.
  intros type_lower.
  assert (forall keyword, contains "phone" keyword = true ->
            contains keyword type_lower = true ->
            _infer_category product_type = "Mobile & Tablets") as Hphone.
  { intros keyword Hk Ht. unfold _infer_category. fold type_lower.
    rewrite any_in_cons, (contains_trans _ _ _ Hk Ht). done. }
  split; [|split; [|split]].
  - intros [H|H]; eapply Hphone; try exact H; done.
  - intros H. assert (contains "car" type_lower = true) as Hcar
      by (eapply contains_trans; [|exact H]; done).
    unfold _infer_category. fold type_lower.
    do 3 (destruct (any_in _ type_lower); [rewrite !elem_of_cons; by auto 10|]).
    rewrite any_in_cons, Hcar. cbn [orb]. rewrite !elem_of_cons. by auto 10.
  - unfold _infer_category. fold type_lower.
    destruct (any_in ["phone"; "mobile"; "smartphone"; "tablet"] type_lower) eqn:H1;
      [done|].
    destruct (any_in ["laptop"; "computer"; "pc"; "desktop"] type_lower) eqn:H2;
      [done|].
    destruct (any_in ["headphone"; "earphone"; "speaker"; "audio"] type_lower) eqn:H3.
    + intros _. rewrite any_in_cons in H1. apply orb_false_iff in H1 as [H1 _].
      rewrite !any_in_cons in H3. cbn [any_in existsb] in H3.
      rewrite orb_false_r in H3.
      destruct (contains "headphone" type_lower) eqn:Hh.
      { rewrite (contains_trans "phone" "headphone" type_lower) in H1; done. }
      destruct (contains "earphone" type_lower) eqn:He.
      { rewrite (contains_trans "phone" "earphone" type_lower) in H1; done. }
      cbn in H3. apply orb_true_iff in H3. done.
    + repeat (destruct (any_in _ type_lower); [done|]). done.
  - intros _. unfold _infer_category. by rewrite lower_upper.
Qed.

Example _infer_category_examples :
  _infer_category "Wireless Headphones" = "Mobile & Tablets"
  /\ _infer_category "Skincare Kit" = "Automotive"
  /\ _infer_category "Bluetooth Speaker" = "Audio".
Proof. repeat split; by vm_compute. Qed.

Lemma filter_length_two {A} (P : A -> Prop) `{!forall x, Decision (P x)}
  (l1 l2 l3 : list A) (x y : A) :
  P x -> P y -> 2 <= length (filter P (l1 ++ x :: l2 ++ y :: l3)).
Proof.
  intros Hx Hy. rewrite filter_app, filter_cons, decide_True by done.
  rewrite filter_app, filter_cons, decide_True by done.
  rewrite !length_app. cbn. rewrite length_app. cbn. lia.
Qed.

(** X20. [_has_detailed_specs] at its edges: a record without a sales
    package, or with an empty one, has no detailed specs; one whose sales
    package is longer than 200 characters has; and so has one that
    mentions [ghz], which counts for [hz] too. *)
Theorem _has_detailed_specs_cases (product : gmap string string) :
  let sales_package := doc_get product "Sales Package" "" in
  (product !! "Sales Package" = None -> _has_detailed_specs product = false)
  /\ (sales_package = "" -> _has_detailed_specs product = false)
  /\ (200 < String.length sales_package -> _has_detailed_specs product = true)
  /\ (contains "ghz" (lower sales_package) = true ->
      _has_detailed_specs product = true).
Proof.
  intros sales_package. unfold _has_detailed_specs. fold sales_package.
  split; [|split; [|split]].
  - intros Hnone. unfold sales_package, doc_get. by rewrite Hnone.
  - intros ->. done.
  - intros Hlen. rewrite bool_decide_eq_false_2 by (intros Hs; rewrite Hs in Hlen; cbn in Hlen; lia).
    apply orb_true_iff. right. by apply Nat.ltb_lt.
  - intros Hghz.
    assert (sales_package <> "") as Hne by (intros Hs; by rewrite Hs in Hghz).
    rewrite bool_decide_eq_false_2 by done.
    apply orb_true_iff. left. apply Nat.leb_le.
    apply (filter_length_two _ ["gb"; "mb"; "inch"; "mp"; "mah"] []
             ["ram"; "storage"; "battery"] "hz" "ghz").
    + apply Is_true_true. eapply contains_trans; [|exact Hghz]. done.
    + by apply Is_true_true.
Qed.

(** ** What [validate_query] lets through *)

Lemma chars_str_filter (keep : ascii -> bool) (s : string) :
  chars (str_filter keep s) = filter (fun c => keep c = true) (chars s).
Proof.
  unfold chars. induction s as [|c s IH]; [done|]. cbn [str_filter].
  cbn [String.list_ascii_of_string]. rewrite filter_cons.
  destruct (keep c) eqn:Hk.
  - rewrite decide_True by done. cbn. by rewrite IH.
  - by rewrite decide_False by done.
Qed.

Lemma chars_str_take (n : nat) (s : string) :
  chars (str_take n s) = take n (chars s).
Proof.
  unfold chars. revert n. induction s as [|c s IH]; intros [|n]; try done.
  cbn. by rewrite IH.
Qed.

Lemma chars_str_rev_app (s acc : string) :
  chars (str_rev_app s acc) = rev_append (chars s) (chars acc).
Proof.
  unfold chars. revert acc. induction s as [|c s IH]; intros acc; [done|].
  cbn. by rewrite IH.
Qed.

Lemma chars_str_rev (s : string) : chars (str_rev s) = reverse (chars s).
Proof. unfold str_rev. by rewrite chars_str_rev_app. Qed.

Lemma chars_lstrip_sublist (s : string) : chars (lstrip s) `sublist_of` chars s.
Proof.
  unfold chars. induction s as [|c s IH]; [done|]. cbn.
  destruct (is_space c); [by apply sublist_cons|done].
Qed.

Lemma sublist_reverse {A} (l k : list A) :
  l `sublist_of` k -> reverse l `sublist_of` reverse k.
Proof.
  induction 1 as [|x l k _ IH|x l k _ IH]; [done| |].
  - rewrite !reverse_cons. by apply sublist_app.
  - rewrite reverse_cons. by apply sublist_inserts_r.
Qed.

Lemma chars_strip_sublist (s : string) : chars (strip s) `sublist_of` chars s.
Proof.
  unfold strip. rewrite chars_str_rev.
  transitivity (chars (lstrip s)); [|apply chars_lstrip_sublist].
  assert (chars (lstrip s) = reverse (chars (str_rev (lstrip s)))) as Hrev
    by (by rewrite chars_str_rev, reverse_involutive).
  rewrite Hrev. apply sublist_reverse, chars_lstrip_sublist.
Qed.

(** X21. [validate_query] rejects exactly the queries that are empty after
    trimming, with a [ValidationError]. What it accepts it returns as a
    part of the query, in order, that is at most 500 characters long and
    holds no angle bracket and no quote; the result may be empty. *)
Theorem validate_query_sanitized (query : string) :
  match validate_query query with
  | Ok cleaned_query =>
      strip query <> ""
      /\ String.length cleaned_query <= 500
      /\ Forall (fun c => is_dangerous c = false) (chars cleaned_query)
      /\ chars cleaned_query `sublist_of` chars query
  | Raise x => strip query = "" /\ exists msg, x = ValidationError msg
  end
  /\ validate_query "<'>" = Ok "".
Proof.
  split; [|by vm_compute].
  destruct (decide (strip query = "")) as [Hs|Hs].
  - destruct (validate_query_empty query Hs) as [msg ->]. split; [done|by exists msg].
  - rewrite validate_query_valid by done. split; [done|].
    rewrite <- length_chars, chars_str_filter, chars_str_take.
    split; [|split].
    + etransitivity; [apply sublist_length, sublist_filter|].
      rewrite length_take. lia.
    + apply Forall_forall. intros c Hc. apply list_elem_of_filter in Hc as [Hc _].
      by apply negb_true_iff in Hc.
    + etransitivity; [apply sublist_filter|].
      etransitivity; [apply sublist_take|]. apply chars_strip_sublist.
Qed.

(** ** The inverted index *)

Lemma index_append_lookup (idx : gmap string (list string)) (pid word w : string) :
  index_append idx pid word !! w
  = if decide (word = w) then Some (default [] (idx !! w) ++ [pid]) else idx !! w.
Proof.
  unfold index_append. case_decide as Hw.
  - subst. by rewrite lookup_insert_eq.
  - by rewrite lookup_insert_ne.
Qed.

Lemma index_words_postings (pid : string) (words : list string)
  (idx : gmap string (list string)) (w x : string) :
  let idx' := foldl (fun idx word => index_append idx pid word) idx words in
  (x ∈ default [] (idx' !! w)
   <-> x ∈ default [] (idx !! w) \/ (x = pid /\ w ∈ words))
  /\ (is_Some (idx' !! w) <-> is_Some (idx !! w) \/ w ∈ words).
Proof.
  revert idx. induction words as [|word words IH]; intros idx; cbn.
  - split; (split; [by left|]); intros [?|H]; try done.
    + destruct H as [_ H]. by apply elem_of_nil in H.
    + by apply elem_of_nil in H.
  - destruct (IH (index_append idx pid word)) as [IH1 IH2]. cbn in IH1, IH2.
    rewrite IH1, IH2, index_append_lookup. clear IH IH1 IH2.
    rewrite !elem_of_cons. case_decide as Hw; cbn.
    + subst. rewrite elem_of_app, list_elem_of_singleton. split.
      * split; [naive_solver|]. intros [?|[-> [?|?]]]; eauto.
      * split; [eauto|]. intros _. left. done.
    + split; [naive_solver|]. split; [naive_solver|].
      intros [?|[?|?]]; [by left|congruence|by right].
Qed.

Lemma build_index_fold (products : list (gmap string value))
  (idx : gmap string (list string)) (w x : string) :
  let idx' :=
    foldl (fun idx product =>
             foldl (fun idx word => index_append idx (id_of product) word)
                   idx (product_words product))
          idx products in
  (x ∈ default [] (idx' !! w)
   <-> x ∈ default [] (idx !! w)
       \/ exists product, product ∈ products /\ id_of product = x
                          /\ w ∈ product_words product)
  /\ (is_Some (idx' !! w)
      <-> is_Some (idx !! w)
          \/ exists product, product ∈ products /\ w ∈ product_words product).
Proof.
  revert idx. induction products as [|p products IH]; intros idx; cbn.
  - split; (split; [by left|]); intros [?|(q & Hq & _)]; try done;
      by apply elem_of_nil in Hq.
  - destruct (IH (foldl (fun idx word => index_append idx (id_of p) word)
                        idx (product_words p))) as [IH1 IH2].
    cbn in IH1, IH2. rewrite IH1, IH2. clear IH IH1 IH2.
    destruct (index_words_postings (id_of p) (product_words p) idx w x)
      as [H1 H2].
    cbn in H1, H2. rewrite H1, H2. clear H1 H2. split.
    + split.
      * intros [[?|[-> Hw]]|(q & Hq & Hid & Hw)]; [by left| |].
        -- right. exists p. split; [apply elem_of_cons; by left|done].
        -- right. exists q. split; [apply elem_of_cons; by right|done].
      * intros [?|(q & [->|Hq]%elem_of_cons & Hid & Hw)]; [by left; left| |].
        -- left. right. done.
        -- right. by exists q.
    + split.
      * intros [[?|Hw]|(q & Hq & Hw)]; [by left| |].
        -- right. exists p. split; [apply elem_of_cons; by left|done].
        -- right. exists q. split; [apply elem_of_cons; by right|done].
      * intros [?|(q & [->|Hq]%elem_of_cons & Hw)]; [by left; left| |].
        -- left. by right.
        -- right. by exists q.
Qed.

(** X22. The inverted index holds what the records hold, no more and no
    less: a product id is listed under a word exactly if a record with this
    id has the word in one of its string fields, and a word is a key of the
    index exactly if some record has it. *)
Theorem build_index_postings (products : list (gmap string value))
  (word product_id : string) :
  (product_id ∈ default [] (build_index products !! word)
   <-> exists product, product ∈ products /\ id_of product = product_id
                       /\ word ∈ product_words product)
  /\ (is_Some (build_index products !! word)
      <-> exists product, product ∈ products /\ word ∈ product_words product).
Proof.
  destruct (build_index_fold products ∅ word product_id) as [H1 H2].
  unfold build_index. cbn in H1, H2. rewrite H1, H2, lookup_empty. cbn.
  split; (split; [intros [H|H]; [|done]|by right]).
  - by apply elem_of_nil in H.
  - by destruct H.
Qed.

(** ** The Space Stone *)

Lemma bump_score key scores k :
  score_of (bump key scores) k
  = score_of scores k + (if decide (k = key) then 1 else 0).
Proof.
  unfold score_of. induction scores as [|[k0 n] scores IH]; simpl bump.
  - rewrite filter_cons, filter_nil. cbn [fst].
    repeat case_decide; try congruence; cbn; lia.
  - destruct (decide (k0 = key)) as [->|Hk0]; rewrite !filter_cons; cbn [fst];
      repeat case_decide; try congruence; cbn; rewrite ?IH;
      repeat case_decide; try congruence; lia.
Qed.

Lemma bump_keys key scores :
  (bump key scores).*1
  = if decide (key ∈ scores.*1) then scores.*1 else scores.*1 ++ [key].
Proof.
  induction scores as [|[k0 n] scores IH]; cbn.
  - case_decide as Hin; [|done]. apply elem_of_nil in Hin. done.
  - destruct (decide (k0 = key)) as [->|Hk0]; cbn.
    + clear IH. case_decide as Hin; [done|]. destruct Hin.
      apply elem_of_cons. by left.
    + rewrite IH. destruct (decide (key ∈ scores.*1)) as [Hin|Hin].
      * case_decide as Hin'; [done|]. destruct Hin'. apply elem_of_cons.
        by right.
      * case_decide as Hin'; [|done].
        apply elem_of_cons in Hin' as [?|?]; congruence.
Qed.

Lemma bump_NoDup key scores : NoDup scores.*1 -> NoDup (bump key scores).*1.
Proof.
  intros Hnd. rewrite bump_keys. case_decide as Hin; [done|].
  apply NoDup_app. split; [done|]. split; [|apply NoDup_singleton].
  intros x Hx ->%list_elem_of_singleton. done.
Qed.

Lemma bump_positive key scores :
  Forall (fun kn => 1 <= kn.2) scores ->
  Forall (fun kn => 1 <= kn.2) (bump key scores).
Proof.
  induction 1 as [|[k0 n] scores Hn Hall IH]; cbn.
  - by repeat constructor.
  - case_decide; constructor; cbn in *; try done. lia.
Qed.

Lemma score_of_absent scores key : key ∉ scores.*1 -> score_of scores key = 0.
Proof.
  unfold score_of. induction scores as [|[k0 n] scores IH]; [done|].
  intros Hnot. rewrite fmap_cons in Hnot. cbn [fst] in Hnot.
  rewrite filter_cons. cbn [fst]. rewrite decide_False.
  - apply IH. intros Hin. apply Hnot, elem_of_cons. by right.
  - intros ->. apply Hnot, elem_of_cons. by left.
Qed.

Lemma score_of_entry scores key n :
  NoDup scores.*1 -> (key, n) ∈ scores -> score_of scores key = n.
Proof.
  unfold score_of. induction scores as [|[k0 n0] scores IH].
  - intros _ Hin. by apply elem_of_nil in Hin.
  - rewrite fmap_cons. cbn [fst].
    intros [Hk0 Hnd]%NoDup_cons [Heq|Hin]%elem_of_cons; rewrite filter_cons;
      cbn [fst].
    + injection Heq as -> ->. rewrite decide_True by done. cbn.
      fold (score_of scores k0). rewrite score_of_absent by done. lia.
    + rewrite decide_False; [by apply IH|].
      intros ->. apply Hk0. apply list_elem_of_fmap. by exists (key, n).
Qed.

Lemma score_of_positive scores key :
  Forall (fun kn => 1 <= kn.2) scores ->
  1 <= score_of scores key -> exists n, (key, n) ∈ scores.
Proof.
  intros _ Hpos. destruct (decide (key ∈ scores.*1)) as [Hin|Hnot].
  - apply list_elem_of_fmap in Hin as [[k n] [-> Hin]]. by exists n.
  - rewrite score_of_absent in Hpos by done. lia.
Qed.

Section SpaceStone.
Variable sc : Scoring.

Lemma space_word_scores (e : Engine) st word :
  let st' := space_word sc e st word in
  (scores_ok st.1.1 -> scores_ok st'.1.1)
  /\ forall key,
       score_of st'.1.1 key
       = score_of st.1.1 key
         + length (filter (fun x => x = key) (default [] (index e !! word))).
Proof.
  unfold space_word. destruct (index e !! word) as [postings|]; cbn zeta;
    cbn [from_option id]; [|split; [done|]; intros; rewrite filter_nil; cbn; lia].
  revert st. induction postings as [|pid postings IH]; intros st; cbn [foldl].
  - split; [done|]. intros. rewrite filter_nil. cbn. lia.
  - destruct st as [[scores fields] shard_hits].
    match goal with
    | |- context [foldl ?f ?st0 postings] => destruct (IH st0) as [IH1 IH2]
    end.
    cbn [fst snd] in *. split.
    + intros [Hnd Hpos]. apply IH1. split.
      * by apply bump_NoDup.
      * by apply bump_positive.
    + intros key. rewrite IH2, bump_score, filter_cons.
      destruct (decide (pid = key)) as [->|Hne].
      * rewrite decide_True by done. cbn. lia.
      * rewrite decide_False by congruence. lia.
Qed.

Lemma space_words_scores (e : Engine) (words : list string) st :
  let st' := foldl (space_word sc e) st words in
  (scores_ok st.1.1 -> scores_ok st'.1.1)
  /\ forall key,
       score_of st'.1.1 key
       = score_of st.1.1 key
         + sum_list
             ((fun word =>
                 length (filter (fun x => x = key)
                           (default [] (index e !! word)))) <$> words).
Proof.
  revert st. induction words as [|word words IH]; intros st; cbn [foldl].
  - split; [done|]. intros. cbn. lia.
  - destruct (IH (space_word sc e st word)) as [IH1 IH2].
    destruct (space_word_scores e st word) as [H1 H2].
    cbn zeta in *. split.
    + intros Hok. by apply IH1, H1.
    + intros key. rewrite IH2, H2, fmap_cons. cbn [sum_list_with]. unfold id. lia.
Qed.

(** The annotations leave the [id] fields as they are. *)
Lemma alter_ids (ps : list (gmap string value)) i key v :
  key <> "id" ->
  (fun p : gmap string value => p !! "id")
  <$> alter (fun p => <[key := v]> p) i ps
  = (fun p : gmap string value => p !! "id") <$> ps.
Proof.
  intros Hkey. revert i.
  induction ps as [|p ps IH]; intros [|i]; cbn; try done.
  - by rewrite lookup_insert_ne.
  - by rewrite IH.
Qed.

Lemma find_product_ids ps ps' pid :
  (fun p : gmap string value => p !! "id") <$> ps
  = (fun p : gmap string value => p !! "id") <$> ps' ->
  find_product ps pid = find_product ps' pid.
Proof.
  intros Hids. unfold find_product.
  assert (forall qs : list (gmap string value),
            fst <$> list_find (fun p => p !! "id" = Some (VStr pid)) qs
            = fst <$> list_find (fun o => o = Some (VStr pid))
                        ((fun p : gmap string value => p !! "id") <$> qs))
    as Hfind.
  { intros qs. rewrite list_find_fmap.
    change (list_find (_ ∘ _) qs)
      with (list_find (fun p : gmap string value => p !! "id" = Some (VStr pid))
              qs).
    by destruct (list_find _ qs) as [[? ?]|]. }
  by rewrite !Hfind, Hids.
Qed.

Lemma space_result_step (e1 : Engine) fields shard_hits acc item :
  exists e2,
    space_result sc fields shard_hits acc item e1
    = (e2, Ok (acc ++ option_list (space_result_of e1 fields item)))
    /\ (fun p : gmap string value => p !! "id") <$> products e2
       = (fun p : gmap string value => p !! "id") <$> products e1.
Proof.
  destruct item as [pid n].
  unfold space_result, space_result_of, ebind, eread, eret, set_field. cbn.
  destruct (find_product (products e1) pid) as [i|]; cbn.
  - eexists. split; [reflexivity|]. cbn. by rewrite !alter_ids.
  - exists e1. by rewrite app_nil_r.
Qed.

Lemma space_results (e : Engine) fields shard_hits items :
  forall e1 acc,
    (fun p : gmap string value => p !! "id") <$> products e1
    = (fun p : gmap string value => p !! "id") <$> products e ->
    exists e2,
      efold (space_result sc fields shard_hits) acc items e1
      = (e2, Ok (acc ++ omap (space_result_of e fields) items)).
Proof.
  induction items as [|item items IH]; intros e1 acc Hids; cbn [efold omap list_omap].
  - exists e1. by rewrite app_nil_r.
  - unfold ebind at 1.
    destruct (space_result_step e1 fields shard_hits acc item)
      as (e2 & -> & Hids2).
    destruct (IH e2 (acc ++ option_list (space_result_of e1 fields item)))
      as [e3 ->]; [congruence|].
    exists e3. f_equal. f_equal. rewrite <- app_assoc. f_equal.
    assert (space_result_of e1 fields item = space_result_of e fields item)
      as ->.
    { unfold space_result_of. by rewrite (find_product_ids _ _ _ Hids). }
    by destruct (space_result_of e fields item).
Qed.

End SpaceStone.

Lemma space_result_of_id (e : Engine) fields item r :
  space_result_of e fields item = Some r ->
  product_id r = item.1
  /\ relevance_score r = qn item.2
  /\ stone_powers r = [(SPACE, qn item.2)]
  /\ find_product (products e) item.1 = Some (product_data r).
Proof.
  unfold space_result_of.
  destruct (find_product (products e) item.1) as [i|]; [|done].
  cbn. by intros [= <-].
Qed.

Lemma space_result_of_ids (e : Engine) fields items :
  product_id <$> omap (space_result_of e fields) items `sublist_of` items.*1.
Proof.
  induction items as [|item items IH]; cbn; [done|].
  destruct (space_result_of e fields item) as [r|] eqn:Hr; cbn.
  - apply space_result_of_id in Hr as [-> _]. by constructor.
  - by constructor.
Qed.

Lemma index_hits_positive (e : Engine) (query pid : string) :
  1 <= index_hits e query pid
  <-> exists word, word ∈ findall_words (lower query)
                   /\ pid ∈ default [] (index e !! word).
Proof.
  unfold index_hits. induction (findall_words (lower query)) as [|w ws IH].
  - cbn. split; [lia|]. intros (word & Hw & _). by apply elem_of_nil in Hw.
  - rewrite fmap_cons. cbn [sum_list_with]. unfold id at 1.
    assert (1 <= length (filter (fun x => x = pid) (default [] (index e !! w)))
            <-> pid ∈ default [] (index e !! w)) as Hw.
    { generalize (default [] (index e !! w)) as l. intros l.
      induction l as [|x l IHl]; [cbn; split; [lia|by intros ?%elem_of_nil]|].
      rewrite filter_cons, elem_of_cons. case_decide; cbn; [|rewrite IHl].
      - split; [by left|lia].
      - split; [by right|]. by intros [?|?]. }
    split.
    + intros Hpos.
      destruct (decide (1 <= length (filter (fun x => x = pid)
                                      (default [] (index e !! w))))) as [H1|H1].
      * exists w. split; [apply elem_of_cons; by left|by apply Hw].
      * destruct IH as [IH _]. destruct IH as (word & Hin & Hid); [lia|].
        exists word. split; [apply elem_of_cons; by right|done].
    + intros (word & [->|Hin]%elem_of_cons & Hid).
      * apply Hw in Hid. lia.
      * assert (1 <= sum_list
                       ((fun word0 =>
                           length (filter (fun x => x = pid)
                                     (default [] (index e !! word0)))) <$> ws)).
        { apply IH. by exists word. }
        lia.
Qed.

(** X23. Space Stone search never raises and returns at most 500 results,
    best score first, no product id twice. The score of a result is the
    number of times the inverted index lists its id under the words of the
    query (at least once), and its record is the first one of the store
    with this id. Unless the limit of 500 is reached, every id that the
    index lists under a word of the query and that a record carries is
    among the results. *)
Theorem SpaceStone_search_results (sc : Scoring) (query : string) (e : Engine) :
  exists e' results,
    SpaceStone_search sc query e = (e', Ok results)
    /\ length results <= 500
    /\ StronglySorted
         (fun r r' => (relevance_score r' <= relevance_score r)%Qc) results
    /\ NoDup (product_id <$> results)
    /\ (forall r, r ∈ results ->
          1 <= index_hits e query (product_id r)
          /\ relevance_score r = qn (index_hits e query (product_id r))
          /\ stone_powers r = [(SPACE, relevance_score r)]
          /\ find_product (products e) (product_id r) = Some (product_data r)
          /\ exists product,
               products e !! product_data r = Some product
               /\ product !! "id" = Some (VStr (product_id r)))
    /\ (length results < 500 ->
        forall pid, 1 <= index_hits e query pid ->
          is_Some (find_product (products e) pid) ->
          pid ∈ product_id <$> results)
    /\ (forall pid,
          1 <= index_hits e query pid
          <-> exists word, word ∈ findall_words (lower query)
                           /\ pid ∈ default [] (index e !! word)).
Proof.
  unfold SpaceStone_search, ebind, eread. cbn zeta.
  destruct (space_words_scores sc e (findall_words (lower query)) ([], ∅, ∅))
    as [Hok Hscore].
  cbn zeta in Hok, Hscore.
  destruct (foldl (space_word sc e) ([], ∅, ∅) (findall_words (lower query)))
    as [[scores fields] shard_hits].
  cbn [fst snd] in Hok, Hscore.
  destruct Hok as [Hnd Hpos]; [split; [apply NoDup_nil_2|constructor]|].
  assert (forall key, score_of scores key = index_hits e query key) as Hhits.
  { intros key. rewrite Hscore. unfold index_hits. done. }
  clear Hscore.
  destruct (space_results sc e fields shard_hits scores e []) as [e2 He2];
    [done|].
  rewrite He2. cbn [app]. unfold eret.
  set (all := omap (space_result_of e fields) scores).
  assert (forall r, r ∈ all ->
            exists n, (product_id r, n) ∈ scores
                      /\ space_result_of e fields (product_id r, n) = Some r)
    as Hall.
  { intros r (item & Hin & Hr)%list_elem_of_omap.
    destruct (space_result_of_id _ _ _ _ Hr) as [Hid _].
    exists item.2. rewrite Hid. by destruct item. }
  assert (take 500 (sort_desc relevance_score all) `sublist_of`
            sort_desc relevance_score all) as Hsub by apply sublist_take.
  exists e2, (take 500 (sort_desc relevance_score all)).
  split; [done|]. split; [rewrite length_take; lia|].
  split; [apply StronglySorted_take, sort_desc_sorted|].
  split.
  { eapply sublist_NoDup; [|apply fmap_sublist, Hsub].
    rewrite sort_desc_Permutation.
    eapply sublist_NoDup; [exact Hnd|apply space_result_of_ids]. }
  split.
  { intros r Hr. eapply elem_of_sublist in Hr; [|exact Hsub].
    rewrite sort_desc_Permutation in Hr.
    destruct (Hall r Hr) as (n & Hin & Hres).
    destruct (space_result_of_id _ _ _ _ Hres) as (_ & Hscore & Hpow & Hfind).
    cbn [fst snd] in *.
    assert (n = index_hits e query (product_id r)) as Hn.
    { rewrite <- Hhits. symmetry. by apply score_of_entry. }
    assert (1 <= n) as Hn1.
    { rewrite Forall_forall in Hpos. apply (Hpos _ Hin). }
    split; [lia|]. split; [congruence|]. split; [congruence|].
    split; [done|].
    unfold find_product in Hfind.
    destruct (list_find _ (products e)) as [[i p]|] eqn:Hp; [|done].
    injection Hfind as <-. apply list_find_Some in Hp as (Hi & Hid & _).
    by exists p. }
  split; [|apply index_hits_positive].
  intros Hlen pid Hid [i Hfind].
  assert (take 500 (sort_desc relevance_score all)
          = sort_desc relevance_score all) as ->.
  { apply take_ge. rewrite length_take in Hlen. lia. }
  rewrite sort_desc_Permutation.
  rewrite <- Hhits in Hid.
  destruct (score_of_positive scores pid Hpos Hid) as [n Hn].
  apply list_elem_of_fmap.
  exists (mkSearchResult pid i (qn n) [(SPACE, qn n)]
            (elements (default ∅ (fields !! pid)))).
  split; [done|]. apply list_elem_of_omap. exists (pid, n).
  split; [done|]. unfold space_result_of. cbn [fst snd]. by rewrite Hfind.
Qed.

(** ** The query cache of the engine *)

Lemma cache_kept_refl e : cache_kept e e.
Proof. by intros ?. Qed.

Lemma cache_kept_trans e1 e2 e3 :
  cache_kept e1 e2 -> cache_kept e2 e3 -> cache_kept e1 e3.
Proof.
  intros H12 H23 Hok. destruct (H12 Hok) as (Hok2 & Hm2 & Ht2).
  destruct (H23 Hok2) as (Hok3 & Hm3 & Ht3).
  split; [done|]. split; congruence.
Qed.

Lemma keeps_cache_eret {A} (a : A) : keeps_cache (eret a).
Proof. intros e. apply cache_kept_refl. Qed.

Lemma keeps_cache_eraise {A} (x : exn) : keeps_cache (@eraise A x).
Proof. intros e. apply cache_kept_refl. Qed.

Lemma keeps_cache_elift {A} (r : result A) : keeps_cache (elift r).
Proof. intros e. apply cache_kept_refl. Qed.

Lemma keeps_cache_eread : keeps_cache eread.
Proof. intros e. apply cache_kept_refl. Qed.

Lemma keeps_cache_ebind {A B} (m : Eff A) (k : A -> Eff B) :
  keeps_cache m -> (forall a, keeps_cache (k a)) -> keeps_cache (ebind m k).
Proof.
  intros Hm Hk e. unfold ebind. specialize (Hm e).
  destruct (m e) as [e' [a|x]]; [|done].
  eapply cache_kept_trans; [exact Hm|apply Hk].
Qed.

Lemma keeps_cache_etry {A} (m : Eff A) (handler : exn -> Eff A) :
  keeps_cache m -> (forall x, keeps_cache (handler x)) ->
  keeps_cache (etry m handler).
Proof.
  intros Hm Hh e. unfold etry. specialize (Hm e).
  destruct (m e) as [e' [a|x]]; [done|].
  eapply cache_kept_trans; [exact Hm|apply Hh].
Qed.

Lemma keeps_cache_efold {A B} (body : B -> A -> Eff B) (acc : B) (xs : list A) :
  (forall acc x, keeps_cache (body acc x)) -> keeps_cache (efold body acc xs).
Proof.
  intros Hbody. revert acc. induction xs as [|x xs IH]; intros acc; cbn.
  - apply keeps_cache_eret.
  - apply keeps_cache_ebind; [apply Hbody|]. intros acc'. apply IH.
Qed.

Lemma keeps_cache_set_field i key v : keeps_cache (set_field i key v).
Proof. intros e. unfold set_field. cbn. by intros ?. Qed.

Lemma keeps_cache_cache_get sc key : keeps_cache (cache_get sc key).
Proof.
  intros e [Hwf Hsz]. unfold cache_get.
  pose proof (get_inv (time_time sc) (time_time sc) key (search_cache e) Hwf Hsz)
    as Hinv.
  destruct (get _ _ _ _) as [c r]. cbn in *. unfold cache_ok. cbn. tauto.
Qed.

Lemma keeps_cache_cache_put sc key results :
  keeps_cache (cache_put sc key results).
Proof.
  intros e [Hwf Hsz]. unfold cache_put.
  pose proof (put_inv (time_time sc) key results (search_cache e) Hwf Hsz)
    as Hinv.
  destruct (put _ _ _ _) as [c r]. cbn in *. unfold cache_ok. cbn. tauto.
Qed.

Ltac keeps_cache_step :=
  match goal with
  | |- keeps_cache (ebind _ _) => apply keeps_cache_ebind; [|intros ?]
  | |- keeps_cache (etry _ _) => apply keeps_cache_etry; [|intros ?]
  | |- keeps_cache (efold _ _ _) => apply keeps_cache_efold; intros ? ?
  | |- keeps_cache (eret _) => apply keeps_cache_eret
  | |- keeps_cache (eraise _) => apply keeps_cache_eraise
  | |- keeps_cache (elift _) => apply keeps_cache_elift
  | |- keeps_cache eread => apply keeps_cache_eread
  | |- keeps_cache (set_field _ _ _) => apply keeps_cache_set_field
  | |- keeps_cache (cache_get _ _) => apply keeps_cache_cache_get
  | |- keeps_cache (cache_put _ _ _) => apply keeps_cache_cache_put
  | |- keeps_cache (fun e => (e, _)) => intros ?; apply cache_kept_refl
  | |- keeps_cache (fun e => (set_distributed_cache e _, _)) =>
      intros ?; apply cache_kept_refl
  | |- keeps_cache (match ?x with _ => _ end) => destruct x
  | |- keeps_cache (if ?b then _ else _) => destruct b
  | |- keeps_cache (let '(_, _) := ?x in _) => destruct x
  end.

Lemma keeps_cache_SpaceStone_search sc query :
  keeps_cache (SpaceStone_search sc query).
Proof.
  unfold SpaceStone_search. keeps_cache_step; [keeps_cache_step|].
  destruct (foldl _ _ _) as [[product_scores fields] shard_hits].
  keeps_cache_step; [|keeps_cache_step].
  keeps_cache_step. unfold space_result. destruct x as [product_id score].
  repeat keeps_cache_step.
Qed.

Lemma keeps_cache_stone_search sc stone_type query :
  keeps_cache (stone_search sc stone_type query).
Proof.
  destruct stone_type; cbn.
  - apply keeps_cache_SpaceStone_search.
  - unfold MindStone_search.
    keeps_cache_step; [apply keeps_cache_SpaceStone_search|].
    keeps_cache_step; [|keeps_cache_step].
    unfold _enhance_ux_features. keeps_cache_step; [|keeps_cache_step].
    keeps_cache_step. unfold enhance_result. repeat keeps_cache_step.
  - unfold RealityStone_search.
    keeps_cache_step; [apply keeps_cache_SpaceStone_search|].
    repeat keeps_cache_step.
  - unfold PowerStone_search. keeps_cache_step; [keeps_cache_step|].
    keeps_cache_step; [keeps_cache_step|].
    keeps_cache_step.
    { unfold _distributed_search. keeps_cache_step.
      keeps_cache_step; [keeps_cache_step|].
      keeps_cache_step; [|keeps_cache_step].
      keeps_cache_step. unfold process_product. repeat keeps_cache_step. }
    keeps_cache_step.
    { unfold _optimize_performance. repeat keeps_cache_step. }
    keeps_cache_step; [|keeps_cache_step].
    intros e. cbn. by intros ?.
  - unfold TimeStone_search. repeat keeps_cache_step.
  - unfold SoulStone_search.
    keeps_cache_step; [apply keeps_cache_SpaceStone_search|].
    repeat keeps_cache_step.
Qed.

Lemma keeps_cache_search_stones sc cleaned_query stone_preference :
  keeps_cache (search_stones sc cleaned_query stone_preference).
Proof.
  unfold search_stones. keeps_cache_step. keeps_cache_step; [|keeps_cache_step].
  keeps_cache_step; [|keeps_cache_step]. keeps_cache_step; [|keeps_cache_step].
  apply keeps_cache_stone_search.
Qed.

(** A hit leaves the entry last, with the time of the call. *)
Lemma get_hit_stored {V : Type} (now now' : Qc) (key : string)
  (c c' : LRUCache V) (value : V) :
  cache_wf c ->
  get now now' key c = (c', Ok (Some value)) ->
  cache_wf c'
  /\ key ∈ (cache c').*1
  /\ access_times c' !! key = Some now'
  /\ od_lookup key (cache c') = Some value
  /\ ttl c' = ttl c.
Proof.
  intros Hwf Hget. destruct (decide (key ∈ (cache c).*1)) as [Hin|Hnin].
  - destruct (wf_has_time c key Hwf Hin) as [accessed Hacc].
    destruct (decide (ttl c < now - accessed)%Qc) as [Hexp|Hfresh].
    + by rewrite (get_expired _ _ _ _ _ Hwf Hin Hacc Hexp) in Hget.
    + destruct (od_lookup_Some key (cache c) Hin) as (v & Hv & _).
      rewrite (get_fresh _ _ _ _ _ _ Hin Hacc Hfresh Hv) in Hget.
      injection Hget as <- <-. cbn.
      split; [by apply wf_moved|].
      split; [rewrite fmap_app, elem_of_app; right; cbn;
              apply elem_of_cons; by left|].
      split; [by rewrite lookup_insert_eq|].
      split; [|done]. apply od_lookup_app_last, od_del_not_elem.
  - by rewrite (get_absent _ _ _ _ Hnin) in Hget.
Qed.

Section SearchCache.
Variable sc : Scoring.

(** A search that returns results leaves them in the cache, under the key
    of the query, stamped with the time of the search. *)
Lemma ranked_search_stores cleaned_query query stone_preference e e' results :
  cache_ok e -> 1 <= max_size (search_cache e) ->
  ranked_search sc cleaned_query query stone_preference e = (e', Ok results) ->
  results <> [] ->
  let key := (cleaned_query ++ "_" ++ StoneType_str stone_preference)%string in
  cache_wf (search_cache e')
  /\ key ∈ (cache (search_cache e')).*1
  /\ access_times (search_cache e') !! key = Some (time_time sc)
  /\ od_lookup key (cache (search_cache e')) = Some results
  /\ ttl (search_cache e') = ttl (search_cache e).
Proof.
  intros Hok Hms Hrun Hne key. unfold ranked_search in Hrun. fold key in Hrun.
  unfold ebind at 1 in Hrun.
  pose proof (keeps_cache_cache_get sc key e Hok) as Hkept.
  unfold cache_get in Hrun, Hkept.
  destruct (get (time_time sc) (time_time sc) key (search_cache e))
    as [c [[cached|]|x]] eqn:Hget; [| |done].
  - (* answered from the cache *)
    unfold eret in Hrun. injection Hrun as <- <-. cbn.
    destruct Hok as [Hwf _]. by apply (get_hit_stored _ _ _ _ _ _ Hwf Hget).
  - (* computed *)
    cbn [fst] in Hkept. destruct Hkept as (Hok1 & Hms1 & Httl1).
    unfold ebind at 1 in Hrun.
    pose proof (keeps_cache_search_stones sc cleaned_query stone_preference
                  (set_search_cache e c) Hok1) as Hkept2.
    destruct (search_stones sc cleaned_query stone_preference
                (set_search_cache e c)) as [e2 [stone_results|x]]; [|done].
    cbn [fst] in Hkept2. destruct Hkept2 as (Hok2 & Hms2 & Httl2).
    destruct (bool_decide _) in Hrun.
    { unfold eret in Hrun. by injection Hrun as _ <-. }
    unfold ebind at 1, eread at 1 in Hrun. unfold ebind at 1, elift at 1 in Hrun.
    destruct (_apply_ranking_algorithms sc (products e2) query _)
      as [ranked_results|x]; [|done].
    unfold ebind at 1, elift at 1 in Hrun.
    destruct (analyze_search sc (products e2) query ranked_results)
      as [[]|x]; [|done].
    unfold ebind at 1, cache_put in Hrun.
    destruct Hok2 as [Hwf2 Hsz2].
    destruct (put_stored (time_time sc) key ranked_results (search_cache e2)
                Hwf2 ltac:(lia))
      as (items & Hk & _ & Hc & Ht & Httl & Hwf').
    destruct (put (time_time sc) key ranked_results (search_cache e2))
      as [c' [[]|x]]; [|done].
    unfold eret in Hrun. injection Hrun as <- <-. cbn in *.
    split; [done|].
    split; [rewrite Hc, fmap_app, elem_of_app; right; cbn;
            apply elem_of_cons; by left|].
    split; [done|]. split; [rewrite Hc; by apply od_lookup_app_last|].
    congruence.
Qed.

Lemma search_ok_ranked query stone_preference e e' results :
  search sc query stone_preference e = (e', Ok results) ->
  results <> [] ->
  exists cleaned_query,
    validate_query query = Ok cleaned_query
    /\ products e <> []
    /\ ranked_search sc cleaned_query query stone_preference e
       = (e', Ok results).
Proof.
  unfold search, handle_errors, etry, search_body. intros Hrun Hne.
  destruct (validate_query query) as [cleaned_query|x].
  - exists cleaned_query. split; [done|].
    unfold ebind at 1, eread at 1 in Hrun.
    case_bool_decide as Hps.
    + unfold eraise in Hrun. done.
    + split; [done|].
      destruct (ranked_search sc cleaned_query query stone_preference e)
        as [e1 [rs|x]]; [done|].
      by destruct x.
  - unfold eret in Hrun. by injection Hrun as _ <-.
Qed.

End SearchCache.

(** X24. A repeated search is answered from the query cache. If a search
    has returned a non-empty result list, the same search asked again
    within the TTL of the cache returns the same list, counts one more
    hit, and runs no stone: the product records stay as they are. *)
Theorem search_repeat_cached (sc sc' : Scoring) (query : string)
  (stone_preference : option StoneType) (e e' : Engine)
  (results : list SearchResult) :
  cache_ok e -> 1 <= max_size (search_cache e) ->
  search sc query stone_preference e = (e', Ok results) ->
  results <> [] ->
  (time_time sc' - time_time sc <= ttl (search_cache e))%Qc ->
  exists e'',
    search sc' query stone_preference e' = (e'', Ok results)
    /\ products e'' = products e'
    /\ hits (search_cache e'') = S (hits (search_cache e'))
    /\ misses (search_cache e'') = misses (search_cache e').
Proof.
  intros Hok Hms Hrun Hne Hfresh.
  destruct (search_ok_ranked sc query stone_preference e e' results Hrun Hne)
    as (cleaned_query & Hvalid & Hps & Hranked).
  destruct (ranked_search_stores sc cleaned_query query stone_preference
              e e' results Hok Hms Hranked Hne)
    as (Hwf' & Hin & Hacc & Hval & Httl).
  pose proof (framed_search sc query stone_preference e) as [Hdocs _].
  rewrite Hrun in Hdocs. cbn [fst] in Hdocs.
  assert (products e' <> []) as Hps'.
  { intros Hnil. rewrite Hnil in Hdocs. by inversion Hdocs. }
  unfold search, handle_errors, etry, search_body. rewrite Hvalid.
  unfold ebind at 1, eread at 1.
  rewrite bool_decide_eq_false_2 by done.
  unfold ranked_search, ebind at 1, cache_get.
  rewrite (get_fresh _ _ _ _ _ _ Hin Hacc ltac:(rewrite Httl; by apply Qcle_not_lt) Hval).
  unfold eret. eexists. split; [reflexivity|]. done.
Qed.

Lemma search_repeat_cached_witness :
  let e := engine_of [speaker] in
  let e' := (search unit_scoring "bluetooth" None e).1 in
  let results :=
    match (search unit_scoring "bluetooth" None e).2 with
    | Ok results => results
    | Raise _ => []
    end in
  cache_ok e /\ 1 <= max_size (search_cache e)
  /\ search unit_scoring "bluetooth" None e = (e', Ok results)
  /\ results <> []
  /\ (time_time unit_scoring - time_time unit_scoring
      <= ttl (search_cache e))%Qc
  /\ exists e'',
       search unit_scoring "bluetooth" None e' = (e'', Ok results)
       /\ products e'' = products e'
       /\ hits (search_cache e'') = S (hits (search_cache e'))
       /\ misses (search_cache e'') = misses (search_cache e').
Proof.
  intros e e' results.
  assert (H1 : cache_ok e).
  { split; [apply LRUCache_init_wf|cbn; lia]. }
  assert (H2 : 1 <= max_size (search_cache e)) by (cbn; lia).
  assert (H3 : search unit_scoring "bluetooth" None e = (e', Ok results)).
  { by vm_compute. }
  assert (H4 : results <> []) by (by vm_compute).
  assert (H5 : (time_time unit_scoring - time_time unit_scoring
                <= ttl (search_cache e))%Qc) by (by vm_compute).
  split; [exact H1|]. split; [exact H2|]. split; [exact H3|].
  split; [exact H4|]. split; [exact H5|].
  exact (search_repeat_cached unit_scoring unit_scoring "bluetooth" None
           e e' results H1 H2 H3 H4 H5).
Defined.

(** ** The entry point [search]: errors and the cleaned query *)








Section SearchReturns.
Variable sc : Scoring.



End SearchReturns.





(** ** The tokenizer of boolean queries *)

Lemma upper_upper_char (c : ascii) : upper_char (upper_char c) = upper_char c.
Proof. by destruct c as [[] [] [] [] [] [] [] []]. Qed.

Lemma lower_upper_char (c : ascii) : upper_char (lower_char c) = upper_char c.
Proof. by destruct c as [[] [] [] [] [] [] [] []]. Qed.

Lemma is_lower_upper_char (c : ascii) : is_lower (upper_char c) = false.
Proof. by destruct c as [[] [] [] [] [] [] [] []]. Qed.

Lemma upper_lower_char_id (c : ascii) :
  is_lower c = false -> upper_char (lower_char c) = c.
Proof. by destruct c as [[] [] [] [] [] [] [] []]. Qed.

Lemma word_char_lower (c : ascii) : word_char c -> term_char (lower_char c).
Proof.
  unfold word_char, term_char.
  destruct c as [[] [] [] [] [] [] [] []]; vm_compute; intuition congruence.
Qed.

Lemma upper_upper (s : string) : upper (upper s) = upper s.
Proof.
  unfold upper. induction s as [|c s IH]; [done|].
  cbn. by rewrite upper_upper_char, IH.
Qed.

Lemma upper_lower (s : string) : upper (lower s) = upper s.
Proof.
  unfold lower, upper. induction s as [|c s IH]; [done|].
  cbn. by rewrite lower_upper_char, IH.
Qed.

Lemma chars_upper_not_lower (s : string) :
  Forall (fun c => is_lower c = false) (chars (upper s)).
Proof.
  unfold upper. induction s as [|c s IH]; cbn; [constructor|].
  constructor; [apply is_lower_upper_char|done].
Qed.

Lemma chars_lower (s : string) : chars (lower s) = lower_char <$> chars s.
Proof.
  unfold lower. induction s as [|c s IH]; [done|]. cbn. f_equal. exact IH.
Qed.

Lemma upper_lower_id (s : string) :
  Forall (fun c => is_lower c = false) (chars s) -> upper (lower s) = s.
Proof.
  unfold lower, upper. induction s as [|c s IH]; [done|]. cbn.
  intros [Hc Hs]%Forall_cons. by rewrite upper_lower_char_id, IH.
Qed.

Lemma str_rev_involutive (s : string) : str_rev (str_rev s) = s.
Proof.
  apply chars_inj. by rewrite !chars_str_rev, reverse_involutive.
Qed.

Lemma lstrip_no_space (s : string) :
  Forall (fun c => is_space c = false) (chars s) -> lstrip s = s.
Proof.
  destruct s as [|c s]; [done|]. cbn. intros [Hc _]%Forall_cons.
  by rewrite Hc.
Qed.

Lemma strip_no_space (s : string) :
  Forall (fun c => is_space c = false) (chars s) -> strip s = s.
Proof.
  intros Hs. unfold strip. rewrite (lstrip_no_space s Hs).
  rewrite lstrip_no_space; [apply str_rev_involutive|].
  rewrite chars_str_rev. by apply Forall_reverse.
Qed.

Lemma raw_token_no_space (word : string) :
  raw_token word ->
  word <> "" /\ Forall (fun c => is_space c = false) (chars word).
Proof.
  intros [->|[->|[Hne Hall]]].
  - split; [done|]. by repeat constructor.
  - split; [done|]. by repeat constructor.
  - split; [done|]. eapply Forall_impl; [exact Hall|]. by intros c [? _].
Qed.

Lemma raw_token_rev (cur : string) :
  cur <> "" -> Forall word_char (chars cur) -> raw_token (str_rev cur).
Proof.
  intros Hne Hall. right. right. split.
  - intros Hrev. apply Hne. rewrite <- (str_rev_involutive cur), Hrev. done.
  - rewrite chars_str_rev. by apply Forall_reverse.
Qed.

(** The words of the spaced query. *)
Lemma split_go_spaced (u cur : string) :
  Forall (fun c => is_lower c = false) (chars u) ->
  Forall word_char (chars cur) ->
  Forall raw_token
    (split_go cur (replace_char ")" " ) " (replace_char "(" " ( " u))).
Proof.
  revert cur. induction u as [|c u IH]; intros cur Hu Hcur.
  - cbn. destruct cur as [|d cur]; [constructor|].
    constructor; [|constructor]. by apply raw_token_rev.
  - cbn in Hu. apply Forall_cons in Hu as [Hc Hu].
    cbn [replace_char].
    destruct (decide (c = "("%char)) as [->|Hopen].
    { rewrite !string_app_cons. cbn [replace_char].
      rewrite !decide_False by done.
      change (replace_char ")" " ) " ("" ++ replace_char "(" " ( " u))
        with (replace_char ")" " ) " (replace_char "(" " ( " u)).
      cbn [split_go].
      change (is_space " ") with true. change (is_space "(") with false.
      cbn match.
      assert (Forall raw_token
                ("(" :: split_go "" (replace_char ")" " ) "
                                       (replace_char "(" " ( " u)))) as Hrest.
      { constructor; [by left|]. apply IH; [done|constructor]. }
      destruct cur as [|d cur]; [exact Hrest|].
      constructor; [by apply raw_token_rev|exact Hrest]. }
    cbn [replace_char].
    destruct (decide (c = ")"%char)) as [->|Hclose].
    { rewrite !string_app_cons.
      change ("" ++ replace_char ")" " ) " (replace_char "(" " ( " u))%string
        with (replace_char ")" " ) " (replace_char "(" " ( " u)).
      cbn [split_go].
      change (is_space " ") with true. change (is_space ")") with false.
      cbn match.
      assert (Forall raw_token
                (")" :: split_go "" (replace_char ")" " ) "
                                       (replace_char "(" " ( " u)))) as Hrest.
      { constructor; [right; by left|]. apply IH; [done|constructor]. }
      destruct cur as [|d cur]; [exact Hrest|].
      constructor; [by apply raw_token_rev|exact Hrest]. }
    cbn [split_go]. destruct (is_space c) eqn:Hspace.
    + destruct cur as [|d cur].
      * apply IH; [done|constructor].
      * constructor; [by apply raw_token_rev|]. apply IH; [done|constructor].
    + apply IH; [done|]. cbn. constructor; [|done]. by repeat split.
Qed.

(** X25. On a query of ASCII characters the tokenizer ignores the case of
    the query, so that an operator is recognised however it is written; and
    every token is an operator or a search term: a non-empty word without
    white space, upper-case letter or parenthesis, which is none of the
    words and, or and not. Hence these three words can never be searched
    for. *)
Theorem _tokenize_boolean_query_tokens (query : string) :
  isascii query = true ->
  _tokenize_boolean_query (lower query) = _tokenize_boolean_query query
  /\ _tokenize_boolean_query (upper query) = _tokenize_boolean_query query
  /\ Forall (fun token =>
               token ∈ operators
               \/ (token <> "" /\ (token ∉ ["and"; "or"; "not"])
                   /\ Forall term_char (chars token)))
            (_tokenize_boolean_query query).
Proof.
  intros _. unfold _tokenize_boolean_query. cbn zeta.
  rewrite upper_lower, upper_upper. split; [done|]. split; [done|].
  apply Forall_fmap.
  pose proof (split_go_spaced (upper query) "" (chars_upper_not_lower query)
                ltac:(constructor)) as Hraw.
  fold (split (replace_char ")" " ) " (replace_char "(" " ( " (upper query))))
    in Hraw.
  rewrite Forall_forall in Hraw. apply Forall_forall.
  intros word [_ Hword%Hraw]%list_elem_of_filter. unfold compose.
  destruct (raw_token_no_space word Hword) as [Hne Hspace].
  rewrite (strip_no_space word Hspace).
  unfold is_operator. case_bool_decide as Hop; [by left|]. right.
  destruct Hword as [->|[->|[_ Hall]]].
  - destruct Hop. do 3 (apply elem_of_cons; right). apply elem_of_cons. by left.
  - destruct Hop. do 4 (apply elem_of_cons; right). apply elem_of_cons. by left.
  - assert (Forall (fun c => is_lower c = false) (chars word)) as Hlow.
    { eapply Forall_impl; [exact Hall|]. by intros c (_ & ? & _). }
    split; [by destruct word|]. split.
    + intros Hin. apply Hop.
      rewrite <- (upper_lower_id word Hlow).
      repeat (apply elem_of_cons in Hin as [->|Hin];
              [apply (bool_decide_unpack _); by vm_compute|]).
      by apply elem_of_nil in Hin.
    + rewrite chars_lower. apply Forall_fmap.
      eapply Forall_impl; [exact Hall|]. intros c Hc. by apply word_char_lower.
Qed.

Lemma _tokenize_boolean_query_tokens_witness :
  isascii "Phone and (not Case)" = true
  /\ _tokenize_boolean_query "phone and (not case)"
     = ["phone"; "AND"; "("; "NOT"; "case"; ")"]
  /\ _tokenize_boolean_query "Phone and (not Case)"
     = ["phone"; "AND"; "("; "NOT"; "case"; ")"].
Proof.
  assert (H : isascii "Phone and (not Case)" = true) by reflexivity.
  split; [exact H|].
  destruct (_tokenize_boolean_query_tokens "Phone and (not Case)" H)
    as (Hlower & _).
  split; [|rewrite <- Hlower]; by vm_compute.
Defined.

(** ** The diversity pass of the Reality Stone *)

Section Diversity.
Variable products : list (gmap string value).

Lemma seen_values_snoc key results result text :
  field_lower (record_of products result) key = Ok text ->
  seen_values products key (results ++ [result])
  = seen_values products key results ∪ {[ text ]}.
Proof.
  intros Hf. unfold seen_values. rewrite omap_app, list_to_set_app_L. cbn.
  rewrite Hf. cbn. by rewrite union_empty_r_L.
Qed.

Lemma seen_values_app_subseteq key results results' :
  seen_values products key results ⊆ seen_values products key (results ++ results').
Proof.
  unfold seen_values. rewrite omap_app, list_to_set_app_L. apply union_subseteq_l.
Qed.

Lemma diversity_loop_spec (results : list SearchResult) :
  forall diverse out,
    length diverse < 15 ->
    diversity_loop products results diverse
      (seen_values products "Brand" diverse) (seen_values products "Type" diverse) = Ok out ->
    exists added,
      out = diverse ++ added
      /\ added `sublist_of` results
      /\ length out <= 15
      /\ (forall kept result rest,
            added = kept ++ result :: rest ->
            exists brand category,
              field_lower (record_of products result) "Brand" = Ok brand
              /\ field_lower (record_of products result) "Type" = Ok category
              /\ (5 <= size (seen_values products "Brand" (diverse ++ kept)) ->
                  brand ∉ seen_values products "Brand" (diverse ++ kept))
              /\ (3 <= size (seen_values products "Type" (diverse ++ kept)) ->
                  category ∉ seen_values products "Type" (diverse ++ kept)))
      /\ (size (seen_values products "Brand" (diverse ++ results)) < 5 ->
          size (seen_values products "Type" (diverse ++ results)) < 3 ->
          added = take (15 - length diverse) results)
      /\ (size (seen_values products "Brand" diverse) < 5 ->
          size (seen_values products "Type" diverse) < 3 ->
          head added = head results).
Proof.
  induction results as [|r rs IH]; intros diverse out Hlen Hrun.
  - cbn in Hrun. injection Hrun as <-. exists [].
    rewrite app_nil_r. split; [done|]. split; [done|]. split; [lia|].
    split; [|split; [by rewrite take_nil|done]].
    intros kept result rest Heq. by destruct kept.
  - cbn [diversity_loop] in Hrun.
    destruct (field_lower (record_of products r) "Brand") as [brand|x] eqn:Hb;
      [|done].
    destruct (field_lower (record_of products r) "Type") as [category|x] eqn:Hc;
      [|done].
    cbn zeta in Hrun.
    destruct (bool_decide (size (seen_values products "Brand" diverse) < 5
                           \/ brand ∉ seen_values products "Brand" diverse)
              && bool_decide (size (seen_values products "Type" diverse) < 3
                              \/ category ∉ seen_values products "Type" diverse))
      eqn:Hkeep.
    + (* the result is kept *)
      apply andb_true_iff in Hkeep as [Hkb Hkc].
      apply bool_decide_eq_true_1 in Hkb, Hkc.
      assert (forall kept result rest,
                [r] = kept ++ result :: rest -> kept = [] /\ result = r) as Hone.
      { intros [|? [|? ?]] result rest Heq; cbn in Heq; by simplify_eq. }
      assert (exists brand' category',
                field_lower (record_of products r) "Brand" = Ok brand'
                /\ field_lower (record_of products r) "Type" = Ok category'
                /\ (5 <= size (seen_values products "Brand" (diverse ++ [])) ->
                    brand' ∉ seen_values products "Brand" (diverse ++ []))
                /\ (3 <= size (seen_values products "Type" (diverse ++ [])) ->
                    category' ∉ seen_values products "Type" (diverse ++ []))) as Hr.
      { exists brand, category. rewrite app_nil_r.
        split; [done|]. split; [done|]. split; intros ?.
        - destruct Hkb; [lia|done].
        - destruct Hkc; [lia|done]. }
      rewrite <- (seen_values_snoc "Brand" diverse r brand Hb) in Hrun.
      rewrite <- (seen_values_snoc "Type" diverse r category Hc) in Hrun.
      case_bool_decide as Hfull.
      * injection Hrun as <-. exists [r]. rewrite length_app in *. cbn in *.
        split; [done|]. split; [by constructor; apply sublist_nil_l|].
        split; [lia|]. split; [|split; [|done]].
        -- intros kept result rest Heq.
           destruct (Hone kept result rest Heq) as [-> ->]. exact Hr.
        -- intros _ _. replace (15 - length diverse) with 1 by lia. done.
      * destruct (IH (diverse ++ [r]) out)
          as (added & -> & Hsub & Hout & Hdiv & Hall & _); [lia|done|].
        exists (r :: added). rewrite <- app_assoc in *. cbn [app] in *.
        split; [done|]. split; [by constructor|]. split; [done|].
        split; [|split; [|done]].
        -- intros [|r0 kept] result rest Heq.
           ++ cbn in Heq. injection Heq as <- _. exact Hr.
           ++ cbn in Heq. injection Heq as <- Heq.
              destruct (Hdiv kept result rest Heq)
                as (brand' & category' & ? & ? & Hb' & Hc').
              rewrite <- app_assoc in Hb', Hc'. by exists brand', category'.
        -- intros Hsb Hsc. rewrite (Hall Hsb Hsc). rewrite length_app in *.
           cbn [length] in *.
           replace (15 - length diverse) with (S (15 - (length diverse + 1)))
             by lia.
           done.
    + (* the result is dropped *)
      rewrite bool_decide_eq_false_2 in Hrun by lia.
      destruct (IH diverse out Hlen Hrun)
        as (added & -> & Hsub & Hout & Hdiv & Hall & _).
      exists added. split; [done|]. split; [by apply sublist_cons|].
      split; [done|]. split; [done|].
      pose proof (subseteq_size _ _
                    (seen_values_app_subseteq "Brand" diverse (r :: rs))) as Hb'.
      pose proof (subseteq_size _ _
                    (seen_values_app_subseteq "Type" diverse (r :: rs))) as Hc'.
      split; intros Hsb Hsc; exfalso;
        apply andb_false_iff in Hkeep as [Hk|Hk];
        apply bool_decide_eq_false_1 in Hk; apply Hk; left; lia.
Qed.

End Diversity.

(** X26. The diversity pass of the Reality Stone only selects: if it
    returns, it returns at most 15 of the results it was given, in their
    order, beginning with the first one. Once the results kept so far show
    five brands, a result is kept only if its brand is new, and once they
    show three product types, only if its type is new. If all the results
    together show fewer than five brands and fewer than three types, the
    pass just cuts the list to its first 15. *)
Theorem _ensure_diversity_selects (products : list (gmap string value))
  (results diverse : list SearchResult) :
  RealityStone._ensure_diversity products results = Ok diverse ->
  diverse `sublist_of` results
  /\ length diverse <= 15
  /\ head diverse = head results
  /\ (forall kept result rest,
        diverse = kept ++ result :: rest ->
        exists brand category,
          field_lower (record_of products result)
            "Brand" = Ok brand
          /\ field_lower (record_of products result)
               "Type" = Ok category
          /\ (5 <= size (seen_values products "Brand" kept) ->
              brand ∉ seen_values products "Brand" kept)
          /\ (3 <= size (seen_values products "Type" kept) ->
              category ∉ seen_values products "Type" kept))
  /\ (size (seen_values products "Brand" results) < 5 ->
      size (seen_values products "Type" results) < 3 ->
      diverse = take 15 results).
Proof.
  intros Hrun.
  destruct (diversity_loop_spec products results [] diverse ltac:(cbn; lia) Hrun)
    as (added & -> & Hsub & Hlen & Hdiv & Hall & Hhead).
  cbn [app] in *. split; [done|]. split; [done|].
  split; [|split; [done|exact Hall]].
  apply Hhead.
  - change (seen_values products "Brand" []) with (∅ : gset string).
    rewrite size_empty. lia.
  - change (seen_values products "Type" []) with (∅ : gset string).
    rewrite size_empty. lia.
Qed.

Lemma _ensure_diversity_selects_witness :
  let products :=
    [ ({[ "id" := VStr "1"; "Brand" := VStr "Acme"; "Type" := VStr "Speaker" ]}
       : gmap string value);
      {[ "id" := VStr "2"; "Brand" := VStr "Bolt"; "Type" := VStr "Camera" ]} ] in
  let results :=
    [ mkSearchResult "1" 0 (qz 2) [] []; mkSearchResult "2" 1 (qz 1) [] [] ] in
  RealityStone._ensure_diversity products results = Ok results
  /\ results `sublist_of` results
  /\ length results <= 15.
Proof.
  intros products results.
  assert (H1 : RealityStone._ensure_diversity products results = Ok results)
    by (by vm_compute).
  split; [exact H1|].
  destruct (_ensure_diversity_selects products results results H1)
    as (H2 & H3 & _).
  split; [exact H2|exact H3].
Defined.

(** X27. With this diversity pass the Reality Stone returns at most 15
    results: its final cut to 200 results never removes anything. *)
Theorem RealityStone_search_at_most_15 (sc : Scoring) (query : string)
  (e e' : Engine) (results : list SearchResult) :
  (forall products results,
     _ensure_diversity sc products results
     = RealityStone._ensure_diversity products results) ->
  RealityStone_search sc query e = (e', Ok results) ->
  length results <= 15.
Proof.
  intros Hsc. unfold RealityStone_search, ebind, eread, elift, eret.
  destruct (SpaceStone_search sc query e) as [e1 [space_results|x]]; [|done].
  destruct (_apply_ranking_models sc _ _ _ _) as [ranked_results|x]; [|done].
  destruct (_apply_personalization sc _ _ _) as [personalized_results|x];
    [|done].
  destruct (_apply_business_logic sc _ _) as [business_enhanced_results|x];
    [|done].
  rewrite Hsc.
  destruct (RealityStone._ensure_diversity _ _) as [diverse_results|x] eqn:Hd;
    [|done].
  intros [= _ <-].
  destruct (diversity_loop_spec _ _ [] diverse_results ltac:(cbn; lia) Hd)
    as (added & -> & _ & Hlen & _).
  rewrite length_take. cbn [app] in *. lia.
Qed.

Lemma RealityStone_search_at_most_15_witness :
  let r := RealityStone_search diverse_scoring "bluetooth" (engine_of [speaker]) in
  let results := match r.2 with Ok results => results | Raise _ => [] end in
  (forall products results,
     _ensure_diversity diverse_scoring products results
     = RealityStone._ensure_diversity products results)
  /\ r = (r.1, Ok results)
  /\ length results <= 15.
Proof.
  intros r results.
  assert (H1 : forall products results,
             _ensure_diversity diverse_scoring products results
             = RealityStone._ensure_diversity products results) by done.
  assert (H2 : r = (r.1, Ok results)) by (by vm_compute).
  split; [exact H1|]. split; [exact H2|].
  exact (RealityStone_search_at_most_15 diverse_scoring "bluetooth"
           (engine_of [speaker]) r.1 results H1 H2).
Defined.

(** ** The facet counts *)

Lemma qn_le_inv (a b : nat) : (qn a <= qn b)%Qc -> a <= b.
Proof.
  intros Hle. destruct (decide (a <= b)) as [|Hgt]; [done|].
  exfalso. apply (Qcle_not_lt _ _ Hle). apply qn_lt. lia.
Qed.

Lemma bump_sum key (scores : list (string * nat)) :
  sum_list (bump key scores).*2 = S (sum_list scores.*2).
Proof.
  induction scores as [|[k n] scores IH]; [done|]. cbn [bump].
  case_decide; cbn in *; [done|]. rewrite IH. lia.
Qed.

Section FacetCounts.
Variable products : list (gmap string string).
Variable label : gmap string string -> option string.

Lemma count_fold (ps : list (gmap string string)) :
  forall items,
    let items' := foldl (fun d p => count_label (label p) d) items ps in
    (scores_ok items -> scores_ok items')
    /\ (forall key,
          score_of items' key
          = score_of items key
            + length (filter (fun p => label p = Some key) ps))
    /\ sum_list items'.*2
       = sum_list items.*2 + length (filter (fun p => is_Some (label p)) ps)
    /\ (forall key, key ∈ items'.*1 ->
          key ∈ items.*1 \/ exists p, p ∈ ps /\ label p = Some key).
Proof.
  induction ps as [|p ps IH]; intros items; cbn [foldl].
  - cbn zeta. split; [done|].
    split; [intros; rewrite filter_nil; cbn [length]; lia|].
    split; [rewrite filter_nil; cbn [length]; lia|]. by left.
  - destruct (IH (count_label (label p) items)) as (IH1 & IH2 & IH3 & IH4).
    cbn zeta in *.
    destruct (label p) as [k|] eqn:Hl; cbn [count_label] in *.
    + split; [|split; [|split]].
      * intros [Hnd Hpos]. apply IH1. split;
          [by apply bump_NoDup|by apply bump_positive].
      * intros key. rewrite IH2, bump_score, filter_cons, Hl.
        destruct (decide (key = k)) as [->|Hne].
        -- rewrite decide_True by done. cbn. lia.
        -- rewrite decide_False by congruence. lia.
      * rewrite IH3, bump_sum, filter_cons, Hl.
        rewrite decide_True by done. cbn. lia.
      * intros key Hkey. destruct (IH4 key Hkey) as [Hin|(q & Hq & Hlq)].
        -- rewrite bump_keys in Hin. case_decide; [by left|].
           apply elem_of_app in Hin as [?|Heq%list_elem_of_singleton];
             [by left|].
           subst key. right. exists p. split; [apply elem_of_cons; by left|done].
        -- right. exists q. split; [apply elem_of_cons; by right|done].
    + split; [done|]. split; [|split].
      * intros key. rewrite IH2, filter_cons, Hl. by rewrite decide_False.
      * rewrite IH3, filter_cons, Hl. rewrite decide_False; [done|].
        by intros [? ?].
      * intros key Hkey. destruct (IH4 key Hkey) as [Hin|(q & Hq & Hlq)];
          [by left|].
        right. exists q. split; [apply elem_of_cons; by right|done].
Qed.

Lemma top_items_elem (items : list (string * nat)) item :
  item ∈ top_items items -> item ∈ items.
Proof.
  unfold top_items. intros Hin.
  eapply elem_of_sublist in Hin; [|apply sublist_take].
  by rewrite sort_desc_Permutation in Hin.
Qed.

Lemma top_items_all (items : list (string * nat)) :
  length items <= 20 -> top_items items ≡ₚ items.
Proof.
  intros Hlen. unfold top_items. rewrite take_ge.
  - apply sort_desc_Permutation.
  - by rewrite sort_desc_Permutation.
Qed.

Lemma top_items_counts (items : list (string * nat)) :
  scores_ok items ->
  (forall key, score_of items key = labelled products label key) ->
  facet_counts products label (top_items items).
Proof.
  intros [Hnd Hpos] Hscore.
  set (sorted := sort_desc (fun item : string * nat => qn item.2) items).
  assert (StronglySorted (fun item item' : string * nat => item'.2 <= item.2)
            sorted) as Hsorted.
  { eapply StronglySorted_impl_elem; [|apply sort_desc_sorted].
    intros x y _ _ Hxy. by apply qn_le_inv. }
  assert (sorted = top_items items ++ drop 20 sorted) as Hsplit.
  { unfold top_items. fold sorted. by rewrite take_drop. }
  split; [|split; [|split; [|split]]].
  - eapply sublist_NoDup; [|apply fmap_sublist, sublist_take].
    fold sorted. unfold sorted. by rewrite sort_desc_Permutation.
  - unfold top_items. rewrite length_take. lia.
  - rewrite Hsplit in Hsorted. by apply StronglySorted_app_1_l in Hsorted.
  - intros key n Hin%top_items_elem. split.
    + rewrite Forall_forall in Hpos. apply (Hpos _ Hin).
    + rewrite <- Hscore. symmetry. by apply score_of_entry.
  - intros key Hkey Hout.
    rewrite <- Hscore in Hkey.
    destruct (score_of_positive items key Hpos Hkey) as [n Hn].
    assert (n = labelled products label key) as Hcount.
    { rewrite <- Hscore. symmetry. by apply score_of_entry. }
    assert ((key, n) ∈ sorted) as Hin.
    { unfold sorted. by rewrite sort_desc_Permutation. }
    rewrite Hsplit in Hin. apply elem_of_app in Hin as [Hin|Hin].
    { destruct Hout. apply list_elem_of_fmap. by exists (key, n). }
    assert (20 < length sorted) as Hlong.
    { destruct (decide (20 < length sorted)) as [|Hshort]; [done|].
      rewrite drop_ge in Hin by lia. by apply elem_of_nil in Hin. }
    split.
    + unfold top_items. fold sorted. rewrite length_take. lia.
    + intros item Hitem. rewrite Hsplit in Hsorted.
      pose proof (StronglySorted_app_1_elem_of _ _ _ _ _ Hsorted Hitem Hin)
        as Hle.
      cbn in Hle. lia.
Qed.

End FacetCounts.

Lemma facet_fold (products : list (gmap string string)) (facets : Facets) :
  foldl facet_step facets products
  = mkFacets
      (foldl (fun d p => count_label (brand_label p) d) (facet_brand facets)
             products)
      (foldl (fun d p => count_label (type_label p) d) (facet_type facets)
             products)
      (foldl (fun d p => count_label (category_label p) d)
             (facet_category facets) products)
      (foldl (fun d p => count_label (price_range_label p) d)
             (facet_price_range facets) products)
      (foldl (fun d p => count_label (has_specs_label p) d)
             (facet_has_specs facets) products).
Proof.
  revert facets. induction products as [|p products IH]; intros facets.
  - by destruct facets.
  - cbn [foldl]. by rewrite IH.
Qed.

Lemma scores_ok_nil : scores_ok [].
Proof. split; [apply NoDup_nil_2|constructor]. Qed.

Lemma facet_counts_fold (products : list (gmap string string))
  (label : gmap string string -> option string) :
  facet_counts products label
    (top_items (foldl (fun d p => count_label (label p) d) [] products)).
Proof.
  destruct (count_fold label products []) as (Hok & Hscore & _).
  apply top_items_counts; [apply Hok, scores_ok_nil|].
  intros key. rewrite Hscore. done.
Qed.

Lemma _extract_price_range_labels (product : gmap string string) :
  _extract_price_range product
  ∈ ["Under â‚¹1000"; "Premium"; "Budget"; "Standard"].
Proof.
  unfold _extract_price_range. cbn zeta.
  repeat match goal with
         | |- context [if ?b then _ else _] => destruct b
         end;
    rewrite !elem_of_cons; auto 10.
Qed.

Lemma price_range_label_Some (product : gmap string string) :
  price_range_label product = Some (_extract_price_range product).
Proof.
  unfold price_range_label. cbn zeta. case_bool_decide as He; [|done].
  pose proof (_extract_price_range_labels product) as Hin.
  rewrite He in Hin. rewrite !elem_of_cons in Hin.
  destruct Hin as [?|[?|[?|[?|Hin]]]]; try done. by apply elem_of_nil in Hin.
Qed.

(** All products are counted when every product has a label and the labels
    are few. *)
Lemma facet_total (products : list (gmap string string))
  (label : gmap string string -> option string) (labels : list string) :
  (forall p, exists key, label p = Some key /\ key ∈ labels) ->
  length labels <= 20 ->
  sum_list (top_items (foldl (fun d p => count_label (label p) d) [] products)).*2
  = length products.
Proof.
  intros Hlabel Hfew.
  destruct (count_fold label products []) as (Hok & _ & Hsum & Hkeys).
  cbn zeta in *. destruct (Hok scores_ok_nil) as [Hnd _].
  set (items := foldl (fun d p => count_label (label p) d) [] products) in *.
  assert (length items <= 20) as Hlen.
  { rewrite <- (length_fmap fst). etrans; [|exact Hfew].
    apply submseteq_length, NoDup_submseteq; [done|].
    intros key [Hin|(p & _ & Hp)]%Hkeys; [by apply elem_of_nil in Hin|].
    destruct (Hlabel p) as (key' & Hp' & Hin). congruence. }
  rewrite (top_items_all items Hlen), Hsum. cbn.
  rewrite filter_all; [done|]. intros p _. destruct (Hlabel p) as (key & -> & _).
  by eexists.
Qed.

(** X28. The facet counts are exact. Each of the five facets lists no key
    twice, at most 20 keys, greatest count first, and the count of a key is
    the number of products counted under it; a key that is left out has
    been cut by the limit of 20 and has no greater count than any key
    listed. The counts of the price facet add up to the number of products,
    and so do those of the facet of detailed specifications. *)
Theorem _build_facets_counts (products : list (gmap string string)) :
  let facets := _build_facets products in
  facet_counts products brand_label (facet_brand facets)
  /\ facet_counts products type_label (facet_type facets)
  /\ facet_counts products category_label (facet_category facets)
  /\ facet_counts products price_range_label (facet_price_range facets)
  /\ facet_counts products has_specs_label (facet_has_specs facets)
  /\ sum_list (facet_price_range facets).*2 = length products
  /\ sum_list (facet_has_specs facets).*2 = length products.
Proof.
  unfold _build_facets. cbn zeta. rewrite facet_fold. cbn.
  do 5 (split; [apply facet_counts_fold|]). split.
  - apply (facet_total products price_range_label
             ["Under â‚¹1000"; "Premium"; "Budget"; "Standard"]); [|cbn; lia].
    intros p. exists (_extract_price_range p).
    split; [apply price_range_label_Some|apply _extract_price_range_labels].
  - apply (facet_total products has_specs_label ["Yes"; "No"]); [|cbn; lia].
    intros p. unfold has_specs_label.
    destruct (_has_detailed_specs p); eexists; (split; [done|]);
      rewrite !elem_of_cons; auto.
Qed.

(** A filter on one key of one facet selects the products with this facet
    value. *)
Lemma filter_by_facets_single (products : list (gmap string string))
  (facet_name key : string) :
  NoDup ((fun product => doc_get product "id" "") <$> products) ->
  size (filter_by_facets products
          (list_to_set ((fun product => doc_get product "id" "") <$> products))
          [(facet_name, [key])])
  = length (filter (fun product => filter_value product facet_name = Some key)
              products).
Proof.
  intros Hnd.
  set (ids := (fun product : gmap string string => doc_get product "id" "")
              <$> products).
  set (selected := filter (fun product : gmap string string =>
                             filter_value product facet_name = Some key)
                          products).
  assert (filter_by_facets products (list_to_set ids) [(facet_name, [key])]
          = list_to_set ((fun product : gmap string string =>
                            doc_get product "id" "") <$> selected)) as ->.
  { apply set_eq. intros x.
    rewrite elem_of_filter_by_facets, !elem_of_list_to_set, list_elem_of_fmap.
    split.
    - intros (_ & p & Hp & Hid & Hpass). exists p. split; [done|].
      apply list_elem_of_filter. split; [|done].
      destruct (Hpass facet_name [key]) as (v & Hv & Hin);
        [apply elem_of_cons; by left|done|].
      apply list_elem_of_singleton in Hin. by subst.
    - intros (p & -> & [Hval Hp]%list_elem_of_filter). split.
      + apply list_elem_of_fmap. by exists p.
      + exists p. split; [done|]. split; [done|].
        intros name sel Hin%list_elem_of_singleton _. injection Hin as -> ->.
        exists key. split; [done|]. apply elem_of_cons. by left. }
  rewrite size_list_to_set, length_fmap; [done|].
  eapply sublist_NoDup; [exact Hnd|]. apply fmap_sublist, sublist_filter.
Qed.

Lemma labelled_positive (products : list (gmap string string))
  (label : gmap string string -> option string) (key : string) :
  1 <= labelled products label key ->
  exists product, product ∈ products /\ label product = Some key.
Proof.
  unfold labelled. intros Hpos.
  destruct (filter _ products) as [|p rest] eqn:Hf; [cbn in Hpos; lia|].
  assert (p ∈ filter (fun product => label product = Some key) products) as Hp.
  { rewrite Hf. apply elem_of_cons. by left. }
  apply list_elem_of_filter in Hp as [? ?]. by exists p.
Qed.

Lemma facet_agrees (products : list (gmap string string))
  (label : gmap string string -> option string) (facet_name key : string) :
  NoDup ((fun product => doc_get product "id" "") <$> products) ->
  (forall product, product ∈ products ->
     filter_value product facet_name = Some key <-> label product = Some key) ->
  size (filter_by_facets products
          (list_to_set ((fun product => doc_get product "id" "") <$> products))
          [(facet_name, [key])])
  = labelled products label key.
Proof.
  intros Hnd Hsame. rewrite filter_by_facets_single by done.
  unfold labelled. f_equal. by apply filter_ext_elem.
Qed.

(** X29. The facet counts agree with the facet filter. In a store where no
    two products share an id, the count that [_build_facets] shows for a
    price tier or for a value of the detailed-specifications facet is the
    number of products that [filter_by_facets] selects for it among all
    products; the same holds for a brand if no [Brand] field has white
    space around it, and for a type if no [Type] field has. *)
Theorem _build_facets_agree_with_filter (products : list (gmap string string)) :
  NoDup ((fun product => doc_get product "id" "") <$> products) ->
  let facets := _build_facets products in
  let product_ids : gset string :=
    list_to_set ((fun product => doc_get product "id" "") <$> products) in
  (forall key n, (key, n) ∈ facet_price_range facets ->
     size (filter_by_facets products product_ids [("price_range", [key])]) = n)
  /\ (forall key n, (key, n) ∈ facet_has_specs facets ->
        size (filter_by_facets products product_ids [("has_specs", [key])]) = n)
  /\ ((forall product text, product ∈ products ->
         product !! "Brand" = Some text -> strip text = text) ->
      forall key n, (key, n) ∈ facet_brand facets ->
        size (filter_by_facets products product_ids [("brand", [key])]) = n)
  /\ ((forall product text, product ∈ products ->
         product !! "Type" = Some text -> strip text = text) ->
      forall key n, (key, n) ∈ facet_type facets ->
        size (filter_by_facets products product_ids [("type", [key])]) = n).
Proof.
  intros Hnd facets product_ids. subst facets product_ids.
  unfold _build_facets. cbn zeta. rewrite facet_fold. cbn.
  split; [|split; [|split]].
  - intros key n Hin.
    destruct (facet_counts_fold products price_range_label)
      as (_ & _ & _ & Hcount & _).
    destruct (Hcount key n Hin) as [_ ->].
    apply facet_agrees; [done|]. intros p _.
    rewrite price_range_label_Some.
    unfold filter_value. by repeat (case_bool_decide; [done|]).
  - intros key n Hin.
    destruct (facet_counts_fold products has_specs_label)
      as (_ & _ & _ & Hcount & _).
    destruct (Hcount key n Hin) as [_ ->].
    apply facet_agrees; [done|]. intros p _.
    unfold filter_value, has_specs_label.
    by repeat (case_bool_decide; [done|]).
  - intros Hstrip key n Hin.
    destruct (facet_counts_fold products brand_label)
      as (_ & _ & _ & Hcount & _).
    destruct (Hcount key n Hin) as [Hpos ->].
    destruct (labelled_positive _ _ _ Hpos) as (q & _ & Hq).
    assert (key <> "") as Hkey.
    { unfold brand_label in Hq. destruct (q !! "Brand"); [|done].
      repeat case_bool_decide; try done. cbn zeta in Hq. congruence. }
    apply facet_agrees; [done|]. intros p Hp.
    unfold filter_value, brand_label, doc_get.
    rewrite bool_decide_eq_true_2 by done.
    destruct (p !! "Brand") as [text|] eqn:Htext; cbn.
    + rewrite (Hstrip p text Hp Htext).
      case_bool_decide; [split; intros [= ?]; congruence|done].
    + split; intros [= ?]; congruence.
  - intros Hstrip key n Hin.
    destruct (facet_counts_fold products type_label)
      as (_ & _ & _ & Hcount & _).
    destruct (Hcount key n Hin) as [Hpos ->].
    destruct (labelled_positive _ _ _ Hpos) as (q & _ & Hq).
    assert (key <> "") as Hkey.
    { unfold type_label in Hq. destruct (q !! "Type"); [|done].
      repeat case_bool_decide; try done. cbn zeta in Hq. congruence. }
    apply facet_agrees; [done|]. intros p Hp.
    unfold filter_value, type_label, doc_get.
    rewrite bool_decide_eq_false_2 by done.
    rewrite bool_decide_eq_true_2 by done.
    destruct (p !! "Type") as [text|] eqn:Htext; cbn.
    + rewrite (Hstrip p text Hp Htext).
      case_bool_decide; [split; intros [= ?]; congruence|done].
    + split; intros [= ?]; congruence.
Qed.

Lemma _build_facets_agree_with_filter_witness :
  let products : list (gmap string string) :=
    [ {[ "id" := "1"; "Name" := "Budget phone" ]};
      {[ "id" := "2"; "Name" := "Camera" ]} ] in
  NoDup ((fun product => doc_get product "id" "") <$> products)
  /\ facet_price_range (_build_facets products)
     = [("Budget", 1); ("Standard", 1)]
  /\ forall key n,
       (key, n) ∈ facet_price_range (_build_facets products) ->
       size (filter_by_facets products
               (list_to_set
                  ((fun product => doc_get product "id" "") <$> products))
               [("price_range", [key])]) = n.
Proof.
  intros products.
  assert (H1 : NoDup ((fun product => doc_get product "id" "") <$> products)).
  { apply (bool_decide_unpack _). by vm_compute. }
  split; [exact H1|]. split; [by vm_compute|].
  destruct (_build_facets_agree_with_filter products H1) as [H2 _].
  exact H2.
Defined.

(** ** The facet filter and the facet values *)

Lemma _infer_category_not_empty (product_type : string) :
  _infer_category product_type <> "".
Proof.
  unfold _infer_category. cbn zeta.
  by repeat (destruct (any_in _ _); [done|]).
Qed.

(** On a product with trimmed fields the filter reads the facet value. *)
Lemma filter_value_trimmed (product : gmap string string) (facet_name : string) :
  fields_trimmed product ->
  filter_value product facet_name = facet_value product facet_name.
Proof.
  intros Htrim.
  destruct (Htrim "Brand") as (brand & Hbrand & Hbne & Hbstrip);
    [apply elem_of_cons; by left|].
  destruct (Htrim "Type") as (type & Htype & Htne & Htstrip);
    [apply elem_of_cons; right; apply elem_of_cons; by left|].
  assert (type_label product = Some type) as Hlabel.
  { unfold type_label. rewrite Htype, bool_decide_eq_false_2 by done.
    cbn zeta. by rewrite Htstrip, bool_decide_eq_false_2. }
  unfold filter_value, facet_value.
  repeat (case_bool_decide; [subst facet_name|]); [..|done].
  - unfold brand_label, doc_get. rewrite Hbrand. cbn.
    rewrite bool_decide_eq_false_2 by done.
    cbn zeta. by rewrite Hbstrip, bool_decide_eq_false_2.
  - rewrite Hlabel. unfold doc_get. by rewrite Htype.
  - unfold category_label. rewrite Hlabel. cbn zeta.
    rewrite bool_decide_eq_false_2 by apply _infer_category_not_empty.
    unfold doc_get. by rewrite Htype.
  - by rewrite price_range_label_Some.
  - done.
Qed.

(** C9. [filter_by_facets] compares the [Brand] and the [Type] field of a
    product as they are stored, not its facet value, which is the field
    without the white space around it. The empty [filters] returns the
    candidate ids unchanged, and on products whose [Brand] and [Type] are
    there, not empty and trimmed, the filter returns exactly the candidate
    ids of the products that are selected by their facet values. But a
    product of brand Samsung, stored with a space on either side, is
    counted under the facet value Samsung and is not returned for the
    selection of Samsung; it is returned if the selection spells the field
    with its spaces. *)
Theorem filter_by_facets_untrimmed_brand :
  (forall products product_ids,
     filter_by_facets products product_ids [] = product_ids)
  /\ (forall products product_ids f filters product_id,
        (forall product, product ∈ products -> fields_trimmed product) ->
        product_id ∈ filter_by_facets products product_ids (f :: filters)
        <-> product_id ∈ product_ids
            /\ exists product, product ∈ products
                 /\ doc_get product "id" "" = product_id
                 /\ selected_by_facet_value product (f :: filters))
  /\ (let product : gmap string string :=
        {[ "id" := "1"; "Brand" := " Samsung "; "Type" := "Phone" ]} in
      let product_ids : gset string := {[ "1" ]} in
      facet_brand (_build_facets [product]) = [("Samsung", 1)]
      /\ facet_value product "brand" = Some "Samsung"
      /\ selected_by_facet_value product [("brand", ["Samsung"])]
      /\ filter_by_facets [product] product_ids [("brand", ["Samsung"])] = ∅
      /\ filter_by_facets [product] product_ids [("brand", [" Samsung "])]
         = product_ids).
Proof.
  split; [done|]. split.
  - intros products product_ids f filters product_id Htrim.
    rewrite elem_of_filter_by_facets.
    split; intros (Hid & product & Hin & Hpid & Hpass); (split; [done|]);
      exists product; (split; [done|]); (split; [done|]);
      intros facet_name selected_values Hf Hne;
      destruct (Hpass facet_name selected_values Hf Hne) as (v & Hv & Hsel);
      exists v; (split; [|done]).
    + by rewrite <- filter_value_trimmed by auto.
    + by rewrite filter_value_trimmed by auto.
  - cbn zeta. split; [by vm_compute|]. split; [by vm_compute|].
    split; [|split; by vm_compute].
    intros facet_name selected_values
      [[= -> ->]|Hin%elem_of_nil]%elem_of_cons _; [|done].
    exists "Samsung". split; [by vm_compute|]. apply elem_of_cons. by left.
Qed.

(** ** The cache warmer *)

Lemma chars_app (s t : string) : chars (s ++ t) = chars s ++ chars t.
Proof.
  induction s as [|c s IH]; [done|].
  change (String c s ++ t)%string with (String c (s ++ t)).
  change (chars (String c (s ++ t))) with (c :: chars (s ++ t)).
  by rewrite IH.
Qed.

Lemma warm_key_inj (q q' : string) : warm_key q = warm_key q' -> q = q'.
Proof.
  unfold warm_key. intros Heq. apply (f_equal chars) in Heq.
  rewrite !chars_app in Heq. apply app_inv_head in Heq.
  apply app_inv_tail in Heq. by apply chars_inj.
Qed.

Section Warming.
Context {V : Type}.
Variable warmed : string -> V.
Variable clock : string -> Qc.
Implicit Types (c : LRUCache V).

Lemma warm_step_ok c n query :
  cache_wf c -> 1 <= max_size c ->
  warm_step warmed clock (c, n) query
  = ((put (clock query) (warm_key query) (warmed query) c).1, S n).
Proof.
  intros Hwf Hms. unfold warm_step.
  destruct (put_kept (clock query) (warm_key query) (warmed query) c Hwf Hms)
    as (Hok & _).
  destruct (put _ _ _ c) as [c' r]. cbn in *. by rewrite Hok.
Qed.

(** Warming [queries]: every [put] succeeds, and what the cache holds then
    is a warmed entry or was there before. *)
Lemma warm_fold (queries : list string) :
  forall c n,
    cache_wf c -> 1 <= max_size c ->
    let st := foldl (warm_step warmed clock) (c, n) queries in
    cache_wf st.1 /\ max_size st.1 = max_size c
    /\ st.2 = n + length queries
    /\ forall key value,
         (key, value) ∈ cache st.1 ->
         key ∈ warm_key <$> queries \/ (key, value) ∈ cache c.
Proof.
  induction queries as [|query queries IH]; intros c n Hwf Hms; cbn [foldl].
  - cbn. split; [done|]. split; [done|]. split; [lia|]. by right.
  - rewrite warm_step_ok by done.
    destruct (put_kept (clock query) (warm_key query) (warmed query) c Hwf Hms)
      as (_ & Hwf' & Hms' & kept & Hc & Hkept).
    destruct (IH (put (clock query) (warm_key query) (warmed query) c).1 (S n)
                Hwf' ltac:(lia)) as (IH1 & IH2 & IH3 & IH4).
    cbn zeta in *. split; [done|]. split; [congruence|].
    split; [cbn [length]; lia|].
    intros key value Hin. rewrite fmap_cons, elem_of_cons.
    destruct (IH4 key value Hin) as [?|Hin']; [by left; right|].
    rewrite Hc in Hin'.
    apply elem_of_app in Hin' as [Hin'|Heq%list_elem_of_singleton].
    + right. destruct Hkept as [->|(_ & oldest & ->)].
      * unfold od_del in Hin'. by apply list_elem_of_filter in Hin' as [_ ?].
      * apply elem_of_cons. by right.
    + left. left. by injection Heq.
Qed.

(** With room for all of them, the warmed entries end up last in the
    cache. *)
Lemma warm_fold_suffix (queries : list string) :
  forall warmed_before c n pre suffix,
    NoDup (warmed_before ++ queries) ->
    length (warmed_before ++ queries) <= max_size c ->
    cache_wf c -> 1 <= max_size c ->
    cache c = pre ++ suffix ->
    suffix.*1 = warm_key <$> warmed_before ->
    exists pre' suffix',
      cache (foldl (warm_step warmed clock) (c, n) queries).1 = pre' ++ suffix'
      /\ suffix'.*1 = warm_key <$> (warmed_before ++ queries).
Proof.
  induction queries as [|query queries IH];
    intros warmed_before c n pre suffix Hnd Hlen Hwf Hms Hc Hsuffix;
    cbn [foldl].
  - exists pre, suffix. by rewrite app_nil_r.
  - rewrite warm_step_ok by done.
    destruct (put_kept (clock query) (warm_key query) (warmed query) c Hwf Hms)
      as (_ & Hwf' & Hms' & kept & Hc' & Hkept).
    assert (warm_key query ∉ suffix.*1) as Hfresh.
    { rewrite Hsuffix. intros (q & Hq%warm_key_inj & Hin)%list_elem_of_fmap.
      subst q. apply NoDup_app in Hnd as (_ & Hnd & _).
      apply (Hnd query Hin). apply elem_of_cons. by left. }
    assert (exists pre', kept = pre' ++ suffix) as [pre' ->].
    { destruct Hkept as [->|(Hfull & oldest & Hold)].
      - exists (od_del (warm_key query) pre). rewrite Hc. unfold od_del.
        rewrite filter_app. f_equal. by apply od_del_absent.
      - destruct pre as [|p pre].
        + exfalso. cbn in Hc. rewrite Hc in Hfull.
          rewrite <- (length_fmap fst), Hsuffix, length_fmap in Hfull.
          rewrite length_app in Hlen. cbn in Hlen. lia.
        + exists pre. rewrite Hc in Hold. cbn in Hold. by injection Hold. }
    replace (warmed_before ++ query :: queries)
      with ((warmed_before ++ [query]) ++ queries) in *
      by (by rewrite <- app_assoc).
    apply (IH (warmed_before ++ [query]) _ (S n) pre'
              (suffix ++ [(warm_key query, warmed query)]));
      [done|lia|done|lia|by rewrite Hc', app_assoc|].
    by rewrite !fmap_app, Hsuffix.
Qed.

End Warming.

(** X30. What [warm_query_cache] does to the query cache. On a cache of
    capacity at least 1 it reports 16 warmed queries, and with a capacity
    of at least 16 their 16 entries are then the last ones of the cache, in
    the order of [popular_queries]; on a cache of capacity 0 every [put]
    fails, nothing is stored and 0 is reported. Warming adds entries under
    the keys [warm_<query>_all] only: whatever else the cache holds after
    warming, it held before. *)
Theorem warm_query_cache_stores {V : Type} (warmed : string -> V)
  (clock : string -> Qc) (c : LRUCache V) :
  cache_wf c -> size_ c <= max_size c ->
  let c' := (warm_query_cache warmed clock c).1 in
  let warmed_count := (warm_query_cache warmed clock c).2 in
  (1 <= max_size c -> warmed_count = 16)
  /\ (16 <= max_size c ->
      exists others entries,
        cache c' = others ++ entries
        /\ entries.*1 = warm_key <$> popular_queries)
  /\ (max_size c = 0 -> warmed_count = 0 /\ c' = c)
  /\ (forall key value,
        (key, value) ∈ cache c' ->
        key ∈ warm_key <$> popular_queries \/ (key, value) ∈ cache c).
Proof.
  intros Hwf Hsz c' warmed_count. subst c' warmed_count.
  unfold warm_query_cache.
  assert (max_size c = 0 ->
          forall queries n,
            foldl (warm_step warmed clock) (c, n) queries = (c, n)) as Hfold.
  { intros Hms. assert (cache c = []) as Hempty.
    { unfold size_ in Hsz. rewrite Hms in Hsz.
      destruct (cache c); [done|cbn in Hsz; lia]. }
    induction queries as [|query queries IH]; intros n; [done|].
    cbn [foldl]. unfold warm_step at 2.
    rewrite put_empty_full by done. apply IH. }
  split; [|split; [|split]].
  - intros Hms.
    by destruct (warm_fold warmed clock popular_queries c 0 Hwf Hms)
      as (_ & _ & -> & _).
  - intros Hms.
    destruct (warm_fold_suffix warmed clock popular_queries [] c 0 (cache c) [])
      as (others & entries & Hc & Hentries);
      [apply (bool_decide_unpack _); by vm_compute|cbn; lia|done|lia
      |by rewrite app_nil_r|done|].
    by exists others, entries.
  - intros Hms. by rewrite (Hfold Hms).
  - intros key value Hin.
    destruct (decide (1 <= max_size c)) as [Hms|Hms].
    + destruct (warm_fold warmed clock popular_queries c 0 Hwf Hms)
        as (_ & _ & _ & Hfrom).
      by apply Hfrom.
    + right. by rewrite Hfold in Hin by lia.
Qed.

Lemma warm_query_cache_stores_witness :
  let c := @LRUCache_init nat 500 (qz 1800) in
  cache_wf c /\ size_ c <= max_size c
  /\ (warm_query_cache (fun _ => 1) (fun _ => qz 0) c).2 = 16.
Proof.
  intros c.
  assert (H1 : cache_wf c) by apply LRUCache_init_wf.
  assert (H2 : size_ c <= max_size c) by (cbn; lia).
  split; [exact H1|]. split; [exact H2|].
  destruct (warm_query_cache_stores (fun _ => 1) (fun _ => qz 0) c H1 H2)
    as [H3 _].
  apply H3. cbn. lia.
Defined.
